(** * Tree-data utilities of react-sortable-tree: index/path correspondence

    Shallow embedding of [src/utils/tree-data-utils.js] and the properties
    its specification states about it.

    - Nodes are records with the two fields the module reads ([children],
      [expanded]); every other field is an opaque payload.
    - The functions the caller hands in ([getNodeKey], the walk [callback],
      the [newNode] producer) are JavaScript functions: they are modelled as
      actions on a caller state [St], so that the number and order of their
      invocations can be observed.  A pure key function is the instance that
      leaves the state alone.
    - [throw] statements and the faults of the JavaScript runtime are an
      explicit [Outcome]. *)

From Stdlib Require Import String ZArith Bool List Lia.
Import ListNotations.
Open Scope Z_scope.
Set Implicit Arguments.

(* ================================================================== *)
(** ** Data model *)

(** A key is what [getNodeKey] returns and what a path is made of
    (JSDoc: [number[]|string[]]); keys are compared with [!==]. *)
Inductive Key : Type :=
| KStr (s : string)
| KNum (z : Z).

Definition Key_eqb (a b : Key) : bool :=
  match a, b with
  | KStr s, KStr t => String.eqb s t
  | KNum x, KNum y => Z.eqb x y
  | _, _ => false
  end.

(** [node.children]: absent, an array of nodes, or a function that will
    produce the children later.  Of a function the module only ever reads
    [typeof], [.length] (its number of declared parameters) and indexed
    slots (which are [undefined]). *)
Inductive Children (N : Type) : Type :=
| Absent
| Items (items : list N)
| Lazy (arity : nat).
Arguments Absent {N}.
Arguments Items {N} items.
Arguments Lazy {N} arity.

(** [node.expanded]: not set, [false] or [true]. *)
Definition Expanded := option bool.

#[warnings="-register-all"]
Inductive Node (Fields : Type) : Type :=
  MkNode { fields : Fields; expanded : Expanded; children : Children (Node Fields) }.

(** How a call can end other than by returning.

    - [NoNodeFound] and [NoChildrenOnPath] are the two [throw] statements of
      [changeNodeAtPath].
    - [TypeError] is the fault of reading [.children] of [null] or
      [undefined].
    - [UndefinedChild]: a loop read slot [i] of a function-valued
      [children] and recursed on it.  The slot holds [undefined].  In
      [changeNodeAtPath] a TypeError follows in every case (from the key
      function, from [node.children] of [undefined], or from
      [node.children.slice] of the function).  In
      [getNodeDataAtTreeIndexOrNextIndex] a TypeError follows as well,
      unless the key function never reads its node and the slot carries
      the target index: then a record without node comes back, the caller
      takes it for a miss and goes on with [undefined] for index, and
      nothing is found.  In no case does the record of a node come back.
    - [IndexLost]: [.nextIndex] read on a record that has none.  The
      mutation never gets there ([changeNodeAtPath_keeps_index]). *)
Inductive Fault : Type :=
| NoNodeFound        (* Error('No node found at the given path.') *)
| NoChildrenOnPath   (* Error('Path referenced children of node with no children.') *)
| TypeError
| UndefinedChild
| IndexLost.

Inductive Outcome (A : Type) : Type :=
| Ok (a : A)
| Throw (e : Fault).
Arguments Ok {A} a.
Arguments Throw {A} e.

(* ================================================================== *)
(** ** State and failure monad *)

Definition M (St A : Type) : Type := St -> St * Outcome A.

Definition ret {St A} (a : A) : M St A := fun s => (s, Ok a).

Definition bind {St A B} (m : M St A) (f : A -> M St B) : M St B :=
  fun s => match m s with
           | (s', Ok a) => f a s'
           | (s', Throw e) => (s', Throw e)
           end.

Definition throw {St A} (e : Fault) : M St A := fun s => (s, Throw e).

(** A call of a caller-supplied function. *)
Definition call {St A} (f : St -> St * A) : M St A :=
  fun s => let (s', a) := f s in (s', Ok a).

Declare Scope monad_scope.
Delimit Scope monad_scope with monad.
Notation "x <- m ;; k" := (bind m (fun x => k))
  (at level 61, m at next level, right associativity) : monad_scope.
Open Scope monad_scope.

(* ================================================================== *)
(** ** The module *)

Section TreeDataUtils.

Variable Fields : Type.
(** The payload of an object literal that has no field besides [children]
    and [expanded] (the pseudo-root). *)
Variable noFields : Fields.

#[local] Abbreviation Node := (Node Fields).
#[local] Abbreviation Tree := (list Node).

(** [{ node, lowerSiblingCounts, path }] *)
Record NodeInfo : Type := MkInfo {
  node : Node;
  lowerSiblingCounts : list Z;
  path : list Key;
}.

(** [{ node, path, lowerSiblingCounts, treeIndex }], the callback's argument *)
Record WalkInfo : Type := MkWalkInfo {
  w_node : Node;
  w_path : list Key;
  w_lowerSiblingCounts : list Z;
  w_treeIndex : Z;
}.

(** The result of [getNodeDataAtTreeIndexOrNextIndex]: the target's record
    (its [node] is an object, so [result.node] is truthy) or
    [{ nextIndex }]. *)
Inductive Seek : Type :=
| Found (r : NodeInfo)
| NextIndex (n : Z).

(** The result of [walkDescendants]: [false] or the last index used. *)
Inductive WalkResult : Type :=
| Stopped
| LastIndex (n : Z).

(** [!node.children] *)
Definition noChildren (n : Node) : bool :=
  match children n with Absent => true | _ => false end.

(** [node.expanded !== true] *)
Definition notExpanded (n : Node) : bool :=
  match expanded n with Some true => false | _ => true end.

(** [typeof node.children === 'function'] *)
Definition childrenIsFunction (n : Node) : bool :=
  match children n with Lazy _ => true | _ => false end.

Section WithState.

Variable St : Type.

(** [getNodeKey({ node, treeIndex })] *)
Variable getNodeKey : Node -> Z -> St -> St * Key.

(** *** getNodeDataAtTreeIndexOrNextIndex *)

(** The [for] loop over [node.children]; [visit child childIndex below]
    is the recursive call, [below] being [childCount - i - 1]. *)
Definition seekChildren (visit : Node -> Z -> Z -> M St Seek) (childCount : Z)
  : list Node -> Z -> Z -> M St Seek :=
  fix loop (rest : list Node) (i childIndex : Z) {struct rest} : M St Seek :=
    match rest with
    | [] => ret (NextIndex childIndex)
    | child :: rest' =>
        result <- visit child childIndex (childCount - i - 1) ;;
        match result with
        | Found _ => ret result
        | NextIndex n => loop rest' (i + 1) n
        end
    end.

Fixpoint getNodeDataAtTreeIndexOrNextIndex
  (node : Node) (currentIndex targetIndex : Z)
  (path : list Key) (lowerSiblingCounts : list Z)
  (ignoreCollapsed isPseudoRoot : bool) {struct node} : M St Seek :=
  (* The pseudo-root is not considered in the path *)
  selfPath <- (if negb isPseudoRoot
               then k <- call (getNodeKey node currentIndex) ;; ret (path ++ [k])
               else ret []) ;;
  (* Return target node when found *)
  if currentIndex =? targetIndex then
    ret (Found (MkInfo node lowerSiblingCounts selfPath))
  (* Add one and continue for nodes with no children or hidden children *)
  else if noChildren node || (ignoreCollapsed && notExpanded node) then
    ret (NextIndex (currentIndex + 1))
  else
    match children node with
    | Absent => ret (NextIndex (currentIndex + 1))
    | Items items =>
        seekChildren
          (fun child childIndex below =>
             getNodeDataAtTreeIndexOrNextIndex child childIndex targetIndex
               selfPath (lowerSiblingCounts ++ [below]) true false)
          (Z.of_nat (length items)) items 0 (currentIndex + 1)
    | Lazy arity =>
        (* childCount is the function's arity and every slot is undefined:
           the code recurses on the slot and calls the key function on it
           before it fails or comes back without a node; the model stops
           here with UndefinedChild, and what is proved of the calls made
           is proved of trees on which this is not reached *)
        match arity with
        | O => ret (NextIndex (currentIndex + 1))
        | _ => throw UndefinedChild
        end
    end.

(** *** getVisibleNodeInfoAtIndex *)

Definition getVisibleNodeInfoAtIndex (treeData : Tree) (targetIndex : Z)
  : M St (option NodeInfo) :=
  if (Z.of_nat (length treeData) <? 1) then ret None
  else
    result <- getNodeDataAtTreeIndexOrNextIndex
                (MkNode noFields (Some true) (Items treeData))
                (-1) targetIndex [] [] true true ;;
    match result with
    | Found r => ret (Some r)
    | NextIndex _ => ret None
    end.

(** *** walkDescendants *)

Variable callback : WalkInfo -> St -> St * bool.

Definition walkChildren (visit : Node -> Z -> Z -> M St WalkResult) (childCount : Z)
  : list Node -> Z -> Z -> M St WalkResult :=
  fix loop (rest : list Node) (i childIndex : Z) {struct rest} : M St WalkResult :=
    match rest with
    | [] => ret (LastIndex childIndex)
    | child :: rest' =>
        r <- visit child (childIndex + 1) (childCount - i - 1) ;;
        match r with
        | Stopped => ret Stopped
        | LastIndex n => loop rest' (i + 1) n
        end
    end.

Fixpoint walkDescendants (ignoreCollapsed isPseudoRoot : bool)
  (node : Node) (currentIndex : Z)
  (path : list Key) (lowerSiblingCounts : list Z) {struct node} : M St WalkResult :=
  (* The pseudo-root is not considered in the path *)
  selfPath <- (if negb isPseudoRoot
               then k <- call (getNodeKey node currentIndex) ;; ret (path ++ [k])
               else ret []) ;;
  callbackResult <- (if negb isPseudoRoot
                     then call (callback (MkWalkInfo node selfPath lowerSiblingCounts currentIndex))
                     else ret true) ;;
  (* Cut walk short if the callback returned false *)
  if negb callbackResult then ret Stopped
  (* Return self on nodes with no children or hidden children *)
  else if noChildren node
          || (notExpanded node && ignoreCollapsed && negb isPseudoRoot) then
    ret (LastIndex currentIndex)
  else
    match children node with
    | Absent => ret (LastIndex currentIndex)
    | Items items =>
        walkChildren
          (fun child childIndex below =>
             walkDescendants ignoreCollapsed false child childIndex
               selfPath (lowerSiblingCounts ++ [below]))
          (Z.of_nat (length items)) items 0 currentIndex
    | Lazy _ =>
        (* typeof node.children === 'function': the loop is not entered *)
        ret (LastIndex currentIndex)
    end.

(** *** walk: [undefined] on an empty tree *)

Definition walk (treeData : Tree) (ignoreCollapsed : bool)
  : M St (option WalkResult) :=
  if (Z.of_nat (length treeData) <? 1) then ret None
  else
    r <- walkDescendants ignoreCollapsed true
           (MkNode noFields None (Items treeData)) (-1) [] [] ;;
    ret (Some r).

(** *** changeNodeAtPath *)

(** What the [newNode] producer can hand back (and so what the local
    [traverse] can return): a node object, [null]/[undefined], another falsy
    value, or the text ['RESULT_MISS'], which is the constant [RESULT_MISS]
    itself. *)
Inductive Produced : Type :=
| PNode (n : Node)
| PNull
| PFalse
| PMiss.

(** [newNode]: a function producing the new node, or the value itself. *)
Inductive NewNode : Type :=
| NewValue (v : Produced)
| NewFunction (f : Node -> Z -> St -> St * Produced).

(** [path[pathIndex]], [undefined] outside the array *)
Definition pathAt (path : list Key) (pathIndex : Z) : option Key :=
  if pathIndex <? 0 then None else nth_error path (Z.to_nat pathIndex).

(** [key !== path[pathIndex]] *)
Definition keyDiffers (k : Key) (p : option Key) : bool :=
  match p with
  | Some k' => negb (Key_eqb k k')
  | None => true
  end.

(** [{ ...node, children }] *)
Definition withChildren (node : Node) (items : list Node) : Node :=
  MkNode (fields node) (expanded node) (Items items).

(** The [for] loop of the local [traverse]: [visit] is the recursive call on
    a child, [skip] the call of [getNodeDataAtTreeIndexOrNextIndex] that
    yields the index after a rejected child. *)
Definition traverseChildren (visit : Node -> Z -> M St Produced)
  (skip : Node -> Z -> M St Z) (node : Node) (all : list Node)
  : list Node -> nat -> Z -> M St Produced :=
  fix loop (rest : list Node) (i : nat) (nextTreeIndex : Z) {struct rest}
    : M St Produced :=
    match rest with
    | [] => ret PMiss
    | child :: rest' =>
        result <- visit child nextTreeIndex ;;
        match result with
        | PMiss =>
            next <- skip child nextTreeIndex ;;
            loop rest' (S i) next
        | PNode r =>
            (* truthy: pass it to the next level of recursion up *)
            ret (PNode (withChildren node
                          (firstn i all ++ [r] ++ skipn (i + 1) all)))
        | PNull | PFalse =>
            (* falsy: delete the node from the array *)
            ret (PNode (withChildren node (firstn i all ++ skipn (i + 1) all)))
        end
    end.

Section ChangeNodeAtPath.

Variable path : list Key.
Variable newNode : NewNode.
Variable ignoreCollapsed : bool.

(** [getNodeDataAtTreeIndexOrNextIndex({ getNodeKey, ignoreCollapsed, node,
    currentIndex, targetIndex: -1 }).nextIndex] *)
Definition nextIndexAfter (child : Node) (nextTreeIndex : Z) : M St Z :=
  r <- getNodeDataAtTreeIndexOrNextIndex child nextTreeIndex (-1) [] []
         ignoreCollapsed false ;;
  match r with
  | NextIndex n => ret n
  | Found _ => throw IndexLost
  end.

Fixpoint changeNodeAtPath_traverse (isPseudoRoot : bool) (node : Node)
  (currentTreeIndex pathIndex : Z) {struct node} : M St Produced :=
  miss <- (if negb isPseudoRoot
           then k <- call (getNodeKey node currentTreeIndex) ;;
                ret (keyDiffers k (pathAt path pathIndex))
           else ret false) ;;
  if miss then ret PMiss
  else if pathIndex >=? Z.of_nat (length path) - 1 then
    (* the final location in the path: return its changed form *)
    match newNode with
    | NewFunction f => call (f node currentTreeIndex)
    | NewValue v => ret v
    end
  else if noChildren node then throw NoChildrenOnPath
  else
    match children node with
    | Absent => throw NoChildrenOnPath
    | Items items =>
        traverseChildren
          (fun child nextTreeIndex =>
             changeNodeAtPath_traverse false child nextTreeIndex (pathIndex + 1))
          nextIndexAfter node items items O (currentTreeIndex + 1)
    | Lazy arity =>
        (* node.children.length is the arity, node.children[i] is undefined:
           the code recurses on the slot, calls the key function and
           possibly the producer on it, and ends in a TypeError; the model
           stops here with UndefinedChild, and what is proved of the calls
           made is proved of trees on which this is not reached *)
        match arity with
        | O => ret PMiss
        | _ => throw UndefinedChild
        end
    end.

(** Returns [result.children]. *)
Definition changeNodeAtPath (treeData : Tree) : M St (Children Node) :=
  result <- changeNodeAtPath_traverse true
              (MkNode noFields None (Items treeData)) (-1) (-1) ;;
  match result with
  | PMiss => throw NoNodeFound
  | PNode n => ret (children n)
  | PNull => throw TypeError
  | PFalse => ret Absent
  end.

End ChangeNodeAtPath.

(** *** removeNodeAtPath: [newNode: null] *)

Definition removeNodeAtPath (treeData : Tree) (path : list Key)
  (ignoreCollapsed : bool) : M St (Children Node) :=
  changeNodeAtPath path (NewValue PNull) ignoreCollapsed treeData.

End WithState.

(** *** getVisibleNodeCount *)

Fixpoint getVisibleNodeCount_traverse (node : Node) : Z :=
  if noChildren node || notExpanded node || childrenIsFunction node then 1
  else
    match children node with
    | Items items =>
        1 + fold_left
              (fun total currentNode =>
                 total + getVisibleNodeCount_traverse currentNode)
              items 0
    | _ => 1
    end.

Definition getVisibleNodeCount (treeData : Tree) : Z :=
  fold_left
    (fun total currentNode => total + getVisibleNodeCount_traverse currentNode)
    treeData 0.

(** *** getVisibleNodeInfoFlattened *)

(** A JavaScript array with holes. *)
Definition JsArray (A : Type) : Type := list (option A).

(** [a[i] = v]: an index at or past [a.length] extends the array (leaving
    holes); a negative [i] names a property, not an element. *)
Definition arraySet {A} (a : JsArray A) (i : Z) (v : A) : JsArray A :=
  if i <? 0 then a
  else
    let n := Z.to_nat i in
    if (n <? length a)%nat
    then firstn n a ++ [Some v] ++ skipn (n + 1) a
    else a ++ repeat None (n - length a) ++ [Some v].

Section Flatten.

Variable St : Type.
Variable getNodeKey : Node -> Z -> St -> St * Key.

(** The key function, run next to the local array [flattened]. *)
Definition keyBeside (n : Node) (i : Z) (st : St * JsArray NodeInfo)
  : (St * JsArray NodeInfo) * Key :=
  let (s', k) := getNodeKey n i (fst st) in ((s', snd st), k).

(** [({ node, lowerSiblingCounts, path, treeIndex }) =>
       { flattened[treeIndex] = { node, lowerSiblingCounts, path }; }]
    returns [undefined], which is not [false]. *)
Definition flattenCallback (info : WalkInfo) (st : St * JsArray NodeInfo)
  : (St * JsArray NodeInfo) * bool :=
  ((fst st,
    arraySet (snd st) (w_treeIndex info)
      (MkInfo (w_node info) (w_lowerSiblingCounts info) (w_path info))),
   true).

Definition getVisibleNodeInfoFlattened (treeData : Tree)
  : M St (JsArray NodeInfo) :=
  if (Z.of_nat (length treeData) <? 1) then ret []
  else
    fun s =>
      let (st, _) := walk keyBeside flattenCallback treeData true (s, []) in
      (fst st, Ok (snd st)).

End Flatten.

End TreeDataUtils.

Arguments NextIndex {Fields} n.
Arguments PNull {Fields}.
Arguments PFalse {Fields}.
Arguments PMiss {Fields}.
Arguments NewValue {Fields St} v.

(* ================================================================== *)
(** ** addNodeUnderParentPath

    The body of the function is commented out in the source: a call reads
    none of its arguments, invokes nothing and returns [undefined]. *)

Definition addNodeUnderParentPath (Fields St : Type)
  (treeData : list (Node Fields)) (newNode : Node Fields)
  (newParentPath : list Key) (newChildIndex : Z)
  (getNodeKey : Node Fields -> Z -> St -> St * Key) (ignoreCollapsed : bool)
  : M St unit :=
  ret tt.

(* ================================================================== *)
(** ** Vocabulary of the properties

    Nothing below is part of the module: these are the notions the
    properties are stated and proved with. *)

Section Vocabulary.

Variable Fields : Type.
Variable noFields : Fields.

#[local] Abbreviation Node := (Node Fields).
#[local] Abbreviation Tree := (list Node).
#[local] Abbreviation WalkInfo := (WalkInfo Fields).
#[local] Abbreviation NodeInfo := (NodeInfo Fields).

(** *** Key functions, callbacks and producers that can be observed *)

(** A key function whose value does not depend on the caller state; [tick]
    is what an invocation leaves behind in that state. *)
Definition observedKey {St} (key : Node -> Z -> Key)
  (tick : Node -> Z -> St -> St) : Node -> Z -> St -> St * Key :=
  fun n i s => (tick n i s, key n i).

(** A pure key function. *)
Definition pureKey {St} (key : Node -> Z -> Key) : Node -> Z -> St -> St * Key :=
  observedKey key (fun _ _ s => s).

(** What a caller can see happen, in order. *)
Inductive Event : Type :=
| KeyCalled (n : Node) (treeIndex : Z)
| Visited (info : WalkInfo)
| ProducerCalled (n : Node) (treeIndex : Z).

Definition recordingKey (key : Node -> Z -> Key)
  : Node -> Z -> list Event -> list Event * Key :=
  observedKey key (fun n i log => log ++ [KeyCalled n i]).

(** A callback that notes its argument and answers [go info]
    ([false] asks the walk to stop). *)
Definition recordingCallback (go : WalkInfo -> bool)
  : WalkInfo -> list Event -> list Event * bool :=
  fun info log => (log ++ [Visited info], go info).

(** A producer that notes its argument and returns [make node treeIndex]. *)
Definition recordingProducer (make : Node -> Z -> Produced Fields)
  : NewNode Fields (list Event) :=
  NewFunction (fun n i log => (log ++ [ProducerCalled n i], make n i)).

(** *** The rows of a walk

    The records a full pre-order walk reports for a node standing at linear
    index [idx]: the node itself, then the rows of its children when they
    are walked. *)

Definition rowsOfChildren (visit : Node -> Z -> Z -> list WalkInfo)
  (childCount : Z) : list Node -> Z -> Z -> list WalkInfo :=
  fix loop (rest : list Node) (i idx : Z) {struct rest} : list WalkInfo :=
    match rest with
    | [] => []
    | child :: rest' =>
        let r := visit child idx (childCount - i - 1) in
        r ++ loop rest' (i + 1) (idx + Z.of_nat (length r))
    end.

Fixpoint rowsOfNode (key : Node -> Z -> Key) (ignoreCollapsed : bool)
  (n : Node) (idx : Z) (path : list Key) (lsc : list Z) {struct n}
  : list WalkInfo :=
  let selfPath := path ++ [key n idx] in
  MkWalkInfo n selfPath lsc idx ::
  (if noChildren n || (notExpanded n && ignoreCollapsed) then []
   else match children n with
        | Items items =>
            rowsOfChildren
              (fun c i below =>
                 rowsOfNode key ignoreCollapsed c i selfPath (lsc ++ [below]))
              (Z.of_nat (length items)) items 0 (idx + 1)
        | _ => []
        end).

Definition rowsOfTree (key : Node -> Z -> Key) (ignoreCollapsed : bool)
  (t : Tree) : list WalkInfo :=
  rowsOfChildren
    (fun c i below => rowsOfNode key ignoreCollapsed c i [] ([] ++ [below]))
    (Z.of_nat (length t)) t 0 0.

(** The rows carry consecutive indices. *)
Fixpoint indexedFrom (start : Z) (rows : list WalkInfo) : Prop :=
  match rows with
  | [] => True
  | r :: rest => w_treeIndex r = start /\ indexedFrom (start + 1) rest
  end.

Definition toInfo (r : WalkInfo) : NodeInfo :=
  MkInfo (w_node r) (w_lowerSiblingCounts r) (w_path r).

Section Runs.

Variable St : Type.
Variable tick : Node -> Z -> St -> St.
Variable callback : WalkInfo -> St -> St * bool.

(** Key the node of each row and hand the row to the callback, until the
    callback asks to stop. *)
Fixpoint feed (rows : list WalkInfo) (s : St) : St * bool :=
  match rows with
  | [] => (s, true)
  | r :: rest =>
      let (s', go) := callback r (tick (w_node r) (w_treeIndex r) s) in
      if go then feed rest s' else (s', false)
  end.

Definition walked (rows : list WalkInfo) (before : Z) (s : St)
  : St * Outcome WalkResult :=
  let (s', go) := feed rows s in
  (s', Ok (if go then LastIndex (before + Z.of_nat (length rows)) else Stopped)).

(** Keying every row. *)
Definition tickAll (rows : list WalkInfo) (s : St) : St :=
  fold_left (fun s r => tick (w_node r) (w_treeIndex r) s) rows s.

(** Key the node of each row until the row at [target] is met. *)
Fixpoint sought (rows : list WalkInfo) (target : Z) (s : St)
  : St * option NodeInfo :=
  match rows with
  | [] => (s, None)
  | r :: rest =>
      let s' := tick (w_node r) (w_treeIndex r) s in
      if w_treeIndex r =? target then (s', Some (toInfo r))
      else sought rest target s'
  end.

Definition seeked (rows : list WalkInfo) (start target : Z) (s : St)
  : St * Outcome (Seek Fields) :=
  let (s', o) := sought rows target s in
  (s', Ok (match o with
           | Some r => Found r
           | None => NextIndex (start + Z.of_nat (length rows))
           end)).

(** A tick next to the local array of [getVisibleNodeInfoFlattened]. *)
Definition tickBeside (n : Node) (i : Z) (st : St * JsArray NodeInfo)
  : St * JsArray NodeInfo := (tick n i (fst st), snd st).

End Runs.

(** What a result of the index-seeking traversal has to do with the rows
    of the subtree it ran on. *)
Definition seekAgrees (rows : list WalkInfo) (start target : Z)
  (res : Seek Fields) : Prop :=
  match res with
  | Found r =>
      exists row, In row rows /\ toInfo row = r /\ w_treeIndex row = target
  | NextIndex n => n = start + Z.of_nat (length rows)
  end.

(** What a run of the index-seeking traversal leaves in the state: the
    ticks of the first [k] rows, the last of them being the row found if
    one was found, all of them if the subtree was passed. *)
Definition seekTicked (St : Type) (tick : Node -> Z -> St -> St)
  (rows : list WalkInfo) (start target : Z) (s s' : St)
  (out : Outcome (Seek Fields)) : Prop :=
  exists k,
    (k <= length rows)%nat
    /\ s' = tickAll tick (firstn k rows) s
    /\ match out with
       | Ok (Found r) =>
           exists row,
             nth_error rows (k - 1) = Some row /\ (1 <= k)%nat
             /\ toInfo row = r /\ w_treeIndex row = target
       | Ok (NextIndex m) =>
           k = length rows /\ m = start + Z.of_nat (length rows)
       | Throw _ => True
       end.

(** *** Trees the index-seeking traversal can cross

    [getNodeDataAtTreeIndexOrNextIndex] reads the slots of [children]
    without asking whether it is a function: it gets through a node whose
    children it enters only if they are an array, or a function that
    declares no parameter. *)
Fixpoint seekable (n : Node) : bool :=
  if noChildren n || notExpanded n then true
  else match children n with
       | Items items => forallb seekable items
       | Lazy (S _) => false
       | _ => true
       end.

Definition treeSeekable (t : Tree) : bool := forallb seekable t.

(** *** The nodes of a tree *)

Fixpoint nodesOf (n : Node) : list Node :=
  n :: match children n with
       | Items items => flat_map nodesOf items
       | _ => []
       end.

Definition treeNodes (t : Tree) : list Node := flat_map nodesOf t.

(** *** Expanding a collapsed node *)

Definition expand (n : Node) : Node :=
  MkNode (fields n) (Some true) (children n).

(** [ExpandsAt n before after]: [after] is [before] with one visible
    occurrence of [n] turned into [expand n]. *)
Inductive ExpandsAt (n : Node) : Tree -> Tree -> Prop :=
| expands_here pre post :
    ExpandsAt n (pre ++ n :: post) (pre ++ expand n :: post)
| expands_below pre f items items' post :
    ExpandsAt n items items' ->
    ExpandsAt n (pre ++ MkNode f (Some true) (Items items) :: post)
                (pre ++ MkNode f (Some true) (Items items') :: post).

(** The array [getVisibleNodeInfoFlattened] returns under a pure key
    function. *)
Definition flattenedTree (key : Node -> Z -> Key) (t : Tree)
  : JsArray NodeInfo :=
  match snd (getVisibleNodeInfoFlattened noFields (pureKey key) t tt) with
  | Ok a => a
  | Throw _ => []
  end.

(** The visible descendants of a node once it is expanded: what flattening
    its children reports. *)
Definition visibleDescendantCount (key : Node -> Z -> Key) (n : Node) : Z :=
  match children n with
  | Items items => Z.of_nat (length (flattenedTree key items))
  | _ => 0
  end.

End Vocabulary.

Arguments KeyCalled {Fields} n treeIndex.
Arguments Visited {Fields} info.
Arguments ProducerCalled {Fields} n treeIndex.

Section Observations.

Variable Fields : Type.
Variable noFields : Fields.

#[local] Abbreviation Node := (Node Fields).
#[local] Abbreviation Tree := (list Node).
#[local] Abbreviation WalkInfo := (WalkInfo Fields).
#[local] Abbreviation NodeInfo := (NodeInfo Fields).

(** What the callback of a walk is shown, in order, when it answers [go]. *)
Definition visitedBy (key : Node -> Z -> Key) (ignoreCollapsed : bool)
  (t : Tree) (go : WalkInfo -> bool) : list (Event Fields) :=
  fst (walk noFields (pureKey key) (recordingCallback go) t ignoreCollapsed []).

(** A callback that remembers what it was shown and answers
    [decide seen info] ([false] asks the walk to stop): any callback whose
    answer depends on what it is shown now and was shown before. *)
Definition decidingCallback (decide : list WalkInfo -> WalkInfo -> bool)
  : WalkInfo -> list WalkInfo -> list WalkInfo * bool :=
  fun info seen => (seen ++ [info], decide seen info).

(** The records a walk shows to a callback that never stops it. *)
Definition walkOrder (key : Node -> Z -> Key) (ignoreCollapsed : bool)
  (t : Tree) : list WalkInfo :=
  fst (walk noFields (pureKey key) (decidingCallback (fun _ _ => true)) t
         ignoreCollapsed []).

(** The visits of a log. *)
Fixpoint visitsOf (log : list (Event Fields)) : list WalkInfo :=
  match log with
  | [] => []
  | Visited info :: rest => info :: visitsOf rest
  | _ :: rest => visitsOf rest
  end.

(** One key call for the node of each record, with the linear indices
    [from], [from + 1], ... *)
Fixpoint keyedInOrder (from : Z) (infos : list NodeInfo) : list (Event Fields) :=
  match infos with
  | [] => []
  | r :: rest => KeyCalled (node r) from :: keyedInOrder (from + 1) rest
  end.

(** One key call right before each visit, on the node and with the index
    the visit is about. *)
Definition keyedThenVisited (infos : list WalkInfo) : list (Event Fields) :=
  flat_map (fun info => [KeyCalled (w_node info) (w_treeIndex info); Visited info])
           infos.

(** The number of nodes of a subtree. *)
Fixpoint nodeSize (n : Node) : nat :=
  S match children n with
    | Items items => fold_right (fun c total => nodeSize c + total)%nat O items
    | _ => O
    end.

(** [key] applied along a chain of nodes with their linear indices. *)
Definition keysAlong (key : Node -> Z -> Key) (chain : list (Node * Z))
  : list Key :=
  map (fun m => key (fst m) (snd m)) chain.

(** A row of a walk below [scope], started at index [base] under the
    keys [path]: its node is one of [scope] and its path continues [path]
    with the keys of nodes of [scope], the last being its own. *)
Definition rowWithin (key : Node -> Z -> Key) (scope : list Node) (base : Z)
  (path : list Key) (depth : nat) (r : WalkInfo) : Prop :=
  In (w_node r) scope
  /\ exists chain,
       w_path r = path ++ keysAlong key (chain ++ [(w_node r, w_treeIndex r)])
       /\ length (w_lowerSiblingCounts r) = (depth + length chain)%nat
       /\ Forall (fun m => In (fst m) scope /\ base <= snd m)
                 (chain ++ [(w_node r, w_treeIndex r)]).

(** A record speaks of the tree only: its node is a node of the tree, its
    path is made of the keys of nodes of the tree taken at non-negative
    indices, one for each entry of its sibling counts, and ends with the
    key of the node itself. *)
Definition aboutTree (key : Node -> Z -> Key) (t : Tree)
  (n : Node) (path : list Key) (lsc : list Z) : Prop :=
  In n (treeNodes t)
  /\ (forall f e, n <> MkNode f e (Items t))
  /\ exists chain last,
       path = keysAlong key (chain ++ [(n, last)])
       /\ length path = length lsc
       /\ Forall (fun m => In (fst m) (treeNodes t) /\ 0 <= snd m)
                 (chain ++ [(n, last)]).

End Observations.

Section MutationVocabulary.

Variable Fields : Type.

#[local] Abbreviation Node := (Node Fields).
#[local] Abbreviation Tree := (list Node).

(** [SharedEdit d before after]: [after] is [before] with the node at the
    end of one chain of [d] ancestors replaced or removed.  Each ancestor
    is rebuilt with the fields and the [expanded] it had; every other
    member of every sequence on the way is the member it was, in place. *)
Inductive SharedEdit : nat -> Tree -> Tree -> Prop :=
| edit_replace pre old new post :
    SharedEdit 0 (pre ++ old :: post) (pre ++ new :: post)
| edit_remove pre old post :
    SharedEdit 0 (pre ++ old :: post) (pre ++ post)
| edit_below d pre f e items items' post :
    SharedEdit d items items' ->
    SharedEdit (S d) (pre ++ MkNode f e (Items items) :: post)
                     (pre ++ MkNode f e (Items items') :: post).

(** Below the last key of the path, the local [traverse] hands back either
    the miss marker or the node rebuilt around one edited child. *)
Definition rebuiltAround (depth : nat) (n : Node) (out : Produced Fields)
  : Prop :=
  out = PMiss
  \/ exists items items',
       children n = Items items
       /\ out = PNode (withChildren n items')
       /\ SharedEdit depth items items'.

(** *** Paths and the nodes they address

    Indices are the ones the mutation maintains: a child starts one past
    its parent and a sibling starts where the index-seeking traversal,
    run over the sibling before it with target -1, says the next index
    is. *)

(** The index after the subtree of [c] standing at [idx], under a pure key
    function. *)
Definition skipEnd (key : Node -> Z -> Key) (ignoreCollapsed : bool)
  (c : Node) (idx : Z) : Outcome Z :=
  snd (nextIndexAfter (pureKey key) ignoreCollapsed c idx tt).

Section Addressing.

Variable key : Node -> Z -> Key.
Variable ignoreCollapsed : bool.

(** [LeadsTo siblings idx path n i]: going down from the sequence
    [siblings], whose first member stands at index [idx], each key of
    [path] is the key of a node at its level, the last being the key of
    [n] at index [i]. *)
Inductive LeadsTo : Tree -> Z -> list Key -> Node -> Z -> Prop :=
| leads_here c rest idx k :
    key c idx = k ->
    LeadsTo (c :: rest) idx [k] c idx
| leads_below c rest idx k k' ks items n i :
    key c idx = k ->
    children c = Items items ->
    LeadsTo items (idx + 1) (k' :: ks) n i ->
    LeadsTo (c :: rest) idx (k :: k' :: ks) n i
| leads_later c rest idx idx' ks n i :
    skipEnd key ignoreCollapsed c idx = Ok idx' ->
    LeadsTo rest idx' ks n i ->
    LeadsTo (c :: rest) idx ks n i.

(** The key-path matches a node of the tree. *)
Definition pathMatches (t : Tree) (path : list Key) : Prop :=
  exists n i, LeadsTo t 0 path n i.

(** No member of [siblings] has the key [k], and each can be skipped. *)
Inductive NoneHasKey (k : Key) : Tree -> Z -> Prop :=
| none_nil idx : NoneHasKey k [] idx
| none_cons c rest idx idx' :
    key c idx <> k ->
    skipEnd key ignoreCollapsed c idx = Ok idx' ->
    NoneHasKey k rest idx' ->
    NoneHasKey k (c :: rest) idx.

(** [Addresses siblings idx path n i]: [path] leads to [n] at index [i]
    and, at every level, the node it goes through is the only one of its
    siblings that has its key. *)
Inductive Addresses : Tree -> Z -> list Key -> Node -> Z -> Prop :=
| addr_here c rest idx idx' k :
    key c idx = k ->
    skipEnd key ignoreCollapsed c idx = Ok idx' ->
    NoneHasKey k rest idx' ->
    Addresses (c :: rest) idx [k] c idx
| addr_below c rest idx idx' k k' ks items n i :
    key c idx = k ->
    children c = Items items ->
    Addresses items (idx + 1) (k' :: ks) n i ->
    skipEnd key ignoreCollapsed c idx = Ok idx' ->
    NoneHasKey k rest idx' ->
    Addresses (c :: rest) idx (k :: k' :: ks) n i
| addr_later c rest idx idx' k ks n i :
    key c idx <> k ->
    skipEnd key ignoreCollapsed c idx = Ok idx' ->
    Addresses rest idx' (k :: ks) n i ->
    Addresses (c :: rest) idx (k :: ks) n i.

End Addressing.

(** *** Keys unique among visible siblings

    The key of each member of a sequence of siblings, taken at the linear
    index the member has when the first stands at [idx]. *)
Fixpoint siblingKeys (key : Node -> Z -> Key) (siblings : Tree) (idx : Z)
  : list Key :=
  match siblings with
  | [] => []
  | c :: rest =>
      key c idx :: siblingKeys key rest (idx + getVisibleNodeCount_traverse c)
  end.

Definition uniqueAmong (below : Node -> Z -> Prop) : Tree -> Z -> Prop :=
  fix loop (siblings : Tree) (idx : Z) {struct siblings} : Prop :=
    match siblings with
    | [] => True
    | c :: rest =>
        below c idx /\ loop rest (idx + getVisibleNodeCount_traverse c)
    end.

Fixpoint uniqueBelow (key : Node -> Z -> Key) (n : Node) (idx : Z)
  {struct n} : Prop :=
  if noChildren n || notExpanded n then True
  else match children n with
       | Items items =>
           NoDup (siblingKeys key items (idx + 1))
           /\ uniqueAmong (uniqueBelow key) items (idx + 1)
       | _ => True
       end.

(** The key function returns keys unique among the visible siblings of the
    tree, each taken at its linear index. *)
Definition keysUniqueAmongSiblings (key : Node -> Z -> Key) (t : Tree) : Prop :=
  NoDup (siblingKeys key t 0) /\ uniqueAmong (uniqueBelow key) t 0.

(** A row of the walk of [c] is the row of [c] itself or lies below [c],
    where a path addresses its node. *)
Definition rowAddressed (key : Node -> Z -> Key) (c : Node) (idx : Z)
  (pre : list Key) (r : WalkInfo Fields) : Prop :=
  (w_path r = pre ++ [key c idx] /\ w_node r = c /\ w_treeIndex r = idx)
  \/ exists items k' ks,
       children c = Items items
       /\ w_path r = pre ++ key c idx :: k' :: ks
       /\ Addresses key true items (idx + 1) (k' :: ks)
            (w_node r) (w_treeIndex r).

(** [typeof newNode === 'function' ? newNode({ node, treeIndex }) : newNode] *)
Definition produce (St : Type) (newNode : NewNode Fields St) (n : Node)
  (treeIndex : Z) (s : St) : St * Produced Fields :=
  match newNode with
  | NewFunction f => f n treeIndex s
  | NewValue v => (s, v)
  end.

(** [o'] is what a loop over siblings makes of the result [o] of the one
    call that went down the path: the same state; the same fault; a miss
    stays a miss; anything else comes back as a rebuilt parent. *)
Definition liftedTo (St : Type) (o o' : St * Outcome (Produced Fields)) : Prop :=
  fst o' = fst o
  /\ match snd o with
     | Throw e => snd o' = Throw e
     | Ok PMiss => snd o' = Ok PMiss
     | Ok _ => exists r, snd o' = Ok (PNode r)
     end.

End MutationVocabulary.

Section StructureVocabulary.

Variable Fields : Type.

#[local] Abbreviation Node := (Node Fields).
#[local] Abbreviation Tree := (list Node).
#[local] Abbreviation WalkInfo := (WalkInfo Fields).

(** *** Where a record stands in the tree *)

(** The record [r] is about a member of the sequence [siblings] reached
    under the keys [path] and the sibling counts [lsc]: its path adds its
    own key, its sibling counts add the number of siblings after it. *)
Definition memberRow (key : Node -> Z -> Key) (siblings : Tree)
  (path : list Key) (lsc : list Z) (r : WalkInfo) : Prop :=
  exists pre post,
    siblings = pre ++ w_node r :: post
    /\ w_path r = path ++ [key (w_node r) (w_treeIndex r)]
    /\ w_lowerSiblingCounts r = lsc ++ [Z.of_nat (length post)].

(** The record [r] is about a child of the node of a record of [rows]
    that comes before it; when collapsed nodes are not entered, that
    parent is expanded. *)
Definition childRow (key : Node -> Z -> Key) (ignoreCollapsed : bool)
  (rows : list WalkInfo) (r : WalkInfo) : Prop :=
  exists p items,
    In p rows
    /\ w_treeIndex p < w_treeIndex r
    /\ children (w_node p) = Items items
    /\ (ignoreCollapsed = true -> expanded (w_node p) = Some true)
    /\ memberRow key items (w_path p) (w_lowerSiblingCounts p) r.

(** *** Trees by what their nodes hold *)

(** Every node that holds an array of children is expanded. *)
Fixpoint allExpanded (n : Node) : bool :=
  match children n with
  | Items items => negb (notExpanded n) && forallb allExpanded items
  | _ => true
  end.

(** No node holds a function for children. *)
Fixpoint arrayOnly (n : Node) : bool :=
  match children n with
  | Absent => true
  | Items items => forallb arrayOnly items
  | Lazy _ => false
  end.

(** *** What a mutation makes of a tree *)

(** What the producer handed back, as an edit: a node to put in place,
    nothing (the node is deleted), or the miss marker, which is no edit. *)
Definition asEdit (v : Produced Fields) : option (option Node) :=
  match v with
  | PNode m => Some (Some m)
  | PNull | PFalse => Some None
  | PMiss => None
  end.

Section Changing.

Variable key : Node -> Z -> Key.
Variable ignoreCollapsed : bool.

(** [ChangedAt n i new shown siblings idx path siblings']: [path] goes
    down from [siblings], whose first member stands at index [idx], each
    time through the first member that has the key, to the node [n] at
    index [i]; [siblings'] is [siblings] with that occurrence of [n]
    replaced by [new], or dropped when there is none, below ancestors
    rebuilt around it.  [shown] tells whether every ancestor on the way
    is expanded. *)
Inductive ChangedAt (n : Node) (i : Z) (new : option Node)
  : bool -> Tree -> Z -> list Key -> Tree -> Prop :=
| changed_here rest k :
    key n i = k ->
    ChangedAt n i new true (n :: rest) i [k]
      (match new with Some m => m :: rest | None => rest end)
| changed_below shown c rest idx k k' ks items items' :
    key c idx = k ->
    children c = Items items ->
    ChangedAt n i new shown items (idx + 1) (k' :: ks) items' ->
    ChangedAt n i new (shown && negb (notExpanded c)) (c :: rest) idx
      (k :: k' :: ks) (withChildren c items' :: rest)
| changed_later shown c rest idx idx' k ks rest' :
    key c idx <> k ->
    skipEnd key ignoreCollapsed c idx = Ok idx' ->
    ChangedAt n i new shown rest idx' (k :: ks) rest' ->
    ChangedAt n i new shown (c :: rest) idx (k :: ks) (c :: rest').

End Changing.

End StructureVocabulary.

Section SharingVocabulary.

Variable Fields : Type.

#[local] Abbreviation Node := (Node Fields).
#[local] Abbreviation Tree := (list Node).

Variable key : Node -> Z -> Key.
Variable ignoreCollapsed : bool.

(** *** What a mutation along a path shares with its input *)

(** [Passes siblings idx idx']: standing at index [idx] before the first
    of [siblings], the mutation gets past each of them in turn (the
    index-seeking traversal says where the next one starts) and stands at
    [idx'] after the last. *)
Inductive Passes : Tree -> Z -> Z -> Prop :=
| passes_none idx : Passes [] idx idx
| passes_one c rest idx idx' idx'' :
    skipEnd key ignoreCollapsed c idx = Ok idx' ->
    Passes rest idx' idx'' ->
    Passes (c :: rest) idx idx''.

(** [SharedAlong siblings idx path siblings']: [siblings'] is [siblings],
    whose first member stands at index [idx], edited along [path].  At the
    level of each key of the path one member is touched: the one that has
    this key at the index the mutation reaches it at.  For the last key it
    is replaced or removed; for a key before the last it is rebuilt, with
    the fields and the [expanded] it had, around its children edited along
    the rest of the path.  The members before it and after it are the
    members they were, in their places. *)
Inductive SharedAlong : Tree -> Z -> list Key -> Tree -> Prop :=
| along_replaced pre c post idx here k new :
    Passes pre idx here ->
    key c here = k ->
    SharedAlong (pre ++ c :: post) idx [k] (pre ++ new :: post)
| along_removed pre c post idx here k :
    Passes pre idx here ->
    key c here = k ->
    SharedAlong (pre ++ c :: post) idx [k] (pre ++ post)
| along_rebuilt pre c post idx here k k' ks items items' :
    Passes pre idx here ->
    key c here = k ->
    children c = Items items ->
    SharedAlong items (here + 1) (k' :: ks) items' ->
    SharedAlong (pre ++ c :: post) idx (k :: k' :: ks)
      (pre ++ withChildren c items' :: post).

End SharingVocabulary.

(* ================================================================== *)
(** ** Concrete trees *)

Open Scope string_scope.

(** Nodes whose payload is an [id]. *)
Definition leaf (id : string) : Node string := MkNode id None Absent.

Definition branch (id : string) (e : Expanded) (items : list (Node string))
  : Node string := MkNode id e (Items items).

(** [children: ({ done }) => ...]: a function that declares one parameter. *)
Definition lazyBranch (id : string) (e : Expanded) : Node string :=
  MkNode id e (Lazy 1).

(** [({ node }) => node.id] *)
Definition keyById (n : Node string) (treeIndex : Z) : Key := KStr (fields n).

(** [({ treeIndex }) => treeIndex] *)
Definition keyByIndex (n : Node string) (treeIndex : Z) : Key := KNum treeIndex.

(** The payload of the pseudo-root: no [id]. *)
Definition noId : string := "".

(** [[{id:'a', expanded:true, children:[{id:'b'},{id:'c'}]}, {id:'d'}]] *)
Definition scenarioTree : list (Node string) :=
  [branch "a" (Some true) [leaf "b"; leaf "c"]; leaf "d"].

(** The same tree with [a] collapsed. *)
Definition collapsedTree : list (Node string) :=
  [branch "a" (Some false) [leaf "b"; leaf "c"]; leaf "d"].

(** [[{id:'a', expanded:true, children: ({ done }) => ...}, {id:'b'}]] *)
Definition lazyTree : list (Node string) :=
  [lazyBranch "a" (Some true); leaf "b"].

(** Two root nodes with the same [id]; the first has a child. *)
Definition twinTree : list (Node string) :=
  [branch "a" None [leaf "b"]; leaf "a"].

(** A single expanded node whose children are still to be loaded. *)
Definition loadingTree : list (Node string) :=
  [lazyBranch "a" (Some true)].

(** [scenarioTree]'s node [a] when collapsed. *)
Definition collapsedA : Node string :=
  branch "a" (Some false) [leaf "b"; leaf "c"].

(** [scenarioTree] after [removeNodeAtPath(tree, ['a', 'b'], keyFn)]. *)
Definition afterRemoval : list (Node string) :=
  [branch "a" (Some true) [leaf "c"]; leaf "d"].

(** The rows of a walk over [scenarioTree] keyed by [id]. *)
Definition rowA : WalkInfo string :=
  MkWalkInfo (branch "a" (Some true) [leaf "b"; leaf "c"]) [KStr "a"] [1] 0.
Definition rowB : WalkInfo string :=
  MkWalkInfo (leaf "b") [KStr "a"; KStr "b"] [1; 1] 1.
Definition rowC : WalkInfo string :=
  MkWalkInfo (leaf "c") [KStr "a"; KStr "c"] [1; 0] 2.
Definition rowD : WalkInfo string :=
  MkWalkInfo (leaf "d") [KStr "d"] [0] 3.

(** A callback that asks to stop at linear index 1. *)
Definition stopAtOne (info : WalkInfo string) : bool :=
  negb (w_treeIndex info =? 1)%Z.

(** A callback that lets the first node pass and then asks to stop. *)
Definition stopAtSecond (seen : list (WalkInfo string))
  (info : WalkInfo string) : bool :=
  (length seen <? 1)%nat.

(** A producer that returns the node it is given. *)
Definition sameNode (n : Node string) (treeIndex : Z) : Produced string :=
  PNode n.

Close Scope string_scope.

(* ------------------------------------------------------------------ *)
(** *** Further concrete values *)

Open Scope string_scope.

(** [scenarioTree] after [removeNodeAtPath(tree, ['a', 'c'], keyFn)]. *)
Definition withoutC : list (Node string) :=
  [branch "a" (Some true) [leaf "b"]; leaf "d"].

(** A node to put in place of another: collapsed, with one child. *)
Definition replacement : Node string := branch "x" None [leaf "y"].

(** [scenarioTree] with [c] replaced by [replacement]. *)
Definition withReplacement : list (Node string) :=
  [branch "a" (Some true) [leaf "b"; replacement]; leaf "d"].

(** The [id] of a payload, as a key. *)
Definition labelById (id : string) : Key := KStr id.

Close Scope string_scope.

(* ================================================================== *)
(** ** Proofs *)

#[local] Arguments Z.of_nat : simpl never.
#[local] Arguments Z.add : simpl never.
#[local] Arguments Z.sub : simpl never.

Ltac same_index := do 3 f_equal; lia.

Ltac case_if :=
  match goal with
  | |- context [if ?b then _ else _] => destruct b eqn:?
  end.

Section CoreLemmas.

Variable Fields : Type.
Variable noFields : Fields.

#[local] Abbreviation Node := (Node Fields).
#[local] Abbreviation Tree := (list Node).
#[local] Abbreviation WalkInfo := (WalkInfo Fields).
#[local] Abbreviation NodeInfo := (NodeInfo Fields).

(** Induction on nodes, with the hypothesis on every child of an array. *)
Lemma Node_induction (P : Node -> Prop) :
  (forall f e, P (MkNode f e Absent)) ->
  (forall f e items, Forall P items -> P (MkNode f e (Items items))) ->
  (forall f e a, P (MkNode f e (Lazy a))) ->
  forall n, P n.
Proof.
  intros HAbsent HItems HLazy.
  fix IH 1. intros [f e [|items|a]].
  - apply HAbsent.
  - apply HItems. induction items as [|c rest IHrest].
    + constructor.
    + constructor; [apply IH | exact IHrest].
  - apply HLazy.
Qed.

(** *** Rows *)

Lemma indexedFrom_app start (a b : list WalkInfo) :
  indexedFrom start (a ++ b)
  <-> indexedFrom start a /\ indexedFrom (start + Z.of_nat (length a)) b.
Proof.
  revert start; induction a as [|r a IH]; intros start; simpl.
  - replace (start + Z.of_nat 0) with start by lia. tauto.
  - rewrite IH.
    replace (start + 1 + Z.of_nat (length a))
      with (start + Z.of_nat (S (length a))) by lia.
    tauto.
Qed.

Lemma rowsOfChildren_indexed (visit : Node -> Z -> Z -> list WalkInfo) cc rest :
  Forall (fun c => forall idx below, indexedFrom idx (visit c idx below)) rest ->
  forall i idx, indexedFrom idx (rowsOfChildren visit cc rest i idx).
Proof.
  induction 1 as [|c rest Hc _ IH]; intros i idx; simpl; [exact I|].
  apply indexedFrom_app. split; [apply Hc | apply IH].
Qed.

Lemma rowsOfNode_indexed (key : Node -> Z -> Key) ic n :
  forall idx path lsc, indexedFrom idx (rowsOfNode key ic n idx path lsc).
Proof.
  induction n as [f e|f e items IH|f e a] using Node_induction;
    intros idx path lsc; simpl; (split; [reflexivity|]).
  - exact I.
  - case_if; [exact I|].
    apply rowsOfChildren_indexed.
    eapply Forall_impl; [|exact IH]. intros c Hc i below. apply Hc.
  - try case_if; exact I.
Qed.

Lemma rowsOfTree_indexed (key : Node -> Z -> Key) ic t : indexedFrom 0 (rowsOfTree key ic t).
Proof.
  apply rowsOfChildren_indexed. apply Forall_forall. intros c _ idx below.
  apply rowsOfNode_indexed.
Qed.

(** *** One step of each traversal, on a real node *)

Lemma getNodeData_step (St : Type) (getNodeKey : Node -> Z -> St -> St * Key)
  (n : Node) idx target path lsc ic s :
  getNodeDataAtTreeIndexOrNextIndex getNodeKey n idx target path lsc ic false s
  = let (s1, k) := getNodeKey n idx s in
    if idx =? target then (s1, Ok (Found (MkInfo n lsc (path ++ [k]))))
    else if noChildren n || (ic && notExpanded n)
    then (s1, Ok (NextIndex (idx + 1)))
    else match children n with
         | Absent => (s1, Ok (NextIndex (idx + 1)))
         | Items items =>
             seekChildren
               (fun child childIndex below =>
                  getNodeDataAtTreeIndexOrNextIndex getNodeKey child childIndex
                    target (path ++ [k]) (lsc ++ [below]) true false)
               (Z.of_nat (length items)) items 0 (idx + 1) s1
         | Lazy O => (s1, Ok (NextIndex (idx + 1)))
         | Lazy (S _) => (s1, Throw UndefinedChild)
         end.
Proof.
  destruct n as [f e ch]. cbn [getNodeDataAtTreeIndexOrNextIndex negb].
  unfold bind at 1 2, call, ret at 1.
  destruct (getNodeKey _ idx s) as [s1 k].
  destruct (idx =? target); [reflexivity|].
  destruct (_ || _); [reflexivity|].
  destruct ch as [|items|[|a]]; reflexivity.
Qed.

Lemma walkDescendants_step (St : Type) (getNodeKey : Node -> Z -> St -> St * Key)
  (callback : WalkInfo -> St -> St * bool) (n : Node) ic idx path lsc s :
  walkDescendants getNodeKey callback ic false n idx path lsc s
  = let (s1, k) := getNodeKey n idx s in
    let (s2, go) := callback (MkWalkInfo n (path ++ [k]) lsc idx) s1 in
    if negb go then (s2, Ok Stopped)
    else if noChildren n || (notExpanded n && ic)
    then (s2, Ok (LastIndex idx))
    else match children n with
         | Items items =>
             walkChildren
               (fun child childIndex below =>
                  walkDescendants getNodeKey callback ic false child childIndex
                    (path ++ [k]) (lsc ++ [below]))
               (Z.of_nat (length items)) items 0 idx s2
         | _ => (s2, Ok (LastIndex idx))
         end.
Proof.
  destruct n as [f e ch]. cbn [walkDescendants negb].
  unfold bind at 1 2 3, call, ret at 1.
  destruct (getNodeKey _ idx s) as [s1 k].
  destruct (callback _ s1) as [s2 go].
  destruct go; cbn [negb]; [|reflexivity].
  rewrite andb_true_r.
  destruct (_ || _); [reflexivity|].
  destruct ch as [|items|a]; reflexivity.
Qed.

(** *** The callback-driven walk reports the rows, in order *)

Section Runs.

Variable St : Type.
Variable key : Node -> Z -> Key.
Variable tick : Node -> Z -> St -> St.
Variable callback : WalkInfo -> St -> St * bool.

Lemma feed_app a b s :
  feed tick callback (a ++ b) s
  = let (s', go) := feed tick callback a s in
    if go then feed tick callback b s' else (s', false).
Proof.
  revert s; induction a as [|r a IH]; intros s; simpl.
  - reflexivity.
  - destruct (callback r _) as [s' go]. destruct go; [apply IH | reflexivity].
Qed.

Lemma walkChildren_rows ic cc path lsc rest :
  Forall (fun c => forall idx path lsc s,
            walkDescendants (observedKey key tick) callback ic false c idx path lsc s
            = walked tick callback (rowsOfNode key ic c idx path lsc) (idx - 1) s)
         rest ->
  forall i childIndex s,
    walkChildren
      (fun child childIndex below =>
         walkDescendants (observedKey key tick) callback ic false child
           childIndex path (lsc ++ [below])) cc rest i childIndex s
    = walked tick callback
        (rowsOfChildren
           (fun c i below => rowsOfNode key ic c i path (lsc ++ [below]))
           cc rest i (childIndex + 1)) childIndex s.
Proof.
  induction 1 as [|c rest Hc _ IH]; intros i childIndex s.
  - unfold walked; simpl. unfold ret. same_index.
  - simpl. unfold bind at 1. rewrite Hc. unfold walked at 1.
    unfold walked. rewrite feed_app.
    destruct (feed _ _ (rowsOfNode _ _ _ _ _ _) s) as [s1 go1]. destruct go1.
    + rewrite IH. unfold walked.
      replace (childIndex + 1 - 1
               + Z.of_nat (length (rowsOfNode key ic c (childIndex + 1) path
                                     (lsc ++ [cc - i - 1]))) + 1)
        with (childIndex + 1
              + Z.of_nat (length (rowsOfNode key ic c (childIndex + 1) path
                                    (lsc ++ [cc - i - 1])))) by lia.
      destruct (feed _ _ _ s1) as [s2 go2]. destruct go2; [|reflexivity].
      rewrite length_app. same_index.
    + reflexivity.
Qed.

Lemma walkDescendants_rows ic n :
  forall idx path lsc s,
    walkDescendants (observedKey key tick) callback ic false n idx path lsc s
    = walked tick callback (rowsOfNode key ic n idx path lsc) (idx - 1) s.
Proof.
  induction n as [f e|f e items IH|f e a] using Node_induction;
    intros idx path lsc s.
  - simpl. unfold walked, bind, call, ret, observedKey; simpl.
    destruct (callback _ _) as [s' go]. destruct go; simpl;
      [same_index | reflexivity].
  - simpl. unfold walked, bind at 1 2 3, call, ret, observedKey at 1; simpl.
    destruct (callback _ _) as [s' go] eqn:Hcb. destruct go; simpl;
      [|reflexivity].
    unfold noChildren, notExpanded; simpl.
    destruct e as [[|]|]; destruct ic; simpl;
      try (rewrite (walkChildren_rows _ _ _ _ IH); unfold walked;
           destruct (feed _ _ _ s') as [s2 go2]; destruct go2;
           [same_index | reflexivity]);
      unfold ret; same_index.
  - simpl. unfold walked, bind, call, ret, observedKey; simpl.
    destruct (callback _ _) as [s' go]. destruct go; simpl; [|reflexivity].
    unfold noChildren, notExpanded; simpl.
    destruct e as [[|]|]; destruct ic; simpl; same_index.
Qed.

(** [walk] on a non-empty tree. *)
Lemma walk_rows ic t s :
  t <> [] ->
  walk noFields (observedKey key tick) callback t ic s
  = let (s', go) := feed tick callback (rowsOfTree key ic t) s in
    (s', Ok (Some (if go
                   then LastIndex (Z.of_nat (length (rowsOfTree key ic t)) - 1)
                   else Stopped))).
Proof.
  intros Ht. unfold walk.
  destruct t as [|c t]; [congruence|].
  replace (Z.of_nat (length (c :: t)) <? 1) with false
    by (symmetry; apply Z.ltb_ge; simpl length; lia).
  unfold bind at 1.
  assert (Hw : forall n, walkDescendants (observedKey key tick) callback ic true
                 (MkNode noFields None (Items n)) (-1) [] [] s
               = walked tick callback (rowsOfTree key ic n) (-1) s).
  { intros n. unfold walkDescendants; fold (walkDescendants (observedKey key tick) callback).
    unfold noChildren. cbn [children orb andb negb]. rewrite andb_false_r.
    cbv [bind ret negb]. unfold rowsOfTree.
    rewrite (walkChildren_rows ic (Z.of_nat (length n)) [] []).
    - reflexivity.
    - apply Forall_forall. intros x _. apply walkDescendants_rows. }
  rewrite Hw. unfold walked.
  destruct (feed _ _ _ s) as [s' go]. unfold ret. destruct go; [|reflexivity].
  do 4 f_equal. lia.
Qed.

End Runs.

(** *** The index-seeking traversal keys the rows up to its target *)

Section Seeks.

Variable St : Type.
Variable key : Node -> Z -> Key.
Variable tick : Node -> Z -> St -> St.

Lemma sought_app a b target s :
  sought tick (a ++ b) target s
  = match sought tick a target s with
    | (s', Some r) => (s', Some r)
    | (s', None) => sought tick b target s'
    end.
Proof.
  revert s; induction a as [|r a IH]; intros s; simpl; [reflexivity|].
  destruct (w_treeIndex r =? target); [reflexivity | apply IH].
Qed.

Lemma seekChildren_rows target cc path lsc rest :
  Forall (fun c => seekable c = true -> forall idx path lsc s,
            getNodeDataAtTreeIndexOrNextIndex (observedKey key tick) c idx
              target path lsc true false s
            = seeked tick (rowsOfNode key true c idx path lsc) idx target s)
         rest ->
  forallb (@seekable Fields) rest = true ->
  forall i childIndex s,
    seekChildren
      (fun child childIndex below =>
         getNodeDataAtTreeIndexOrNextIndex (observedKey key tick) child
           childIndex target path (lsc ++ [below]) true false)
      cc rest i childIndex s
    = seeked tick
        (rowsOfChildren
           (fun c i below => rowsOfNode key true c i path (lsc ++ [below]))
           cc rest i childIndex) childIndex target s.
Proof.
  induction 1 as [|c rest Hc _ IH]; intros Hs i childIndex s.
  - unfold seeked; simpl. unfold ret. same_index.
  - simpl in Hs. apply andb_true_iff in Hs. destruct Hs as [Hsc Hsr].
    simpl. unfold bind at 1. rewrite (Hc Hsc). unfold seeked at 1.
    unfold seeked. rewrite sought_app.
    destruct (sought _ (rowsOfNode _ _ _ _ _ _) target s) as [s1 [r|]].
    + reflexivity.
    + rewrite (IH Hsr). unfold seeked.
      destruct (sought _ _ target s1) as [s2 [r|]]; [reflexivity|].
      rewrite length_app. same_index.
Qed.

Lemma getNodeData_rows target n :
  seekable n = true ->
  forall idx path lsc s,
    getNodeDataAtTreeIndexOrNextIndex (observedKey key tick) n idx target
      path lsc true false s
    = seeked tick (rowsOfNode key true n idx path lsc) idx target s.
Proof.
  induction n as [f e|f e items IH|f e a] using Node_induction;
    intros Hs idx path lsc s.
  - simpl. unfold seeked, bind, call, ret, observedKey; simpl.
    destruct (idx =? target); simpl; [reflexivity|]. same_index.
  - simpl. unfold seeked, bind at 1 2, call, ret, observedKey at 1; simpl.
    destruct (idx =? target); simpl; [reflexivity|].
    unfold noChildren, notExpanded; simpl.
    simpl in Hs. unfold noChildren, notExpanded in Hs; simpl in Hs.
    destruct e as [[|]|]; simpl in *;
      try (rewrite (seekChildren_rows _ _ _ _ IH Hs); unfold seeked;
           destruct (sought _ _ target _) as [s2 [r|]];
           [reflexivity | same_index]);
      same_index.
  - simpl. unfold seeked, bind, call, ret, observedKey; simpl.
    destruct (idx =? target); simpl; [reflexivity|].
    unfold noChildren, notExpanded; simpl.
    simpl in Hs. unfold noChildren, notExpanded in Hs; simpl in Hs.
    destruct e as [[|]|]; simpl in *; try same_index.
    destruct a; [same_index | discriminate].
Qed.

(** [getVisibleNodeInfoAtIndex] on a non-empty tree, for a target that is
    not the pseudo-root's own index. *)
Lemma getVisibleNodeInfoAtIndex_rows t target s :
  t <> [] -> treeSeekable t = true -> target <> -1 ->
  getVisibleNodeInfoAtIndex noFields (observedKey key tick) t target s
  = let (s', o) := sought tick (rowsOfTree key true t) target s in (s', Ok o).
Proof.
  intros Ht Hs Htarget. unfold getVisibleNodeInfoAtIndex.
  destruct t as [|c t]; [congruence|].
  replace (Z.of_nat (length (c :: t)) <? 1) with false
    by (symmetry; apply Z.ltb_ge; simpl length; lia).
  unfold bind at 1.
  assert (Hw : getNodeDataAtTreeIndexOrNextIndex (observedKey key tick)
                 (MkNode noFields (Some true) (Items (c :: t))) (-1) target
                 [] [] true true s
               = seeked tick (rowsOfTree key true (c :: t)) 0 target s).
  { unfold getNodeDataAtTreeIndexOrNextIndex;
      fold (getNodeDataAtTreeIndexOrNextIndex (observedKey key tick)).
    unfold noChildren, notExpanded. cbn [children expanded orb andb negb].
    replace (-1 =? target) with false by (symmetry; apply Z.eqb_neq; lia).
    cbv [bind ret]. unfold rowsOfTree.
    rewrite (seekChildren_rows target (Z.of_nat (length (c :: t))) [] []).
    - reflexivity.
    - apply Forall_forall. intros x _ Hx. apply getNodeData_rows, Hx.
    - exact Hs. }
  rewrite Hw. unfold seeked.
  destruct (sought _ _ target s) as [s' [r|]]; reflexivity.
Qed.

Lemma sought_before rows start target s :
  indexedFrom start rows -> target < start ->
  sought tick rows target s = (tickAll tick rows s, None).
Proof.
  revert start s; induction rows as [|r rows IH]; intros start s Hi Hlt;
    simpl; [reflexivity|].
  destruct Hi as [Hr Hi].
  replace (w_treeIndex r =? target) with false
    by (symmetry; apply Z.eqb_neq; lia).
  apply (IH (start + 1)); [exact Hi | lia].
Qed.

Lemma sought_at rows start target s :
  indexedFrom start rows ->
  start <= target < start + Z.of_nat (length rows) ->
  exists r,
    nth_error rows (Z.to_nat (target - start)) = Some r
    /\ w_treeIndex r = target
    /\ sought tick rows target s
       = (tickAll tick (firstn (Z.to_nat (target - start) + 1) rows) s,
          Some (toInfo r)).
Proof.
  revert start s; induction rows as [|r rows IH]; intros start s Hi Hrange;
    simpl in *; [lia|].
  destruct Hi as [Hr Hi].
  destruct (Z.eq_dec target start) as [->|Hne].
  - exists r. replace (start - start) with 0 by lia. simpl.
    rewrite Hr, Z.eqb_refl. auto.
  - replace (w_treeIndex r =? target) with false
      by (symmetry; apply Z.eqb_neq; lia).
    destruct (IH (start + 1) (tick (w_node r) (w_treeIndex r) s) Hi)
      as (r' & Hnth & Hidx & Hsought); [lia|].
    exists r'.
    replace (Z.to_nat (target - start)) with (S (Z.to_nat (target - (start + 1))))
      by lia.
    simpl. auto.
Qed.

End Seeks.

(** *** Counting and flattening *)

Lemma fold_left_sum (f : Node -> Z) l a :
  fold_left (fun total c => total + f c) l a
  = a + fold_left (fun total c => total + f c) l 0.
Proof.
  revert a; induction l as [|c l IH]; intros a; simpl; [lia|].
  rewrite IH. rewrite (IH (0 + f c)). lia.
Qed.

Lemma count_rowsOfChildren (visit : Node -> Z -> Z -> list WalkInfo) cc rest :
  Forall (fun c => forall idx below,
            getVisibleNodeCount_traverse c = Z.of_nat (length (visit c idx below)))
         rest ->
  forall i idx,
    fold_left (fun total c => total + getVisibleNodeCount_traverse c) rest 0
    = Z.of_nat (length (rowsOfChildren visit cc rest i idx)).
Proof.
  induction 1 as [|c rest Hc _ IH]; intros i idx; simpl; [reflexivity|].
  rewrite fold_left_sum, length_app, Nat2Z.inj_add.
  rewrite <- (Hc idx), <- (IH (i + 1)). lia.
Qed.

Lemma count_rowsOfNode (key : Node -> Z -> Key) n :
  forall idx path lsc,
    getVisibleNodeCount_traverse n
    = Z.of_nat (length (rowsOfNode key true n idx path lsc)).
Proof.
  induction n as [f e|f e items IH|f e a] using Node_induction;
    intros idx path lsc.
  - reflexivity.
  - simpl. unfold noChildren, notExpanded, childrenIsFunction; simpl.
    destruct e as [[|]|]; simpl; try reflexivity.
    rewrite (count_rowsOfChildren
               (fun c i below =>
                  rowsOfNode key true c i
                    (path ++ [key (MkNode f (Some true) (Items items)) idx])
                    (lsc ++ [below]))
               (Z.of_nat (length items)) (rest := items)) with (i := 0) (idx := idx + 1).
    + lia.
    + eapply Forall_impl; [|exact IH]. intros c Hc i below. apply Hc.
  - simpl. unfold noChildren, notExpanded, childrenIsFunction; simpl.
    destruct e as [[|]|]; reflexivity.
Qed.

Lemma getVisibleNodeCount_rows (key : Node -> Z -> Key) t :
  getVisibleNodeCount t = Z.of_nat (length (rowsOfTree key true t)).
Proof.
  unfold getVisibleNodeCount, rowsOfTree.
  apply count_rowsOfChildren. apply Forall_forall. intros c _ idx below.
  apply count_rowsOfNode.
Qed.

Lemma getVisibleNodeCount_traverse_pos (n : Node) :
  1 <= getVisibleNodeCount_traverse n.
Proof.
  rewrite (count_rowsOfNode (fun _ _ => KNum 0) n 0 [] []).
  destruct n as [f e ch]. simpl. lia.
Qed.

Lemma getVisibleNodeCount_app (a b : Tree) :
  getVisibleNodeCount (a ++ b) = getVisibleNodeCount a + getVisibleNodeCount b.
Proof.
  unfold getVisibleNodeCount. rewrite fold_left_app.
  rewrite fold_left_sum. reflexivity.
Qed.

Lemma getVisibleNodeCount_cons (n : Node) (t : Tree) :
  getVisibleNodeCount (n :: t)
  = getVisibleNodeCount_traverse n + getVisibleNodeCount t.
Proof.
  unfold getVisibleNodeCount. simpl. rewrite fold_left_sum. lia.
Qed.

Lemma getVisibleNodeCount_traverse_eq (n : Node) :
  getVisibleNodeCount_traverse n
  = if noChildren n || notExpanded n || childrenIsFunction n then 1
    else match children n with
         | Items items => 1 + getVisibleNodeCount items
         | _ => 1
         end.
Proof. destruct n; reflexivity. Qed.

Lemma getVisibleNodeCount_traverse_collapsed (n : Node) :
  notExpanded n = true -> getVisibleNodeCount_traverse n = 1.
Proof.
  intros Hn. rewrite getVisibleNodeCount_traverse_eq, Hn, orb_true_r.
  reflexivity.
Qed.

Lemma getVisibleNodeCount_traverse_expanded f (items : Tree) :
  getVisibleNodeCount_traverse (MkNode f (Some true) (Items items))
  = 1 + getVisibleNodeCount items.
Proof. reflexivity. Qed.

(** Writing consecutive rows into the array appends them. *)
Lemma arraySet_append (A : Type) (a : JsArray A) (v : A) :
  arraySet a (Z.of_nat (length a)) v = a ++ [Some v].
Proof.
  unfold arraySet.
  replace (Z.of_nat (length a) <? 0) with false
    by (symmetry; apply Z.ltb_ge; lia).
  rewrite Nat2Z.id, Nat.ltb_irrefl, Nat.sub_diag. reflexivity.
Qed.

Section Flattening.

Variable St : Type.
Variable key : Node -> Z -> Key.
Variable tick : Node -> Z -> St -> St.

Lemma feed_flatten rows :
  forall s (a : JsArray NodeInfo),
    indexedFrom (Z.of_nat (length a)) rows ->
    feed (tickBeside tick) (@flattenCallback Fields St) rows (s, a)
    = ((tickAll tick rows s, a ++ map (fun r => Some (toInfo r)) rows), true).
Proof.
  induction rows as [|r rows IH]; intros s a Hi; simpl.
  - rewrite app_nil_r. reflexivity.
  - destruct Hi as [Hr Hi]. unfold flattenCallback at 1. simpl.
    rewrite Hr, arraySet_append.
    rewrite IH.
    + rewrite <- app_assoc. reflexivity.
    + rewrite length_app. simpl length.
      replace (Z.of_nat (length a + 1)) with (Z.of_nat (length a) + 1) by lia.
      exact Hi.
Qed.

Lemma getVisibleNodeInfoFlattened_rows t s :
  getVisibleNodeInfoFlattened noFields (observedKey key tick) t s
  = (tickAll tick (rowsOfTree key true t) s,
     Ok (map (fun r => Some (toInfo r)) (rowsOfTree key true t))).
Proof.
  unfold getVisibleNodeInfoFlattened.
  destruct t as [|c t]; [reflexivity|].
  replace (Z.of_nat (length (c :: t)) <? 1) with false
    by (symmetry; apply Z.ltb_ge; simpl length; lia).
  change (keyBeside (observedKey key tick)) with (observedKey key (tickBeside tick)).
  rewrite walk_rows by congruence.
  rewrite feed_flatten by apply rowsOfTree_indexed.
  reflexivity.
Qed.

End Flattening.

(* ------------------------------------------------------------------ *)
(** *** Visible count and flattening *)

(** Flattening under any key function, pure or not: the walk fills the
    array one position after the other, as many as the count says. *)
Section FlattenAnyKey.

Variable St : Type.
Variable getNodeKey : Node -> Z -> St -> St * Key.

Lemma walkChildren_fills cc path lsc rest :
  Forall (fun c => forall idx path lsc s (a : JsArray NodeInfo),
            Z.of_nat (length a) = idx ->
            exists s' a',
              walkDescendants (keyBeside getNodeKey) (@flattenCallback Fields St)
                true false c idx path lsc (s, a)
              = ((s', a'), Ok (LastIndex (idx + getVisibleNodeCount_traverse c - 1)))
              /\ Z.of_nat (length a') = idx + getVisibleNodeCount_traverse c)
         rest ->
  forall i childIndex s (a : JsArray NodeInfo),
    Z.of_nat (length a) = childIndex + 1 ->
    exists s' a',
      walkChildren
        (fun child childIndex below =>
           walkDescendants (keyBeside getNodeKey) (@flattenCallback Fields St)
             true false child childIndex path (lsc ++ [below]))
        cc rest i childIndex (s, a)
      = ((s', a'), Ok (LastIndex (childIndex + getVisibleNodeCount rest)))
      /\ Z.of_nat (length a') = childIndex + 1 + getVisibleNodeCount rest.
Proof.
  induction 1 as [|c rest Hc _ IH]; intros i childIndex s a Ha.
  - exists s, a. unfold getVisibleNodeCount. cbn. unfold ret.
    split; [same_index | lia].
  - cbn [walkChildren]. unfold bind at 1.
    destruct (Hc (childIndex + 1) path (lsc ++ [cc - i - 1]) s a Ha)
      as (s1 & a1 & -> & Ha1).
    destruct (IH (i + 1) (childIndex + 1 + getVisibleNodeCount_traverse c - 1)
                s1 a1 ltac:(lia)) as (s2 & a2 & -> & Ha2).
    exists s2, a2. rewrite getVisibleNodeCount_cons.
    split; [same_index | lia].
Qed.

Lemma walkDescendants_fills (n : Node) :
  forall idx path lsc s (a : JsArray NodeInfo),
    Z.of_nat (length a) = idx ->
    exists s' a',
      walkDescendants (keyBeside getNodeKey) (@flattenCallback Fields St)
        true false n idx path lsc (s, a)
      = ((s', a'), Ok (LastIndex (idx + getVisibleNodeCount_traverse n - 1)))
      /\ Z.of_nat (length a') = idx + getVisibleNodeCount_traverse n.
Proof.
  induction n as [f e|f e items IH|f e a0] using Node_induction;
    intros idx path lsc s a Ha; rewrite walkDescendants_step;
    unfold keyBeside at 1; cbn [fst snd];
    destruct (getNodeKey _ idx s) as [s1 k];
    unfold flattenCallback at 1; cbn [fst snd negb w_treeIndex];
    rewrite <- Ha, arraySet_append, Ha;
    rewrite getVisibleNodeCount_traverse_eq;
    unfold childrenIsFunction; cbn [children noChildren]; rewrite andb_true_r.
  - exists s1. eexists. split; [cbn; same_index|].
    rewrite length_app. cbn. lia.
  - cbn [orb]. rewrite orb_false_r.
    destruct (notExpanded _).
    + exists s1. eexists. split; [same_index|].
      rewrite length_app. cbn [length]. lia.
    + match goal with
      | |- context [walkChildren _ _ _ _ _ (s1, ?arr)] =>
          destruct (@walkChildren_fills (Z.of_nat (length items))
                      (path ++ [k]) lsc items IH 0 idx s1 arr)
            as (s2 & a2 & Hrun & Ha2);
          [rewrite length_app; cbn [length]; lia|]
      end.
      rewrite Hrun. exists s2, a2. split; [same_index | lia].
  - cbn [orb]. rewrite orb_true_r.
    destruct (notExpanded _); exists s1; eexists;
      (split; [same_index|]); rewrite length_app; cbn [length]; lia.
Qed.

Lemma getVisibleNodeInfoFlattened_fills (t : Tree) s :
  exists s' flattened,
    getVisibleNodeInfoFlattened noFields getNodeKey t s = (s', Ok flattened)
    /\ Z.of_nat (length flattened) = getVisibleNodeCount t.
Proof.
  unfold getVisibleNodeInfoFlattened.
  destruct (Z.of_nat (length t) <? 1) eqn:Hlen.
  - exists s, []. split; [reflexivity|].
    destruct t; [reflexivity|]. apply Z.ltb_lt in Hlen. cbn [length] in Hlen.
    lia.
  - unfold walk. rewrite Hlen. unfold bind at 1.
    unfold walkDescendants; fold (walkDescendants (keyBeside getNodeKey)
                                    (@flattenCallback Fields St)).
    unfold noChildren. cbn [children orb andb negb]. rewrite andb_false_r.
    cbv [bind ret negb].
    edestruct (@walkChildren_fills (Z.of_nat (length t)) [] [] t) with
      (i := 0) (childIndex := -1) (s := s) (a := @nil (option NodeInfo))
      as (s' & a' & Hrun & Ha').
    + apply Forall_forall. intros c _. apply walkDescendants_fills.
    + reflexivity.
    + match goal with
      | |- context [walkChildren ?v ?cc ?l ?i ?ci ?st] =>
          replace (walkChildren v cc l i ci st)
            with ((s', a'), @Ok WalkResult (LastIndex (-1 + getVisibleNodeCount t)))
            by (symmetry; exact Hrun)
      end.
      exists s', a'. split; [reflexivity | lia].
Qed.

End FlattenAnyKey.

(** C4 (visible-count consistency): for every tree and every key function,
    [getVisibleNodeCount] is the length of the array that
    [getVisibleNodeInfoFlattened] returns. *)
Theorem visible_count_is_flattened_length :
  forall (St : Type) (getNodeKey : Node -> Z -> St -> St * Key)
         (t : Tree) (s : St),
  exists s' flattened,
    getVisibleNodeInfoFlattened noFields getNodeKey t s = (s', Ok flattened)
    /\ getVisibleNodeCount t = Z.of_nat (length flattened).
Proof.
  intros St getNodeKey t s.
  destruct (getVisibleNodeInfoFlattened_fills getNodeKey t s)
    as (s' & flattened & Hrun & Hlen).
  exists s', flattened. split; [exact Hrun | symmetry; exact Hlen].
Qed.

(* ------------------------------------------------------------------ *)
(** *** Early termination of the walk *)

Lemma feed_recording (key : Node -> Z -> Key) go rows :
  forall log,
    (forall x, In x rows -> go x = true) ->
    feed (fun _ _ s => s) (recordingCallback go) rows log
    = (log ++ map (@Visited Fields) rows, true).
Proof.
  induction rows as [|r rows IH]; intros log Hgo; simpl.
  - rewrite app_nil_r. reflexivity.
  - rewrite (Hgo r) by (left; reflexivity).
    rewrite IH by (intros x Hx; apply Hgo; right; exact Hx).
    rewrite <- app_assoc. reflexivity.
Qed.

Lemma visitedBy_all (key : Node -> Z -> Key) ic t :
  visitedBy noFields key ic t (fun _ => true)
  = map (@Visited Fields) (rowsOfTree key ic t).
Proof.
  unfold visitedBy, pureKey.
  destruct t as [|c t]; [reflexivity|].
  rewrite walk_rows by congruence.
  rewrite (feed_recording key) by reflexivity. reflexivity.
Qed.

Lemma map_Visited_inj (a b : list WalkInfo) :
  map (@Visited Fields) a = map (@Visited Fields) b -> a = b.
Proof.
  revert b; induction a as [|x a IH]; intros [|y b] H; simpl in H;
    try discriminate; [reflexivity|].
  injection H as Hxy Hab. f_equal; [exact Hxy | apply IH, Hab].
Qed.

Lemma feed_deciding (decide : list WalkInfo -> WalkInfo -> bool) rows :
  forall seen,
    (forall pre x post, rows = pre ++ x :: post -> decide (seen ++ pre) x = true) ->
    feed (fun _ _ s => s) (decidingCallback decide) rows seen
    = (seen ++ rows, true).
Proof.
  induction rows as [|r rows IH]; intros seen Hgo; cbn [feed decidingCallback].
  - rewrite app_nil_r. reflexivity.
  - pose proof (Hgo [] r rows eq_refl) as Hr. rewrite app_nil_r in Hr.
    rewrite Hr. rewrite IH.
    + rewrite <- app_assoc. reflexivity.
    + intros pre x post ->. rewrite <- app_assoc. apply (Hgo (r :: pre) x post).
      reflexivity.
Qed.

Lemma walkOrder_rows (key : Node -> Z -> Key) ic (t : Tree) :
  walkOrder noFields key ic t = rowsOfTree key ic t.
Proof.
  unfold walkOrder, pureKey. destruct t as [|c t]; [reflexivity|].
  rewrite walk_rows by congruence.
  rewrite feed_deciding by reflexivity. reflexivity.
Qed.

(** C9 (early termination): whatever the callback, if it answers "stop" on
    a node [r] that the walk visits, having let every earlier node pass,
    then the walk returns [false] and the callback has been shown the nodes
    before [r] and [r] itself: nothing that follows [r] in pre-order,
    sibling or subtree, is visited. *)
Theorem walk_stops_at_first_refusal :
  forall (key : Node -> Z -> Key) (ignoreCollapsed : bool) (t : Tree)
         (decide : list WalkInfo -> WalkInfo -> bool)
         (before after : list WalkInfo) (r : WalkInfo),
    walkOrder noFields key ignoreCollapsed t = before ++ r :: after ->
    (forall pre x post, before = pre ++ x :: post -> decide pre x = true) ->
    decide before r = false ->
    walk noFields (pureKey key) (decidingCallback decide) t ignoreCollapsed []
    = (before ++ [r], Ok (Some Stopped)).
Proof.
  intros key ic t decide before after r Hall Hbefore Hr.
  rewrite walkOrder_rows in Hall.
  assert (Ht : t <> []).
  { intros ->. destruct before; discriminate. }
  unfold pureKey. rewrite walk_rows by exact Ht.
  rewrite Hall, feed_app.
  rewrite feed_deciding by exact Hbefore.
  cbn [feed decidingCallback app]. rewrite Hr. reflexivity.
Qed.

(** The same for a callback with a state of its own: the walk is the
    callback run over the pre-order rows until its first refusal. *)
Lemma walk_is_feed_until_refusal :
  forall (St : Type) (key : Node -> Z -> Key)
         (callback : WalkInfo -> St -> St * bool) ic (t : Tree) (s : St),
    t <> [] ->
    exists s' go,
      feed (fun _ _ s => s) callback (visitsOf (visitedBy noFields key ic t (fun _ => true))) s
      = (s', go)
      /\ fst (walk noFields (pureKey key) callback t ic s) = s'
      /\ (go = false <->
          snd (walk noFields (pureKey key) callback t ic s) = Ok (Some Stopped)).
Proof.
  intros St key callback ic t s Ht.
  rewrite visitedBy_all.
  assert (Hv : forall l, visitsOf (map (@Visited Fields) l) = l).
  { induction l as [|x l IH]; simpl; [reflexivity | rewrite IH; reflexivity]. }
  rewrite Hv. unfold pureKey. rewrite walk_rows by exact Ht.
  destruct (feed _ callback _ s) as [s' go]. exists s', go.
  split; [reflexivity|]. split; [reflexivity|].
  simpl. destruct go; split; intros H; congruence.
Qed.

(* ------------------------------------------------------------------ *)
(** *** Collapsed nodes *)

Lemma visibleDescendantCount_items (key : Node -> Z -> Key) f e (items : Tree) :
  visibleDescendantCount noFields key (MkNode f e (Items items))
  = getVisibleNodeCount items.
Proof.
  unfold visibleDescendantCount, flattenedTree, pureKey. cbn [children].
  rewrite getVisibleNodeInfoFlattened_rows. cbn [snd].
  rewrite length_map. symmetry. apply getVisibleNodeCount_rows.
Qed.

Lemma expand_adds_descendants (key : Node -> Z -> Key) (n : Node) :
  notExpanded n = true ->
  getVisibleNodeCount_traverse (expand n)
  = getVisibleNodeCount_traverse n + visibleDescendantCount noFields key n.
Proof.
  intros Hn. rewrite (getVisibleNodeCount_traverse_collapsed n Hn).
  destruct n as [f e [|items|a]].
  - reflexivity.
  - rewrite visibleDescendantCount_items. unfold expand. cbn [fields children].
    apply getVisibleNodeCount_traverse_expanded.
  - reflexivity.
Qed.

(** C5 (collapse skip): a node that has children and whose [expanded] is
    not [true] counts for exactly 1 in the visible count, the index-seeking
    traversal that ignores collapsed children passes it by advancing the
    index by exactly 1, the collapse-aware walk uses exactly its one index
    for it, and turning its [expanded] to [true] where it is visible
    raises the visible count by the number of its visible descendants. *)
Theorem collapsed_node_counts_once :
  forall (key : Node -> Z -> Key) (n : Node),
    notExpanded n = true ->
    noChildren n = false ->
    getVisibleNodeCount_traverse n = 1
    /\ (forall St (getNodeKey : Node -> Z -> St -> St * Key)
               idx target path lsc s,
          idx <> target ->
          snd (getNodeDataAtTreeIndexOrNextIndex getNodeKey n idx target
                 path lsc true false s)
          = Ok (NextIndex (idx + 1)))
    /\ (forall St (getNodeKey : Node -> Z -> St -> St * Key)
               (callback : WalkInfo -> St -> St * bool) idx path lsc s,
          exists go : bool,
            snd (walkDescendants getNodeKey callback true false n idx path lsc s)
            = Ok (if go then LastIndex idx else Stopped))
    /\ (forall before after : Tree,
          ExpandsAt n before after ->
          getVisibleNodeCount after
          = getVisibleNodeCount before + visibleDescendantCount noFields key n).
Proof.
  intros key n Hn Hc. repeat split.
  - apply getVisibleNodeCount_traverse_collapsed, Hn.
  - intros St getNodeKey idx target path lsc s Hne.
    rewrite getNodeData_step. destruct (getNodeKey n idx s) as [s1 k].
    replace (idx =? target) with false by (symmetry; apply Z.eqb_neq; exact Hne).
    rewrite Hn, orb_true_r. reflexivity.
  - intros St getNodeKey callback idx path lsc s.
    rewrite walkDescendants_step. destruct (getNodeKey n idx s) as [s1 k].
    destruct (callback _ s1) as [s2 go]. exists go.
    destruct go; cbn [negb]; [|reflexivity].
    rewrite Hn, orb_true_r. reflexivity.
  - intros before after H. induction H as [pre post|pre f items items' post H IH].
    + rewrite !getVisibleNodeCount_app, !getVisibleNodeCount_cons.
      rewrite (expand_adds_descendants key n Hn). lia.
    + rewrite !getVisibleNodeCount_app, !getVisibleNodeCount_cons.
      rewrite !getVisibleNodeCount_traverse_expanded. rewrite IH. lia.
Qed.

(* ------------------------------------------------------------------ *)
(** *** The pseudo-root stays inside *)

Lemma rowsOfChildren_Forall (Q : WalkInfo -> Prop)
  (visit : Node -> Z -> Z -> list WalkInfo) cc rest base :
  (forall c j below, In c rest -> base <= j -> Forall Q (visit c j below)) ->
  forall i idx, base <= idx -> Forall Q (rowsOfChildren visit cc rest i idx).
Proof.
  induction rest as [|c rest IH]; intros Hv i idx Hidx; simpl;
    [constructor|].
  apply Forall_app. split.
  - apply Hv; [left; reflexivity | exact Hidx].
  - apply IH; [|lia]. intros c' j below Hc'. apply Hv. right. exact Hc'.
Qed.

Lemma nodesOf_self (n : Node) : In n (nodesOf n).
Proof. destruct n; left; reflexivity. Qed.

Lemma nodesOf_child f e (items : Tree) c x :
  In c items -> In x (nodesOf c) -> In x (nodesOf (MkNode f e (Items items))).
Proof.
  intros Hc Hx. right. apply in_flat_map. exists c. split; assumption.
Qed.

Lemma rowWithin_weaken (key : Node -> Z -> Key) scope scope' base base'
  path depth r :
  (forall x, In x scope -> In x scope') -> base' <= base ->
  rowWithin key scope base path depth r ->
  rowWithin key scope' base' path depth r.
Proof.
  intros Hs Hb (Hin & chain & Hp & Hl & Hf).
  split; [apply Hs, Hin|]. exists chain. repeat split; try assumption.
  eapply Forall_impl; [|exact Hf]. intros m [Hm1 Hm2].
  split; [apply Hs, Hm1 | lia].
Qed.

Lemma row_self_within (key : Node -> Z -> Key) (n : Node) idx path lsc :
  rowWithin key (nodesOf n) idx path (length lsc)
    (MkWalkInfo n (path ++ [key n idx]) lsc idx).
Proof.
  split; [apply nodesOf_self|]. exists []. cbn [app length w_node w_treeIndex
    w_path w_lowerSiblingCounts].
  repeat split; [rewrite Nat.add_0_r; reflexivity|].
  repeat constructor; cbn [fst snd]; [apply nodesOf_self | lia].
Qed.

Lemma rowsOfNode_within (key : Node -> Z -> Key) ic n :
  forall idx path lsc,
    Forall (rowWithin key (nodesOf n) idx path (length lsc))
           (rowsOfNode key ic n idx path lsc).
Proof.
  induction n as [f e|f e items IH|f e a] using Node_induction;
    intros idx path lsc; cbn [rowsOfNode];
    (constructor; [apply row_self_within|]).
  1, 3: try case_if; constructor.
  set (self := MkNode f e (Items items)).
  case_if; [constructor|]. cbn [children].
  apply rowsOfChildren_Forall with (base := idx + 1); [|lia].
  intros c j below Hc Hj.
  rewrite Forall_forall in IH.
  specialize (IH c Hc j (path ++ [key self idx]) (lsc ++ [below])).
  eapply Forall_impl; [|exact IH].
  intros r (Hin & chain & Hp & Hl & Hf).
  split; [eapply nodesOf_child; eassumption|].
  exists ((self, idx) :: chain). repeat split.
  - rewrite Hp, <- app_assoc. reflexivity.
  - rewrite Hl, length_app. cbn [length]. lia.
  - cbn [app]. constructor.
    + cbn [fst snd]. split; [apply nodesOf_self | lia].
    + eapply Forall_impl; [|exact Hf]. intros m [Hm1 Hm2].
      split; [eapply nodesOf_child; eassumption | lia].
Qed.

Lemma rowsOfTree_within (key : Node -> Z -> Key) ic (t : Tree) :
  Forall (rowWithin key (treeNodes t) 0 [] 1) (rowsOfTree key ic t).
Proof.
  unfold rowsOfTree.
  apply rowsOfChildren_Forall with (base := 0); [|lia].
  intros c j below Hc Hj.
  eapply Forall_impl; [|apply (rowsOfNode_within key ic c j [] ([] ++ [below]))].
  intros r Hr. eapply rowWithin_weaken; [| |exact Hr]; [|exact Hj].
  intros x Hx. apply in_flat_map. exists c. split; assumption.
Qed.

(** A node is smaller than whatever has it among its descendants. *)
Lemma nodesOf_size (n : Node) :
  forall x, In x (nodesOf n) -> (nodeSize x <= nodeSize n)%nat.
Proof.
  induction n as [f e|f e items IH|f e a] using Node_induction; intros x Hx.
  1, 3: destruct Hx as [<-|[]]; apply Nat.le_refl.
  destruct Hx as [<-|Hx]; [apply Nat.le_refl|].
  cbn [nodesOf children] in Hx. apply in_flat_map in Hx.
  destruct Hx as (c & Hc & Hx). cbn [nodeSize children].
  clear f e. induction items as [|d items IHitems]; [destruct Hc|].
  inversion IH as [|? ? Hd Hrest]; subst. cbn [fold_right].
  destruct Hc as [->|Hc].
  - specialize (Hd x Hx). lia.
  - specialize (IHitems Hrest Hc). lia.
Qed.

Lemma pseudoRoot_outside f e (t : Tree) : ~ In (MkNode f e (Items t)) (treeNodes t).
Proof.
  intros H. unfold treeNodes in H. apply in_flat_map in H.
  destruct H as (c & Hc & Hx). apply nodesOf_size in Hx.
  cbn [nodeSize children] in Hx.
  assert (Hle : (nodeSize c <= fold_right (fun c total => nodeSize c + total) 0 t)%nat).
  { clear Hx. induction t as [|d t IH]; [destruct Hc|]. cbn [fold_right].
    destruct Hc as [->|Hc]; [lia | specialize (IH Hc); lia]. }
  lia.
Qed.

Lemma rowWithin_aboutTree (key : Node -> Z -> Key) (t : Tree) r :
  rowWithin key (treeNodes t) 0 [] 1 r ->
  aboutTree key t (w_node r) (w_path r) (w_lowerSiblingCounts r).
Proof.
  intros (Hin & chain & Hp & Hl & Hf). split; [exact Hin|]. split.
  - intros f e Heq. rewrite Heq in Hin. exact (pseudoRoot_outside _ _ _ Hin).
  - exists chain, (w_treeIndex r). split; [exact Hp|]. split; [|exact Hf].
    rewrite Hp, Hl. cbn [app]. unfold keysAlong.
    rewrite length_map, length_app. cbn [length]. lia.
Qed.

(** Whatever the tree, what the index-seeking traversal finds is a row of
    the walk, and the index it reports after a subtree is the one after
    the rows of that subtree. *)
Section Found.

Variable St : Type.
Variable key : Node -> Z -> Key.
Variable tick : Node -> Z -> St -> St.

Lemma seekChildren_agrees target cc path lsc rest :
  Forall (fun c => forall idx path lsc s s' res,
            getNodeDataAtTreeIndexOrNextIndex (observedKey key tick) c idx
              target path lsc true false s = (s', Ok res) ->
            seekAgrees (rowsOfNode key true c idx path lsc) idx target res)
         rest ->
  forall i childIndex s s' res,
    seekChildren
      (fun child childIndex below =>
         getNodeDataAtTreeIndexOrNextIndex (observedKey key tick) child
           childIndex target path (lsc ++ [below]) true false)
      cc rest i childIndex s = (s', Ok res) ->
    seekAgrees
      (rowsOfChildren
         (fun c i below => rowsOfNode key true c i path (lsc ++ [below]))
         cc rest i childIndex) childIndex target res.
Proof.
  induction 1 as [|c rest Hc _ IH]; intros i childIndex s s' res Hrun.
  - cbn in Hrun. injection Hrun as _ <-. cbn. lia.
  - cbn [seekChildren] in Hrun. unfold bind at 1 in Hrun.
    destruct (getNodeDataAtTreeIndexOrNextIndex _ c childIndex target path
                (lsc ++ [cc - i - 1]) true false s) as [s1 [res1|e1]] eqn:Hfirst;
      [|discriminate].
    apply Hc in Hfirst. cbn [rowsOfChildren].
    destruct res1 as [r1|n1].
    + injection Hrun as _ <-. destruct Hfirst as (row & Hin & Hrow).
      exists row. split; [apply in_or_app; left; exact Hin | exact Hrow].
    + cbn in Hfirst. subst n1. apply IH in Hrun.
      destruct res as [r|n].
      * destruct Hrun as (row & Hin & Hrow).
        exists row. split; [apply in_or_app; right; exact Hin | exact Hrow].
      * cbn in Hrun |- *. rewrite length_app. lia.
Qed.

Lemma getNodeData_agrees target n :
  forall idx path lsc s s' res,
    getNodeDataAtTreeIndexOrNextIndex (observedKey key tick) n idx target
      path lsc true false s = (s', Ok res) ->
    seekAgrees (rowsOfNode key true n idx path lsc) idx target res.
Proof.
  assert (Hself : forall (n : Node) idx path lsc rest,
             (idx =? target) = true ->
             seekAgrees (MkWalkInfo n (path ++ [key n idx]) lsc idx :: rest)
               idx target (Found (MkInfo n lsc (path ++ [key n idx])))).
  { intros m idx path lsc rest Hidx. apply Z.eqb_eq in Hidx.
    eexists. split; [left; reflexivity | split; [reflexivity | exact Hidx]]. }
  induction n as [f e|f e items IH|f e a] using Node_induction;
    intros idx path lsc s s' res Hrun;
    rewrite getNodeData_step in Hrun; cbn [observedKey] in Hrun;
    cbn [rowsOfNode]; destruct (idx =? target) eqn:Hidx;
    try (injection Hrun as _ <-; apply Hself; exact Hidx).
  - cbn in Hrun. injection Hrun as _ <-. cbn. lia.
  - cbn [andb] in Hrun. rewrite andb_true_r.
    destruct (_ || _).
    + injection Hrun as _ <-. cbn. lia.
    + cbn [children] in Hrun |- *.
      apply (seekChildren_agrees _ _ _ _ IH) in Hrun.
      destruct res as [r|n].
      * destruct Hrun as (row & Hin & Hrow).
        exists row. split; [right; exact Hin | exact Hrow].
      * cbn in Hrun |- *. lia.
  - cbn [andb] in Hrun. rewrite andb_true_r.
    destruct (_ || _).
    + injection Hrun as _ <-. cbn. lia.
    + cbn [children] in Hrun. destruct a; [|discriminate].
      injection Hrun as _ <-. cbn. lia.
Qed.

End Found.

Lemma in_firstn (A : Type) (x : A) k l : In x (firstn k l) -> In x l.
Proof.
  intros H. rewrite <- (firstn_skipn k l). apply in_or_app. left. exact H.
Qed.

Lemma feed_recording_prefix (go : WalkInfo -> bool) rows :
  forall log,
  exists k,
    fst (feed (fun _ _ s => s) (recordingCallback go) rows log)
    = log ++ map (@Visited Fields) (firstn k rows).
Proof.
  induction rows as [|r rows IH]; intros log.
  - exists O. cbn. rewrite app_nil_r. reflexivity.
  - cbn [feed recordingCallback]. destruct (go r).
    + destruct (IH (log ++ [Visited r])) as [k Hk]. exists (S k).
      rewrite Hk, <- app_assoc. reflexivity.
    + exists 1%nat. reflexivity.
Qed.

Lemma visitedBy_rows (key : Node -> Z -> Key) ic (t : Tree) go info :
  In (Visited info) (visitedBy noFields key ic t go) ->
  In info (rowsOfTree key ic t).
Proof.
  unfold visitedBy, pureKey. destruct t as [|c t]; [intros []|].
  rewrite walk_rows by congruence.
  destruct (feed_recording_prefix go (rowsOfTree key ic (c :: t)) []) as [k Hk].
  destruct (feed _ _ _ []) as [log g]. cbn [fst] in Hk |- *. subst log.
  cbn [app]. intros H. apply in_map_iff in H.
  destruct H as (x & Hx & Hin). injection Hx as ->.
  eapply in_firstn. exact Hin.
Qed.

Lemma getVisibleNodeInfoAtIndex_found (St : Type) (key : Node -> Z -> Key)
  (tick : Node -> Z -> St -> St) (t : Tree) target s s' r :
  target <> -1 ->
  getVisibleNodeInfoAtIndex noFields (observedKey key tick) t target s
  = (s', Ok (Some r)) ->
  exists row,
    In row (rowsOfTree key true t) /\ toInfo row = r /\ w_treeIndex row = target.
Proof.
  intros Htarget. unfold getVisibleNodeInfoAtIndex.
  destruct (Z.of_nat (length t) <? 1); [discriminate|].
  unfold bind at 1.
  destruct (getNodeDataAtTreeIndexOrNextIndex _ _ (-1) target [] [] true true s)
    as [s1 [res|e]] eqn:Hrun; [|discriminate].
  destruct res as [r1|n]; [|discriminate]. intros H. injection H as _ <-.
  unfold getNodeDataAtTreeIndexOrNextIndex in Hrun;
    fold (getNodeDataAtTreeIndexOrNextIndex (observedKey key tick)) in Hrun.
  unfold noChildren, notExpanded in Hrun.
  cbn [children expanded orb andb negb] in Hrun.
  replace (-1 =? target) with false in Hrun
    by (symmetry; apply Z.eqb_neq; lia).
  cbv [bind ret] in Hrun.
  apply (@seekChildren_agrees St key tick target
           (Z.of_nat (length t)) [] []) in Hrun.
  - exact Hrun.
  - apply Forall_forall. intros c _ idx path lsc s0 s0' res.
    apply getNodeData_agrees.
Qed.

(** C7, amended (pseudo-root exclusion): for every tree and every target
    index other than -1, the record [getVisibleNodeInfoAtIndex] returns
    speaks of the tree only: its node is a node of the tree and not the
    pseudo-root, and its path holds one key of a tree node per level; and
    whatever the walk shows its callback does so too, at a non-negative
    index. *)
Theorem pseudoRoot_never_emitted :
  forall (key : Node -> Z -> Key) (t : Tree),
    (forall (St : Type) (s s' : St) (targetIndex : Z) (r : NodeInfo),
        targetIndex <> -1 ->
        getVisibleNodeInfoAtIndex noFields (pureKey key) t targetIndex s
        = (s', Ok (Some r)) ->
        aboutTree key t (node r) (path r) (lowerSiblingCounts r))
    /\ (forall (ignoreCollapsed : bool) (go : WalkInfo -> bool) (info : WalkInfo),
           In (Visited info) (visitedBy noFields key ignoreCollapsed t go) ->
           aboutTree key t (w_node info) (w_path info) (w_lowerSiblingCounts info)
           /\ 0 <= w_treeIndex info).
Proof.
  intros key t. split.
  - intros St s s' target r Htarget Hrun.
    apply getVisibleNodeInfoAtIndex_found in Hrun; [|exact Htarget].
    destruct Hrun as (row & Hin & <- & _).
    apply rowWithin_aboutTree.
    exact (proj1 (Forall_forall _ _) (rowsOfTree_within key true t) row Hin).
  - intros ic go info Hin. apply visitedBy_rows in Hin.
    pose proof (proj1 (Forall_forall _ _) (rowsOfTree_within key ic t) info Hin)
      as Hrow.
    split; [apply rowWithin_aboutTree; exact Hrow|].
    destruct Hrow as (_ & chain & _ & _ & Hf).
    apply Forall_app in Hf. destruct Hf as [_ Hf].
    inversion Hf as [|? ? [_ Hlast] _]; subst. exact Hlast.
Qed.

(** Whatever the tree, the index-seeking traversal keys the rows in order,
    each once, up to where it stops. *)
Section Ticks.

Variable St : Type.
Variable key : Node -> Z -> Key.
Variable tick : Node -> Z -> St -> St.

Lemma tickAll_app (a b : list WalkInfo) (s : St) :
  tickAll tick (a ++ b) s = tickAll tick b (tickAll tick a s).
Proof. unfold tickAll. apply fold_left_app. Qed.

Lemma seekTicked_first (a b : list WalkInfo) start target s s' out :
  seekTicked tick a start target s s' out ->
  match out with Ok (NextIndex _) => False | _ => True end ->
  seekTicked tick (a ++ b) start target s s' out.
Proof.
  intros (k & Hk & Hs & Hout) Hnot. exists k. split.
  - rewrite length_app. lia.
  - split.
    + rewrite firstn_app. replace (k - length a)%nat with 0%nat by lia.
      cbn [firstn]. rewrite app_nil_r. exact Hs.
    + destruct out as [[r|m]|e]; [|contradiction|exact I].
      destruct Hout as (row & Hnth & Hk1 & Hrow). exists row.
      split; [|split; assumption].
      rewrite nth_error_app1; [exact Hnth|]. lia.
Qed.

Lemma seekTicked_then (a b : list WalkInfo) start target s s1 s' out :
  s1 = tickAll tick a s ->
  seekTicked tick b (start + Z.of_nat (length a)) target s1 s' out ->
  seekTicked tick (a ++ b) start target s s' out.
Proof.
  intros Ha (k & Hk & Hs & Hout). exists (length a + k)%nat. split.
  - rewrite length_app. lia.
  - split.
    + rewrite firstn_app, firstn_all2 by lia.
      replace (length a + k - length a)%nat with k by lia.
      rewrite tickAll_app, <- Ha. exact Hs.
    + destruct out as [[r|m]|e]; [| |exact I].
      * destruct Hout as (row & Hnth & Hk1 & Hrow). exists row.
        split; [|split; [lia | assumption]].
        rewrite nth_error_app2 by lia.
        replace (length a + k - 1 - length a)%nat with (k - 1)%nat by lia.
        exact Hnth.
      * destruct Hout as [-> ->]. rewrite length_app. split; lia.
Qed.

Lemma seekChildren_ticked target cc path lsc rest :
  Forall (fun c => forall idx path lsc s s' out,
            getNodeDataAtTreeIndexOrNextIndex (observedKey key tick) c idx
              target path lsc true false s = (s', out) ->
            seekTicked tick (rowsOfNode key true c idx path lsc) idx target
              s s' out) rest ->
  forall i childIndex s s' out,
    seekChildren
      (fun child childIndex below =>
         getNodeDataAtTreeIndexOrNextIndex (observedKey key tick) child
           childIndex target path (lsc ++ [below]) true false)
      cc rest i childIndex s = (s', out) ->
    seekTicked tick
      (rowsOfChildren
         (fun c i below => rowsOfNode key true c i path (lsc ++ [below]))
         cc rest i childIndex) childIndex target s s' out.
Proof.
  induction 1 as [|c rest Hc _ IH]; intros i childIndex s s' out Hrun.
  - cbn in Hrun. injection Hrun as <- <-. exists 0%nat. cbn.
    repeat split; lia.
  - cbn [seekChildren] in Hrun. unfold bind at 1 in Hrun.
    destruct (getNodeDataAtTreeIndexOrNextIndex _ c childIndex target path
                (lsc ++ [cc - i - 1]) true false s) as [s1 out1] eqn:Hfirst.
    apply Hc in Hfirst. cbn [rowsOfChildren].
    destruct out1 as [[r1|n1]|e1].
    + injection Hrun as <- <-. apply seekTicked_first; [exact Hfirst | exact I].
    + destruct Hfirst as (k & _ & Hs1 & -> & ->).
      rewrite firstn_all in Hs1.
      eapply seekTicked_then; [exact Hs1|]. apply IH. exact Hrun.
    + injection Hrun as <- <-. apply seekTicked_first; [exact Hfirst | exact I].
Qed.

Lemma seekTicked_self (n : Node) idx path lsc rest target s s' out :
  seekTicked tick rest (idx + 1) target (tick n idx s) s' out ->
  seekTicked tick (MkWalkInfo n (path ++ [key n idx]) lsc idx :: rest)
    idx target s s' out.
Proof.
  intros Hrest.
  apply (@seekTicked_then [MkWalkInfo n (path ++ [key n idx]) lsc idx] rest
           idx target s (tick n idx s)); [reflexivity | exact Hrest].
Qed.

Lemma getNodeData_ticked target (n : Node) :
  forall idx path lsc s s' out,
    getNodeDataAtTreeIndexOrNextIndex (observedKey key tick) n idx target
      path lsc true false s = (s', out) ->
    seekTicked tick (rowsOfNode key true n idx path lsc) idx target s s' out.
Proof.
  assert (Hfound : forall (n : Node) idx path lsc rest s,
             (idx =? target) = true ->
             seekTicked tick
               (MkWalkInfo n (path ++ [key n idx]) lsc idx :: rest) idx target
               s (tick n idx s)
               (Ok (Found (MkInfo n lsc (path ++ [key n idx]))))).
  { intros m idx path lsc rest s Hidx. apply Z.eqb_eq in Hidx.
    exists 1%nat. cbn [length firstn]. split; [lia|]. split; [reflexivity|].
    eexists. repeat split; try reflexivity. exact Hidx. }
  assert (Hpass : forall (n : Node) idx path lsc s,
             seekTicked tick [MkWalkInfo n (path ++ [key n idx]) lsc idx]
               idx target s (tick n idx s) (Ok (NextIndex (idx + 1)))).
  { intros m idx path lsc s. exists 1%nat. cbn [length firstn].
    repeat split; lia. }
  induction n as [f e|f e items IH|f e a] using Node_induction;
    intros idx path lsc s s' out Hrun;
    rewrite getNodeData_step in Hrun; cbn [observedKey] in Hrun;
    cbn [rowsOfNode]; destruct (idx =? target) eqn:Hidx;
    try (injection Hrun as <- <-; apply Hfound; exact Hidx).
  - cbn in Hrun. injection Hrun as <- <-. apply Hpass.
  - cbn [andb] in Hrun. rewrite andb_true_r.
    destruct (_ || _).
    + injection Hrun as <- <-. apply Hpass.
    + cbn [children] in Hrun |- *.
      apply (@seekChildren_ticked target _ _ _ items IH) in Hrun.
      apply seekTicked_self. exact Hrun.
  - cbn [andb] in Hrun. rewrite andb_true_r.
    destruct (_ || _).
    + injection Hrun as <- <-. apply Hpass.
    + cbn [children] in Hrun. destruct a.
      * injection Hrun as <- <-. apply Hpass.
      * injection Hrun as <- <-. exists 1%nat. cbn [length firstn].
        repeat split; lia.
Qed.

(** [getVisibleNodeInfoAtIndex] for a target other than the pseudo-root's
    own index. *)
Lemma getVisibleNodeInfoAtIndex_ticked (t : Tree) target s s' out :
  target <> -1 ->
  getVisibleNodeInfoAtIndex noFields (observedKey key tick) t target s
  = (s', out) ->
  exists k,
    (k <= length (rowsOfTree key true t))%nat
    /\ s' = tickAll tick (firstn k (rowsOfTree key true t)) s
    /\ forall r, out = Ok (Some r) ->
         exists row,
           nth_error (rowsOfTree key true t) (k - 1) = Some row
           /\ (1 <= k)%nat /\ toInfo row = r /\ w_treeIndex row = target.
Proof.
  intros Htarget. unfold getVisibleNodeInfoAtIndex.
  destruct (Z.of_nat (length t) <? 1) eqn:Hlen.
  - intros Hrun. injection Hrun as <- <-. exists 0%nat.
    split; [lia|]. split; [reflexivity | discriminate].
  - unfold bind at 1.
    destruct (getNodeDataAtTreeIndexOrNextIndex _ _ (-1) target [] [] true true s)
      as [s1 out1] eqn:Hrun.
    unfold getNodeDataAtTreeIndexOrNextIndex in Hrun;
      fold (getNodeDataAtTreeIndexOrNextIndex (observedKey key tick)) in Hrun.
    unfold noChildren, notExpanded in Hrun.
    cbn [children expanded orb andb negb] in Hrun.
    replace (-1 =? target) with false in Hrun
      by (symmetry; apply Z.eqb_neq; lia).
    cbv [bind ret] in Hrun.
    apply (@seekChildren_ticked target (Z.of_nat (length t)) [] []) in Hrun.
    + destruct Hrun as (k & Hk & Hs & Hout). intros Hres. exists k.
      destruct out1 as [[r1|m]|e1]; cbn in Hres; injection Hres as <- <-;
        (split; [exact Hk|]); (split; [exact Hs|]); intros r Hr;
        try discriminate.
      injection Hr as <-. exact Hout.
    + apply Forall_forall. intros c _ idx path lsc s0 s0' res.
      apply getNodeData_ticked.
Qed.

End Ticks.

(* ------------------------------------------------------------------ *)
(** *** Flattening and index resolution *)

(** Where the index-seeking traversal can cross the tree, the record at
    position [i] of the flattened array is the record index resolution
    returns for [i]. *)
Lemma flatten_agrees_with_resolve_on_seekable_trees :
  forall (St : Type) (key : Node -> Z -> Key) (tick : Node -> Z -> St -> St)
         (t : Tree) (i : Z) (s : St),
    treeSeekable t = true ->
    0 <= i < getVisibleNodeCount t ->
    exists r s1 s2 flattened,
      getVisibleNodeInfoAtIndex noFields (observedKey key tick) t i s
      = (s1, Ok (Some r))
      /\ getVisibleNodeInfoFlattened noFields (observedKey key tick) t s
         = (s2, Ok flattened)
      /\ nth_error flattened (Z.to_nat i) = Some (Some r).
Proof.
  intros St key tick t i s Hseek Hi.
  rewrite (getVisibleNodeCount_rows key) in Hi.
  assert (Ht : t <> []) by (intros ->; cbn in Hi; lia).
  rewrite getVisibleNodeInfoAtIndex_rows by (try assumption; lia).
  rewrite getVisibleNodeInfoFlattened_rows.
  destruct (sought_at tick (rowsOfTree key true t) (start := 0) (target := i) s)
    as (r & Hnth & Hidx & Hsought);
    [apply rowsOfTree_indexed | lia |].
  rewrite Hsought. replace (i - 0) with i in * by lia.
  exists (toInfo r). eexists. eexists. eexists.
  split; [reflexivity|]. split; [reflexivity|].
  rewrite nth_error_map, Hnth. reflexivity.
Qed.

(* ------------------------------------------------------------------ *)
(** *** How often the key function is called *)

Lemma visitsOf_keyedThenVisited (infos : list WalkInfo) :
  visitsOf (keyedThenVisited infos) = infos.
Proof.
  induction infos as [|x infos IH]; cbn; [reflexivity|].
  f_equal. exact IH.
Qed.

Lemma feed_keyed_visited (go : WalkInfo -> bool) rows :
  forall log,
  exists k,
    fst (feed (fun n i log => log ++ [KeyCalled n i]) (recordingCallback go)
           rows log)
    = log ++ keyedThenVisited (firstn k rows).
Proof.
  induction rows as [|r rows IH]; intros log.
  - exists O. cbn. rewrite app_nil_r. reflexivity.
  - cbn [feed recordingCallback]. destruct (go r).
    + destruct (IH ((log ++ [KeyCalled (w_node r) (w_treeIndex r)]) ++ [Visited r]))
        as [k Hk].
      exists (S k). rewrite Hk, <- !app_assoc. reflexivity.
    + exists 1%nat. cbn. rewrite <- !app_assoc. reflexivity.
Qed.

Lemma tickAll_recording (rows : list WalkInfo) :
  forall start log,
    indexedFrom start rows ->
    tickAll (fun n i log => log ++ [KeyCalled n i]) rows log
    = log ++ keyedInOrder start (map (@toInfo Fields) rows).
Proof.
  induction rows as [|r rows IH]; intros start log Hi; cbn.
  - rewrite app_nil_r. reflexivity.
  - destruct Hi as [Hr Hi]. unfold tickAll in IH.
    rewrite (IH (start + 1)) by exact Hi.
    rewrite <- app_assoc, Hr. reflexivity.
Qed.

Lemma indexedFrom_nth (rows : list WalkInfo) :
  forall start j row,
    indexedFrom start rows -> nth_error rows j = Some row ->
    w_treeIndex row = start + Z.of_nat j.
Proof.
  induction rows as [|r rows IH]; intros start j row Hi Hnth;
    [destruct j; discriminate|].
  destruct Hi as [Hr Hi]. destruct j as [|j]; cbn in Hnth.
  - injection Hnth as <-. lia.
  - rewrite (IH (start + 1) j row Hi Hnth). lia.
Qed.

(** C8, amended (key-function call discipline): in one pass of walking and
    of flattening, on every tree, and in one pass of index resolution on a
    tree the index-seeking traversal can cross (no expanded node that is
    reached through expanded ancestors has for [children] a function
    declaring parameters), the key function is called exactly once for
    each node visited, when the node is visited and with its linear index:
    a walk keys a node right before it shows it to the callback;
    flattening keys the nodes of the array in order, the node at position
    [j] with index [j]; index resolution returns, and has keyed the first
    nodes of that order, up to the node it returns when it returns one.
    (Path-addressed mutation is left out.) *)
Theorem key_called_once_per_visit :
  forall (key : Node -> Z -> Key) (t : Tree),
    (forall (ignoreCollapsed : bool) (go : WalkInfo -> bool),
        let log := fst (walk noFields (recordingKey key) (recordingCallback go)
                          t ignoreCollapsed []) in
        log = keyedThenVisited (visitsOf log))
    /\ (exists infos,
           getVisibleNodeInfoFlattened noFields (recordingKey key) t []
           = (keyedInOrder 0 infos, Ok (map (@Some NodeInfo) infos))
           /\ (treeSeekable t = true ->
               forall i : Z,
                 exists k out,
                   getVisibleNodeInfoAtIndex noFields (recordingKey key) t i []
                   = (keyedInOrder 0 (firstn k infos), Ok out)
                   /\ (forall r,
                          i <> -1 ->
                          out = Some r ->
                          k = (Z.to_nat i + 1)%nat
                          /\ nth_error infos (Z.to_nat i) = Some r))).
Proof.
  intros key t. split.
  - intros ic go. unfold recordingKey. destruct t as [|c t]; [reflexivity|].
    rewrite walk_rows by congruence.
    destruct (feed_keyed_visited go (rowsOfTree key ic (c :: t)) []) as [k Hk].
    destruct (feed _ _ _ []) as [log g]. cbn [fst] in Hk |- *. subst log.
    cbn [app]. cbv zeta. rewrite visitsOf_keyedThenVisited. reflexivity.
  - exists (map (@toInfo Fields) (rowsOfTree key true t)). split.
    + unfold recordingKey. rewrite getVisibleNodeInfoFlattened_rows.
      rewrite (tickAll_recording _ 0 []) by apply rowsOfTree_indexed.
      rewrite map_map. reflexivity.
    + intros Hseek i. unfold recordingKey.
      destruct t as [|c t].
      { exists 0%nat, None. split; [reflexivity | discriminate]. }
      destruct (Z.eq_dec i (-1)) as [->|Hi].
      { exists 0%nat. eexists. split; [|congruence].
        unfold getVisibleNodeInfoAtIndex.
        replace (Z.of_nat (length (c :: t)) <? 1) with false
          by (symmetry; apply Z.ltb_ge; cbn [length]; lia).
        reflexivity. }
      destruct (getVisibleNodeInfoAtIndex noFields
                  (observedKey key (fun n j log => log ++ [KeyCalled n j]))
                  (c :: t) i []) as [log out] eqn:Hrun.
      assert (Hok : exists o, out = Ok o).
      { rewrite getVisibleNodeInfoAtIndex_rows in Hrun
          by (congruence || assumption).
        destruct (sought _ _ i []) as [s1 o].
        exists o. congruence. }
      destruct Hok as [o ->].
      apply getVisibleNodeInfoAtIndex_ticked in Hrun; [|exact Hi].
      destruct Hrun as (k & Hk & Hlog & Hout). exists k, o.
      pose proof (rowsOfTree_indexed key true (c :: t)) as Hall.
      split.
      * rewrite Hlog, (tickAll_recording _ 0 []).
        -- rewrite firstn_map. reflexivity.
        -- rewrite <- (firstn_skipn k (rowsOfTree key true (c :: t))) in Hall.
           apply indexedFrom_app in Hall. exact (proj1 Hall).
      * intros r _ ->.
        destruct (Hout r eq_refl) as (row & Hnth & Hk1 & <- & Hidx).
        rewrite (@indexedFrom_nth _ 0 _ row Hall Hnth) in Hidx.
        assert (Hki : k = (Z.to_nat i + 1)%nat) by lia.
        split; [exact Hki|].
        rewrite nth_error_map.
        replace (Z.to_nat i) with (k - 1)%nat by lia.
        rewrite Hnth. reflexivity.
Qed.

(* ------------------------------------------------------------------ *)
(** *** Path-addressed mutation *)

Section Mutation.

Variable St : Type.
Variable getNodeKey : Node -> Z -> St -> St * Key.
Variable path : list Key.
Variable newNode : NewNode Fields St.
Variable ignoreCollapsed : bool.

#[local] Abbreviation traverse :=
  (changeNodeAtPath_traverse getNodeKey path newNode ignoreCollapsed).

Lemma traverse_step (isPseudoRoot : bool) (n : Node) idx p s :
  traverse isPseudoRoot n idx p s
  = let (s1, miss) :=
      if isPseudoRoot then (s, false)
      else let (s1, k) := getNodeKey n idx s in
           (s1, keyDiffers k (pathAt path p)) in
    if miss then (s1, Ok PMiss)
    else if p >=? Z.of_nat (length path) - 1 then
      match newNode with
      | NewFunction f => let (s2, v) := f n idx s1 in (s2, Ok v)
      | NewValue v => (s1, Ok v)
      end
    else if noChildren n then (s1, Throw NoChildrenOnPath)
    else match children n with
         | Absent => (s1, Throw NoChildrenOnPath)
         | Items items =>
             traverseChildren
               (fun child nextTreeIndex => traverse false child nextTreeIndex (p + 1))
               (nextIndexAfter getNodeKey ignoreCollapsed) n items items O
               (idx + 1) s1
         | Lazy O => (s1, Ok PMiss)
         | Lazy (S _) => (s1, Throw UndefinedChild)
         end.
Proof.
  destruct n as [f e ch]. cbn [changeNodeAtPath_traverse].
  unfold bind at 1.
  destruct isPseudoRoot; cbn [negb].
  - unfold ret at 1. cbv iota beta.
    destruct (p >=? _); [destruct newNode; reflexivity|].
    destruct (noChildren _); [reflexivity|].
    destruct ch as [|items|[|a]]; reflexivity.
  - unfold bind at 1, call at 1. destruct (getNodeKey _ idx s) as [s1 k].
    unfold ret at 1. cbv iota beta.
    destruct (keyDiffers _ _); [reflexivity|].
    destruct (p >=? _); [destruct newNode as [v|f0]; [reflexivity|]|].
    + unfold call. destruct (f0 _ idx s1); reflexivity.
    + destruct (noChildren _); [reflexivity|].
      destruct ch as [|items|[|a]]; reflexivity.
Qed.

Lemma traverseChildren_shared (visit : Node -> Z -> M St (Produced Fields))
  (skip : Node -> Z -> M St Z) (depth : nat) (n : Node) (all : Tree) :
  forall rest pre,
    all = pre ++ rest ->
    Forall (fun c => forall idx s s' out,
              visit c idx s = (s', Ok out) ->
              match depth with
              | O => True
              | S d => rebuiltAround d c out
              end) rest ->
    forall idx s s' out,
      traverseChildren visit skip n all rest (length pre) idx s = (s', Ok out) ->
      out = PMiss
      \/ exists items', out = PNode (withChildren n items')
                        /\ SharedEdit depth all items'.
Proof.
  induction rest as [|c rest IH]; intros pre Hall Hvisit idx s s' out Hrun.
  - cbn in Hrun. injection Hrun as _ <-. left. reflexivity.
  - cbn [traverseChildren] in Hrun. unfold bind at 1 in Hrun.
    destruct (visit c idx s) as [s1 [v|e]] eqn:Hc; [|discriminate].
    inversion Hvisit as [|? ? Hhere Hrest]; subst.
    assert (Hfirst : firstn (length pre) (pre ++ c :: rest) = pre).
    { rewrite firstn_app, Nat.sub_diag, firstn_all. cbn. apply app_nil_r. }
    assert (Hskip : skipn (length pre + 1) (pre ++ c :: rest) = rest).
    { rewrite skipn_app, skipn_all2 by lia.
      replace (length pre + 1 - length pre)%nat with 1%nat by lia.
      reflexivity. }
    specialize (Hhere idx s s1 v Hc).
    destruct v as [r| | |].
    + injection Hrun as _ <-. right. rewrite Hfirst, Hskip.
      destruct depth as [|d].
      * eexists. split; [reflexivity|]. apply edit_replace.
      * destruct Hhere as [Hmiss|(items & items' & Hch & Hout & Hedit)];
          [discriminate|].
        injection Hout as ->. eexists. split; [reflexivity|].
        destruct c as [f e ch]. cbn in Hch. subst ch.
        unfold withChildren. cbn [fields expanded].
        apply edit_below. exact Hedit.
    + injection Hrun as _ <-. right. rewrite Hfirst, Hskip.
      destruct depth as [|d].
      * eexists. split; [reflexivity|]. apply edit_remove.
      * destruct Hhere as [Hmiss|(items & items' & _ & Hout & _)]; discriminate.
    + injection Hrun as _ <-. right. rewrite Hfirst, Hskip.
      destruct depth as [|d].
      * eexists. split; [reflexivity|]. apply edit_remove.
      * destruct Hhere as [Hmiss|(items & items' & _ & Hout & _)]; discriminate.
    + unfold bind at 1 in Hrun.
      destruct (skip c idx s1) as [s2 [next|e]]; [|discriminate].
      replace (S (length pre)) with (length (pre ++ [c])) in Hrun
        by (rewrite length_app; cbn [length]; lia).
      apply IH in Hrun; [exact Hrun | | exact Hrest].
      rewrite <- app_assoc. reflexivity.
Qed.

Lemma traverse_shared (n : Node) :
  forall isPseudoRoot idx p s s' out,
    p < Z.of_nat (length path) - 1 ->
    traverse isPseudoRoot n idx p s = (s', Ok out) ->
    rebuiltAround (Z.to_nat (Z.of_nat (length path) - 2 - p)) n out.
Proof.
  induction n as [f e|f e items IH|f e a] using Node_induction;
    intros pr idx p s s' out Hp Hrun; rewrite traverse_step in Hrun;
    destruct (if pr then _ else _) as [s1 miss];
    (destruct miss; [injection Hrun as _ <-; left; reflexivity|]);
    replace (p >=? Z.of_nat (length path) - 1) with false in Hrun
      by (symmetry; rewrite Z.geb_leb; apply Z.leb_gt; lia).
  - discriminate.
  - cbn [noChildren children] in Hrun.
    apply (@traverseChildren_shared _ _
             (Z.to_nat (Z.of_nat (length path) - 2 - p)) _ items items [])
      in Hrun; [|reflexivity|].
    + destruct Hrun as [->|(items' & -> & Hedit)]; [left; reflexivity|].
      right. exists items, items'. repeat split. exact Hedit.
    + eapply Forall_impl; [|exact IH]. intros c Hc cidx cs cs' cout Hcrun.
      destruct (Z.to_nat (Z.of_nat (length path) - 2 - p)) as [|d] eqn:Hd;
        [exact I|].
      replace d with (Z.to_nat (Z.of_nat (length path) - 2 - (p + 1))) by lia.
      apply (Hc false cidx (p + 1) cs cs' cout); [lia | exact Hcrun].
  - cbn [noChildren children] in Hrun. destruct a; [|discriminate].
    injection Hrun as _ <-. left. reflexivity.
Qed.

Lemma changeNodeAtPath_shared_edit (treeData : Tree) (s s' : St)
  (result : Children Node) :
  path <> [] ->
  changeNodeAtPath noFields getNodeKey path newNode ignoreCollapsed treeData s
  = (s', Ok result) ->
  exists changed,
    result = Items changed
    /\ SharedEdit (length path - 1) treeData changed.
Proof.
  intros Hpath Hrun. unfold changeNodeAtPath in Hrun.
  unfold bind at 1 in Hrun.
  destruct (changeNodeAtPath_traverse _ _ _ _ true _ (-1) (-1) s)
    as [s1 [out|e]] eqn:Htr; [|discriminate].
  assert (Hlen : 0 < Z.of_nat (length path)).
  { destruct path; [congruence | cbn [length]; lia]. }
  apply traverse_shared in Htr; [|lia].
  destruct Htr as [->|(items & items' & Hch & -> & Hedit)]; [discriminate|].
  cbn in Hch. injection Hch as <-.
  cbn in Hrun. injection Hrun as _ <-.
  exists items'. split; [reflexivity|].
  replace (length path - 1)%nat
    with (Z.to_nat (Z.of_nat (length path) - 2 - -1)) by lia.
  exact Hedit.
Qed.

End Mutation.

(** *** A pure key function leaves the state alone *)

Section PureKey.

Variable St : Type.
Variable key : Node -> Z -> Key.

Lemma seekChildren_pure target cc path lsc rest :
  Forall (fun c => forall idx path lsc ic (s : St),
            getNodeDataAtTreeIndexOrNextIndex (pureKey key) c idx target
              path lsc ic false s
            = (s, snd (getNodeDataAtTreeIndexOrNextIndex (pureKey key) c idx
                         target path lsc ic false tt))) rest ->
  forall i childIndex (s : St),
    seekChildren
      (fun child childIndex below =>
         getNodeDataAtTreeIndexOrNextIndex (pureKey key) child childIndex
           target path (lsc ++ [below]) true false) cc rest i childIndex s
    = (s, snd (seekChildren
                 (fun child childIndex below =>
                    getNodeDataAtTreeIndexOrNextIndex (pureKey key) child
                      childIndex target path (lsc ++ [below]) true false)
                 cc rest i childIndex tt)).
Proof.
  induction 1 as [|c rest Hc _ IH]; intros i childIndex s; [reflexivity|].
  cbn [seekChildren]. unfold bind. rewrite Hc.
  destruct (getNodeDataAtTreeIndexOrNextIndex _ c childIndex target path
              (lsc ++ [cc - i - 1]) true false tt) as [[] [[r|n]|e]];
    cbn [snd]; [reflexivity | apply IH | reflexivity].
Qed.

Lemma getNodeData_pure target (n : Node) :
  forall idx path lsc ic (s : St),
    getNodeDataAtTreeIndexOrNextIndex (pureKey key) n idx target path lsc ic false s
    = (s, snd (getNodeDataAtTreeIndexOrNextIndex (pureKey key) n idx target
                 path lsc ic false tt)).
Proof.
  induction n as [f e|f e items IH|f e a] using Node_induction;
    intros idx path lsc ic s; rewrite !getNodeData_step;
    cbn [pureKey observedKey];
    (destruct (idx =? target); [reflexivity|]);
    (destruct (_ || _); [reflexivity|]); cbn [children].
  - reflexivity.
  - apply seekChildren_pure. exact IH.
  - destruct a; reflexivity.
Qed.

Lemma nextIndexAfter_pure ic (c : Node) idx (s : St) :
  nextIndexAfter (pureKey key) ic c idx s = (s, skipEnd key ic c idx).
Proof.
  unfold skipEnd, nextIndexAfter, bind. rewrite getNodeData_pure.
  destruct (getNodeDataAtTreeIndexOrNextIndex _ c idx (-1) [] [] ic false tt)
    as [[] [[r|n]|e]]; reflexivity.
Qed.

End PureKey.

(** *** Mutation along a path that addresses a node *)

Lemma Key_eqb_eq (a b : Key) : Key_eqb a b = true <-> a = b.
Proof.
  destruct a as [s|x], b as [t|y]; cbn; split; intros H; try discriminate.
  - apply String.eqb_eq in H. congruence.
  - injection H as ->. apply String.eqb_refl.
  - apply Z.eqb_eq in H. congruence.
  - injection H as ->. apply Z.eqb_refl.
Qed.

Lemma keyDiffers_same (k : Key) : keyDiffers k (Some k) = false.
Proof. cbn. rewrite (proj2 (Key_eqb_eq k k) eq_refl). reflexivity. Qed.

Lemma keyDiffers_other (k k' : Key) : k <> k' -> keyDiffers k (Some k') = true.
Proof.
  intros H. cbn. destruct (Key_eqb k k') eqn:E; [|reflexivity].
  apply Key_eqb_eq in E. contradiction.
Qed.

Lemma pathAt_middle (before after : list Key) k :
  pathAt (before ++ k :: after) (Z.of_nat (length before)) = Some k.
Proof.
  unfold pathAt.
  replace (Z.of_nat (length before) <? 0) with false
    by (symmetry; apply Z.ltb_ge; lia).
  rewrite Nat2Z.id, nth_error_app2, Nat.sub_diag by lia. reflexivity.
Qed.

Section Addressed.

Variable St : Type.
Variable key : Node -> Z -> Key.
Variable path : list Key.
Variable newNode : NewNode Fields St.
Variable ignoreCollapsed : bool.

#[local] Abbreviation traverse :=
  (changeNodeAtPath_traverse (@pureKey Fields St key) path newNode ignoreCollapsed).
#[local] Abbreviation skip :=
  (nextIndexAfter (@pureKey Fields St key) ignoreCollapsed).

Lemma traverseChildren_none k (q : Z) rest idx :
  NoneHasKey key ignoreCollapsed k rest idx ->
  pathAt path q = Some k ->
  forall node all i0 s,
    traverseChildren (fun c j => traverse false c j q) skip node all rest i0 idx s
    = (s, Ok PMiss).
Proof.
  intros Hnone Hq. induction Hnone as [idx|c rest idx idx' Hk Hskip _ IH];
    intros node all i0 s; [reflexivity|].
  cbn [traverseChildren]. unfold bind at 1. rewrite traverse_step.
  cbn [pureKey observedKey]. rewrite Hq, (keyDiffers_other Hk).
  unfold bind at 1. rewrite nextIndexAfter_pure, Hskip. apply IH.
Qed.

Lemma liftedTo_loop (o : St * Outcome (Produced Fields))
  (visit : Node -> Z -> M St (Produced Fields))
  (c : Node) rest idx idx' node all i0 s :
  liftedTo o (visit c idx s) \/ visit c idx s = o ->
  skipEnd key ignoreCollapsed c idx = Ok idx' ->
  (forall s1, traverseChildren visit skip node all rest (S i0) idx' s1
              = (s1, Ok PMiss)) ->
  liftedTo o (traverseChildren visit skip node all (c :: rest) i0 idx s).
Proof.
  intros Hinner Hskip Hnone.
  cbn [traverseChildren]. unfold bind, ret.
  destruct Hinner as [[Hst Hout]|Heq].
  - destruct (visit c idx s) as [s1 out]. cbn [fst snd] in Hst, Hout. subst s1.
    destruct (snd o) as [[r| | |]|e] eqn:Ho.
    + destruct Hout as [r' ->]. split; [reflexivity|]. rewrite Ho. cbn [snd]. eauto.
    + destruct Hout as [r' ->]. split; [reflexivity|]. rewrite Ho. cbn [snd]. eauto.
    + destruct Hout as [r' ->]. split; [reflexivity|]. rewrite Ho. cbn [snd]. eauto.
    + subst out. rewrite nextIndexAfter_pure, Hskip, Hnone.
      split; [reflexivity|]. rewrite Ho. reflexivity.
    + subst out. split; [reflexivity|]. rewrite Ho. reflexivity.
  - rewrite Heq. destruct o as [s1 [[r| | |]|e]];
      try rewrite nextIndexAfter_pure, Hskip, Hnone;
      (split; [reflexivity|]); cbn [snd]; eauto.
Qed.

Lemma traverseChildren_addressed ks (n : Node) i rest idx :
  Addresses key ignoreCollapsed rest idx ks n i ->
  forall before after,
    path = before ++ ks ++ after ->
    forall node all i0 s,
      liftedTo
        (traverse false n i (Z.of_nat (length before + length ks) - 1) s)
        (traverseChildren
           (fun c j => traverse false c j (Z.of_nat (length before)))
           skip node all rest i0 idx s).
Proof.
  induction 1 as [c rest idx idx' k Hk Hskip Hnone
                 |c rest idx idx' k k' ks items n i Hk Hch Hdown IH Hskip Hnone
                 |c rest idx idx' k ks n i Hk Hskip Hdown IH];
    intros before after Hpath node all i0 s;
    assert (Hq : pathAt path (Z.of_nat (length before)) = Some k)
      by (rewrite Hpath; apply pathAt_middle).
  - (* the node is the target *)
    replace (Z.of_nat (length before + length [k]) - 1)
      with (Z.of_nat (length before)) by (cbn [length]; lia).
    apply liftedTo_loop with (idx' := idx');
      [right; reflexivity | exact Hskip |].
    intros s1. apply (traverseChildren_none _ Hnone Hq).
  - (* the node is on the way *)
    apply liftedTo_loop with (idx' := idx');
      [left | exact Hskip |].
    + rewrite (traverse_step _ _ _ _ false c).
      cbn [pureKey observedKey]. rewrite Hq, Hk, keyDiffers_same.
      replace (Z.of_nat (length before) >=? Z.of_nat (length path) - 1)
        with false
        by (symmetry; rewrite Z.geb_leb; apply Z.leb_gt; rewrite Hpath;
            rewrite !length_app; cbn [length]; lia).
      unfold noChildren. rewrite Hch.
      specialize (IH (before ++ [k]) after).
      rewrite length_app in IH. cbn [length] in IH.
      replace (Z.of_nat (length before + 1)) with (Z.of_nat (length before) + 1)
        in IH by lia.
      replace (Z.of_nat (length before + 1 + S (length ks)) - 1)
        with (Z.of_nat (length before + length (k :: k' :: ks)) - 1)
        in IH by (cbn [length]; lia).
      apply IH. rewrite Hpath, <- app_assoc. reflexivity.
    + intros s1. apply (traverseChildren_none _ Hnone Hq).
  - (* the node is a sibling before *)
    cbn [traverseChildren]. unfold bind at 1.
    rewrite (traverse_step _ _ _ _ false c).
    cbn [pureKey observedKey]. rewrite Hq, (keyDiffers_other Hk).
    unfold bind at 1. rewrite nextIndexAfter_pure, Hskip.
    apply IH with (after := after). exact Hpath.
Qed.

End Addressed.

Section AddressedResults.

Variable St : Type.
Variable key : Node -> Z -> Key.
Variable newNode : NewNode Fields St.
Variable ignoreCollapsed : bool.

Lemma addresses_last ks (n : Node) i rest idx :
  Addresses key ignoreCollapsed rest idx ks n i ->
  exists front, ks = front ++ [key n i].
Proof.
  induction 1 as [c rest idx idx' k Hk _ _
                 |c rest idx idx' k k' ks items n i Hk _ _ IH _ _
                 |c rest idx idx' k ks n i _ _ _ IH].
  - exists []. rewrite Hk. reflexivity.
  - destruct IH as [front Hfront]. exists (k :: front). rewrite Hfront.
    reflexivity.
  - exact IH.
Qed.

(** What the call on the addressed node does, for a path that stops at it
    or goes on. *)
Lemma traverse_at_target p more (n : Node) i rest idx s :
  Addresses key ignoreCollapsed rest idx p n i ->
  changeNodeAtPath_traverse (pureKey key) (p ++ more) newNode
    ignoreCollapsed false n i (Z.of_nat (length p) - 1) s
  = match more with
    | [] => let (s1, v) := produce newNode n i s in (s1, Ok v)
    | _ :: _ =>
        if noChildren n then (s, Throw NoChildrenOnPath)
        else match children n with
             | Absent => (s, Throw NoChildrenOnPath)
             | Items items =>
                 traverseChildren
                   (fun child nextTreeIndex =>
                      changeNodeAtPath_traverse (pureKey key) (p ++ more)
                        newNode ignoreCollapsed false child nextTreeIndex
                        (Z.of_nat (length p) - 1 + 1))
                   (nextIndexAfter (pureKey key) ignoreCollapsed) n items
                   items O (i + 1) s
             | Lazy O => (s, Ok PMiss)
             | Lazy (S _) => (s, Throw UndefinedChild)
             end
    end.
Proof.
  intros Haddr. destruct (addresses_last Haddr) as [front Hfront].
  rewrite traverse_step. cbn [pureKey observedKey].
  assert (Hq : pathAt (p ++ more) (Z.of_nat (length p) - 1) = Some (key n i)).
  { rewrite Hfront, <- app_assoc, length_app. cbn [length app].
    replace (Z.of_nat (length front + 1) - 1) with (Z.of_nat (length front))
      by lia.
    apply pathAt_middle. }
  rewrite Hq, keyDiffers_same.
  destruct more as [|m more].
  - rewrite app_nil_r.
    replace (Z.of_nat (length p) - 1 >=? Z.of_nat (length p) - 1) with true
      by (symmetry; rewrite Z.geb_leb; apply Z.leb_le; lia).
    unfold produce. destruct newNode as [v|f]; [reflexivity|].
    destruct (f n i s); reflexivity.
  - replace (Z.of_nat (length p) - 1 >=? Z.of_nat (length (p ++ m :: more)) - 1)
      with false
      by (symmetry; rewrite Z.geb_leb; apply Z.leb_gt; rewrite length_app;
          cbn [length]; lia).
    reflexivity.
Qed.

Lemma changeNodeAtPath_addressed p more (n : Node) i (t : Tree) s :
  Addresses key ignoreCollapsed t 0 p n i ->
  let o := changeNodeAtPath_traverse (pureKey key) (p ++ more) newNode
             ignoreCollapsed false n i (Z.of_nat (length p) - 1) s in
  let run := changeNodeAtPath noFields (pureKey key) (p ++ more) newNode
               ignoreCollapsed t s in
  fst run = fst o
  /\ match snd o with
     | Throw e => snd run = Throw e
     | Ok PMiss => snd run = Throw NoNodeFound
     | Ok _ => exists result, snd run = Ok result
     end.
Proof.
  intros Haddr o run. subst run. unfold changeNodeAtPath, bind.
  rewrite traverse_step.
  assert (Hlen : (0 < length p)%nat).
  { destruct (addresses_last Haddr) as [front ->]. rewrite length_app.
    cbn [length]. lia. }
  replace (-1 >=? Z.of_nat (length (p ++ more)) - 1) with false
    by (symmetry; rewrite Z.geb_leb; apply Z.leb_gt; rewrite length_app; lia).
  cbn [noChildren children].
  pose proof (@traverseChildren_addressed St key (p ++ more) newNode
                ignoreCollapsed _ _ _ _ _ Haddr [] more eq_refl
                (MkNode noFields None (Items t)) t O s) as [Hst Hout].
  cbn [length Nat.add] in Hst, Hout. change (Z.of_nat 0) with 0 in Hst, Hout.
  change (-1 + 1) with 0.
  fold o in Hst, Hout.
  destruct (traverseChildren _ _ _ t t 0 0 s) as [s1 out].
  cbn [fst snd] in Hst, Hout. subst s1.
  destruct (snd o) as [[r| | |]|e].
  - destruct Hout as [r' ->]. cbn. eauto.
  - destruct Hout as [r' ->]. cbn. eauto.
  - destruct Hout as [r' ->]. cbn. eauto.
  - subst out. cbn. auto.
  - subst out. cbn. auto.
Qed.

End AddressedResults.

Lemma nth_error_skipn (A : Type) (l : list A) :
  forall n x, nth_error l n = Some x -> skipn n l = x :: skipn (S n) l.
Proof.
  induction l as [|y l IH]; intros [|n] x H; cbn in H; try discriminate.
  - injection H as ->. reflexivity.
  - cbn [skipn]. rewrite (IH n x H). reflexivity.
Qed.

Lemma pathAt_skipn (path : list Key) q k :
  pathAt path q = Some k ->
  0 <= q < Z.of_nat (length path)
  /\ skipn (Z.to_nat q) path = k :: skipn (Z.to_nat (q + 1)) path.
Proof.
  unfold pathAt. destruct (q <? 0) eqn:Hq; [discriminate|]. intros H.
  apply Z.ltb_ge in Hq. split.
  - assert (Hn : (Z.to_nat q < length path)%nat)
      by (apply nth_error_Some; congruence).
    lia.
  - replace (Z.to_nat (q + 1)) with (S (Z.to_nat q)) by lia.
    apply nth_error_skipn. exact H.
Qed.

Lemma keyDiffers_false k p : keyDiffers k p = false -> p = Some k.
Proof.
  destruct p as [k'|]; cbn; [|discriminate]. intros H.
  apply negb_false_iff, Key_eqb_eq in H. congruence.
Qed.

Section Leads.

Variable St : Type.
Variable key : Node -> Z -> Key.
Variable path : list Key.
Variable newNode : NewNode Fields St.
Variable ignoreCollapsed : bool.

#[local] Abbreviation traverse :=
  (changeNodeAtPath_traverse (@pureKey Fields St key) path newNode ignoreCollapsed).
#[local] Abbreviation skip :=
  (nextIndexAfter (@pureKey Fields St key) ignoreCollapsed).

Lemma traverseChildren_leads (q : Z) rest :
  Forall (fun c => forall idx s s' out,
            traverse false c idx q s = (s', Ok out) -> out <> PMiss ->
            forall rest, exists m i,
              LeadsTo key ignoreCollapsed (c :: rest) idx
                (skipn (Z.to_nat q) path) m i) rest ->
  forall node all i0 idx s s' out,
    traverseChildren (fun c j => traverse false c j q) skip node all rest i0 idx s
    = (s', Ok out) ->
    out <> PMiss ->
    exists m i,
      LeadsTo key ignoreCollapsed rest idx (skipn (Z.to_nat q) path) m i.
Proof.
  induction 1 as [|c rest Hc _ IH]; intros node all i0 idx s s' out Hrun Hout.
  - cbn in Hrun. injection Hrun as _ <-. congruence.
  - cbn [traverseChildren] in Hrun. unfold bind at 1 in Hrun.
    destruct (traverse false c idx q s) as [s1 [v|e]] eqn:Hv; [|discriminate].
    destruct v as [r| | |];
      try (eapply Hc; [exact Hv | discriminate]).
    unfold bind at 1 in Hrun. rewrite nextIndexAfter_pure in Hrun.
    destruct (skipEnd key ignoreCollapsed c idx) as [next|e] eqn:Hskip;
      [|discriminate].
    destruct (IH _ _ _ _ _ _ _ Hrun Hout) as (m & i & Hleads).
    exists m, i. eapply leads_later; eassumption.
Qed.

Lemma traverse_leads (q : Z) (n : Node) :
  forall idx s s' out,
    traverse false n idx q s = (s', Ok out) -> out <> PMiss ->
    forall rest, exists m i,
      LeadsTo key ignoreCollapsed (n :: rest) idx (skipn (Z.to_nat q) path) m i.
Proof.
  revert q.
  induction n as [f e|f e items IH|f e a] using Node_induction;
    intros q idx s s' out Hrun Hout rest; rewrite traverse_step in Hrun;
    cbn [pureKey observedKey] in Hrun;
    (destruct (keyDiffers _ _) eqn:Hk;
     [injection Hrun as _ <-; congruence|]);
    apply keyDiffers_false in Hk;
    destruct (pathAt_skipn _ _ Hk) as [Hq Hskipn]; rewrite Hskipn;
    (destruct (q >=? Z.of_nat (length path) - 1) eqn:Hfinal;
     [ rewrite Z.geb_leb in Hfinal; apply Z.leb_le in Hfinal;
       rewrite skipn_all2 by lia; eexists; eexists; apply leads_here;
       reflexivity
     | rewrite Z.geb_leb in Hfinal; apply Z.leb_gt in Hfinal ]).
  - discriminate.
  - cbn [noChildren children] in Hrun.
    apply traverseChildren_leads in Hrun; [|idtac|exact Hout].
    + destruct Hrun as (m & i & Hleads).
      destruct (skipn (Z.to_nat (q + 1)) path) as [|k' ks] eqn:Hrest.
      * exfalso. clear - Hleads.
        remember [] as ks eqn:Hks. induction Hleads; try discriminate; auto.
      * exists m, i. eapply leads_below; [reflexivity | reflexivity | exact Hleads].
    + eapply Forall_impl; [|exact IH]. intros c Hc. apply Hc.
  - cbn [noChildren children] in Hrun. destruct a; [|discriminate].
    injection Hrun as _ <-. congruence.
Qed.

End Leads.

(* ------------------------------------------------------------------ *)
(** *** What a successful mutation shares with its input *)

Lemma firstn_pre (A : Type) (pre rest : list A) :
  firstn (length pre) (pre ++ rest) = pre.
Proof.
  rewrite firstn_app, Nat.sub_diag, firstn_all. cbn [firstn].
  apply app_nil_r.
Qed.

Lemma skipn_pre (A : Type) (pre : list A) c rest :
  skipn (length pre + 1) (pre ++ c :: rest) = rest.
Proof.
  rewrite skipn_app, skipn_all2 by lia.
  replace (length pre + 1 - length pre)%nat with 1%nat by lia. reflexivity.
Qed.

Section Along.

Variable St : Type.
Variable key : Node -> Z -> Key.
Variable path : list Key.
Variable newNode : NewNode Fields St.
Variable ignoreCollapsed : bool.

#[local] Abbreviation traverse :=
  (changeNodeAtPath_traverse (@pureKey Fields St key) path newNode ignoreCollapsed).
#[local] Abbreviation skip :=
  (nextIndexAfter (@pureKey Fields St key) ignoreCollapsed).

Lemma passes_snoc (pre : Tree) c idx idx' idx'' :
  Passes key ignoreCollapsed pre idx idx' ->
  skipEnd key ignoreCollapsed c idx' = Ok idx'' ->
  Passes key ignoreCollapsed (pre ++ [c]) idx idx''.
Proof.
  induction 1 as [idx|x rest idx mid idx' Hx _ IH]; intros Hc; cbn [app].
  - eapply passes_one; [exact Hc | apply passes_none].
  - eapply passes_one; [exact Hx | apply IH; exact Hc].
Qed.

Lemma sharedAlong_nonempty (l l' : Tree) idx p :
  SharedAlong key ignoreCollapsed l idx p l' -> p <> [].
Proof. destruct 1; discriminate. Qed.

(** What a result other than the miss marker tells of the call on [c] for
    the key at position [q] of the path: [c] has this key; and unless the
    key is the last, [c] comes back rebuilt around its children, edited
    along the rest of the path. *)
#[local] Abbreviation hit :=
  (fun (c : Node) (idx q : Z) (out : Produced Fields) =>
     pathAt path q = Some (key c idx)
     /\ (Z.of_nat (length path) - 1 <= q
         \/ exists items items',
              children c = Items items
              /\ out = PNode (withChildren c items')
              /\ SharedAlong key ignoreCollapsed items (idx + 1)
                   (skipn (Z.to_nat (q + 1)) path) items')).

Lemma traverseChildren_along (q : Z) rest :
  Forall (fun c => forall idx s s' out,
            traverse false c idx q s = (s', Ok out) -> out <> PMiss ->
            hit c idx q out) rest ->
  forall node all pre idx0 idx s s' out,
    all = pre ++ rest ->
    Passes key ignoreCollapsed pre idx0 idx ->
    traverseChildren (fun c j => traverse false c j q) skip node all rest
      (length pre) idx s = (s', Ok out) ->
    out <> PMiss ->
    exists items',
      out = PNode (withChildren node items')
      /\ SharedAlong key ignoreCollapsed all idx0 (skipn (Z.to_nat q) path)
           items'.
Proof.
  induction 1 as [|c rest Hc _ IH];
    intros node all pre idx0 idx s s' out Hall Hpre Hrun Hout.
  - cbn in Hrun. injection Hrun as _ <-. congruence.
  - cbn [traverseChildren] in Hrun. unfold bind at 1 in Hrun.
    destruct (traverse false c idx q s) as [s1 [v|e]] eqn:Hv; [|discriminate].
    destruct v as [r| | |].
    + (* the child came back changed *)
      destruct (Hc _ _ _ _ Hv ltac:(discriminate)) as [Hq Hkind].
      destruct (pathAt_skipn _ _ Hq) as [Hrange Hskipn].
      injection Hrun as _ <-. rewrite Hall, firstn_pre, skipn_pre.
      cbn [app]. eexists. split; [reflexivity|]. rewrite Hskipn.
      destruct Hkind as [Hlast|(items & items' & Hch & Hr & Hbelow)].
      * rewrite skipn_all2 by lia.
        eapply along_replaced; [exact Hpre | reflexivity].
      * injection Hr as ->.
        destruct (skipn (Z.to_nat (q + 1)) path) as [|k' ks] eqn:Hrest;
          [exfalso; exact (sharedAlong_nonempty Hbelow eq_refl)|].
        eapply along_rebuilt; [exact Hpre | reflexivity | exact Hch
                               | exact Hbelow].
    + (* the producer handed back null *)
      destruct (Hc _ _ _ _ Hv ltac:(discriminate)) as [Hq Hkind].
      destruct (pathAt_skipn _ _ Hq) as [Hrange Hskipn].
      injection Hrun as _ <-. rewrite Hall, firstn_pre, skipn_pre.
      eexists. split; [reflexivity|]. rewrite Hskipn.
      destruct Hkind as [Hlast|(items & items' & _ & Hr & _)];
        [|discriminate].
      rewrite skipn_all2 by lia.
      eapply along_removed; [exact Hpre | reflexivity].
    + (* the producer handed back another falsy value *)
      destruct (Hc _ _ _ _ Hv ltac:(discriminate)) as [Hq Hkind].
      destruct (pathAt_skipn _ _ Hq) as [Hrange Hskipn].
      injection Hrun as _ <-. rewrite Hall, firstn_pre, skipn_pre.
      eexists. split; [reflexivity|]. rewrite Hskipn.
      destruct Hkind as [Hlast|(items & items' & _ & Hr & _)];
        [|discriminate].
      rewrite skipn_all2 by lia.
      eapply along_removed; [exact Hpre | reflexivity].
    + (* a miss: the child is passed *)
      unfold bind at 1 in Hrun. rewrite nextIndexAfter_pure in Hrun.
      destruct (skipEnd key ignoreCollapsed c idx) as [next|e] eqn:Hskip;
        [|discriminate].
      apply (IH node all (pre ++ [c]) idx0 next s1 s' out);
        [ rewrite Hall, <- app_assoc; reflexivity
        | exact (@passes_snoc _ _ _ _ _ Hpre Hskip)
        | rewrite length_app; cbn [length];
          replace (length pre + 1)%nat with (S (length pre)) by lia;
          exact Hrun
        | exact Hout ].
Qed.

Lemma traverse_along (n : Node) :
  forall q idx s s' out,
    traverse false n idx q s = (s', Ok out) -> out <> PMiss ->
    hit n idx q out.
Proof.
  induction n as [f e|f e items IH|f e a] using Node_induction;
    intros q idx s s' out Hrun Hout; rewrite traverse_step in Hrun;
    cbn [pureKey observedKey] in Hrun;
    (destruct (keyDiffers _ _) eqn:Hk;
     [injection Hrun as _ <-; congruence|]);
    apply keyDiffers_false in Hk; (split; [exact Hk|]);
    (destruct (q >=? Z.of_nat (length path) - 1) eqn:Hfinal;
     [ rewrite Z.geb_leb in Hfinal; apply Z.leb_le in Hfinal; left; exact Hfinal
     | right ]);
    cbn [noChildren children] in Hrun.
  - discriminate.
  - apply (@traverseChildren_along (q + 1) items) with (pre := [])
      (idx0 := idx + 1) in Hrun;
      [ | eapply Forall_impl; [|exact IH]; intros c Hc; apply Hc
        | reflexivity | apply passes_none | exact Hout ].
    destruct Hrun as (items' & -> & Hbelow).
    exists items, items'. split; [reflexivity|]. split; [reflexivity|].
    exact Hbelow.
  - destruct a; [|discriminate]. injection Hrun as _ <-. congruence.
Qed.

(** C6 (structural sharing): when [changeNodeAtPath], under a pure key
    function, returns for a path [P] that is not empty, what it returns is
    the input tree edited along [P].  At each level one node is rebuilt:
    the one that has the key of [P] for this level, at the linear index
    the mutation reaches it at; it keeps its fields and its [expanded]
    and gets its children edited along the rest of [P].  The node that
    has the last key of [P] is replaced or removed.  Every other member of
    every array on the way, subtree and all, is the value it was, in its
    place. *)
Theorem structural_sharing :
  forall (treeData : Tree) (s s' : St) (result : Children Node),
    path <> [] ->
    changeNodeAtPath noFields (pureKey key) path newNode ignoreCollapsed
      treeData s
    = (s', Ok result) ->
    exists changed,
      result = Items changed
      /\ SharedAlong key ignoreCollapsed treeData 0 path changed.
Proof.
  intros t s s' result Hpath Hrun. unfold changeNodeAtPath, bind in Hrun.
  rewrite traverse_step in Hrun.
  replace (-1 >=? Z.of_nat (length path) - 1) with false in Hrun
    by (symmetry; rewrite Z.geb_leb; apply Z.leb_gt;
        destruct path; [congruence | cbn [length]; lia]).
  cbn [noChildren children] in Hrun. change (-1 + 1) with 0 in Hrun.
  destruct (traverseChildren _ _ _ t t 0 0 s) as [s1 [out|e]] eqn:Hloop;
    [|discriminate].
  assert (Hout : out <> PMiss) by (intros ->; discriminate).
  apply (@traverseChildren_along 0 t) with (pre := []) (idx0 := 0) in Hloop;
    [ | apply Forall_forall; intros c _; apply traverse_along
      | reflexivity | apply passes_none | exact Hout ].
  destruct Hloop as (items' & -> & Halong).
  cbn in Hrun. injection Hrun as _ <-.
  exists items'. split; [reflexivity | exact Halong].
Qed.

End Along.

(* ------------------------------------------------------------------ *)
(** *** What a mutation leaves of the caller's state

    Under a pure key function and with the new node given as a value the
    mutation calls nothing that could change what the caller holds. *)

Section ValueState.

Variable St : Type.
Variable key : Node -> Z -> Key.
Variable path : list Key.
Variable v : Produced Fields.
Variable ignoreCollapsed : bool.

#[local] Abbreviation traverse :=
  (changeNodeAtPath_traverse (@pureKey Fields St key) path (NewValue v)
     ignoreCollapsed).
#[local] Abbreviation skip :=
  (nextIndexAfter (@pureKey Fields St key) ignoreCollapsed).




End ValueState.


Lemma changeNodeAtPath_returns_on_match (St : Type) (key : Node -> Z -> Key)
  (newNode : NewNode Fields St) ic (t : Tree) path s s' result :
  path <> [] ->
  changeNodeAtPath noFields (pureKey key) path newNode ic t s = (s', Ok result) ->
  pathMatches key ic t path.
Proof.
  intros Hpath Hrun. unfold changeNodeAtPath, bind in Hrun.
  rewrite traverse_step in Hrun.
  replace (-1 >=? Z.of_nat (length path) - 1) with false in Hrun
    by (symmetry; rewrite Z.geb_leb; apply Z.leb_gt;
        destruct path; [congruence | cbn [length]; lia]).
  cbn [noChildren children] in Hrun.
  destruct (traverseChildren _ _ _ t t 0 (-1 + 1) s) as [s1 [out|e]] eqn:Hloop;
    [|discriminate].
  assert (Hout : out <> PMiss) by (intros ->; discriminate).
  apply (@traverseChildren_leads St key path newNode ic (-1 + 1)) in Hloop.
  - exact Hloop.
  - apply Forall_forall. intros c _. apply traverse_leads.
  - exact Hout.
Qed.


(** C10, amended (sentinel collision): when the path addresses a node of
    the tree, the keys of siblings being distinct along it and the
    siblings passed over being skippable, and the producer returns the text
    'RESULT_MISS' for that node, [changeNodeAtPath] installs nothing and
    raises 'No node found at the given path.'. *)
Theorem sentinel_result_is_a_miss :
  forall (St : Type) (key : Node -> Z -> Key) (newNode : NewNode Fields St)
         (ignoreCollapsed : bool) (treeData : Tree) (path : list Key)
         (n : Node) (i : Z) (s s1 : St),
    Addresses key ignoreCollapsed treeData 0 path n i ->
    produce newNode n i s = (s1, PMiss) ->
    changeNodeAtPath noFields (pureKey key) path newNode ignoreCollapsed
      treeData s = (s1, Throw NoNodeFound).
Proof.
  intros St key newNode ic t path n i s s1 Haddr Hmiss.
  pose proof (changeNodeAtPath_addressed newNode [] s Haddr) as [Hst Hout].
  cbv zeta in Hst, Hout.
  rewrite (traverse_at_target newNode [] s Haddr) in Hst, Hout.
  rewrite Hmiss in Hst, Hout. cbn [fst snd] in Hst, Hout.
  rewrite app_nil_r in Hst, Hout.
  destruct (changeNodeAtPath _ _ _ _ _ _ s) as [s2 out].
  cbn [fst snd] in Hst, Hout. congruence.
Qed.

(* ------------------------------------------------------------------ *)
(** *** From a visible index to a path and back *)

Section RoundTrip.

Variable key : Node -> Z -> Key.

Lemma skipEnd_seekable (c : Node) idx :
  seekable c = true -> 0 <= idx ->
  skipEnd key true c idx = Ok (idx + getVisibleNodeCount_traverse c).
Proof.
  intros Hs Hidx. unfold skipEnd, nextIndexAfter, bind, pureKey.
  rewrite getNodeData_rows by exact Hs. unfold seeked.
  rewrite (@sought_before unit _ _ idx)
    by (try apply rowsOfNode_indexed; lia).
  cbn [snd]. unfold ret. cbn [snd].
  rewrite (count_rowsOfNode key c idx [] []). reflexivity.
Qed.

Lemma noneHasKey_of_notIn k (rest : Tree) :
  forallb (@seekable Fields) rest = true ->
  forall idx, 0 <= idx ->
    ~ In k (siblingKeys key rest idx) ->
    NoneHasKey key true k rest idx.
Proof.
  induction rest as [|c rest IH]; intros Hs idx Hidx Hnot; [constructor|].
  cbn [forallb] in Hs. apply andb_true_iff in Hs. destruct Hs as [Hc Hrest].
  cbn [siblingKeys] in Hnot.
  econstructor.
  - intros Heq. apply Hnot. left. exact Heq.
  - apply skipEnd_seekable; assumption.
  - apply IH; [exact Hrest | |].
    + pose proof (getVisibleNodeCount_traverse_pos c). lia.
    + intros Hin. apply Hnot. right. exact Hin.
Qed.

Lemma addresses_head_in k ks (n : Node) i (rest : Tree) idx :
  Addresses key true rest idx (k :: ks) n i ->
  forallb (@seekable Fields) rest = true -> 0 <= idx ->
  In k (siblingKeys key rest idx).
Proof.
  intros H. remember (k :: ks) as q eqn:Hq. revert k ks Hq.
  induction H as [c rest idx idx' k0 Hk _ _
                 |c rest idx idx' k0 k' ks0 items n i Hk _ _ _ _ _
                 |c rest idx idx' k0 ks0 n i Hk Hskip _ IH];
    intros k ks Hq Hs Hidx; injection Hq as <- <-.
  - left. exact Hk.
  - left. exact Hk.
  - cbn [forallb] in Hs. apply andb_true_iff in Hs. destruct Hs as [Hc Hrest].
    rewrite skipEnd_seekable in Hskip by assumption. injection Hskip as <-.
    right. eapply IH; [reflexivity | exact Hrest |].
    pose proof (getVisibleNodeCount_traverse_pos c). lia.
Qed.

Lemma rowsOfChildren_addressed (l : Tree) :
  Forall (fun c => seekable c = true -> forall idx, 0 <= idx ->
            uniqueBelow key c idx ->
            forall pre lsc r, In r (rowsOfNode key true c idx pre lsc) ->
              rowAddressed key c idx pre r) l ->
  forallb (@seekable Fields) l = true ->
  forall idx, 0 <= idx ->
    NoDup (siblingKeys key l idx) ->
    uniqueAmong (uniqueBelow key) l idx ->
    forall cc i0 pre lsc r,
      In r (rowsOfChildren
              (fun c i below => rowsOfNode key true c i pre (lsc ++ [below]))
              cc l i0 idx) ->
      exists k ks,
        w_path r = pre ++ k :: ks
        /\ Addresses key true l idx (k :: ks) (w_node r) (w_treeIndex r).
Proof.
  induction 1 as [|c rest Hc _ IH];
    intros Hs idx Hidx Hdup Huniq cc i0 pre lsc r Hin; [destruct Hin|].
  cbn [forallb] in Hs. apply andb_true_iff in Hs. destruct Hs as [Hsc Hsrest].
  cbn [siblingKeys] in Hdup. inversion Hdup as [|? ? Hnotin Hduprest]; subst.
  cbn [uniqueAmong] in Huniq. destruct Huniq as [Huc Hurest].
  assert (Hnext : 0 <= idx + getVisibleNodeCount_traverse c)
    by (pose proof (getVisibleNodeCount_traverse_pos c); lia).
  assert (Hskip := @skipEnd_seekable c idx Hsc Hidx).
  assert (Hnone := @noneHasKey_of_notIn _ rest Hsrest _ Hnext Hnotin).
  cbn [rowsOfChildren] in Hin. apply in_app_or in Hin.
  destruct Hin as [Hin|Hin].
  - destruct (Hc Hsc idx Hidx Huc pre _ r Hin)
      as [(Hp & Hn & Hi)|(items & k' & ks & Hch & Hp & Haddr)].
    + exists (key c idx), []. split; [exact Hp|]. rewrite Hn, Hi.
      eapply addr_here; [reflexivity | exact Hskip | exact Hnone].
    + exists (key c idx), (k' :: ks). split; [exact Hp|].
      eapply addr_below;
        [reflexivity | exact Hch | exact Haddr | exact Hskip | exact Hnone].
  - rewrite <- (count_rowsOfNode key c idx pre (lsc ++ [cc - i0 - 1])) in Hin.
    destruct (IH Hsrest _ Hnext Hduprest Hurest cc (i0 + 1) pre lsc r Hin)
      as (k & ks & Hp & Haddr).
    exists k, ks. split; [exact Hp|].
    eapply addr_later; [|exact Hskip | exact Haddr].
    intros Heq. apply Hnotin. rewrite Heq.
    eapply addresses_head_in; eassumption.
Qed.

Lemma rowsOfNode_addressed (c : Node) :
  seekable c = true -> forall idx, 0 <= idx ->
    uniqueBelow key c idx ->
    forall pre lsc r, In r (rowsOfNode key true c idx pre lsc) ->
      rowAddressed key c idx pre r.
Proof.
  induction c as [f e|f e items IH|f e a] using Node_induction;
    intros Hs idx Hidx Hu pre lsc r Hin; cbn [rowsOfNode] in Hin;
    (destruct Hin as [<-|Hin]; [left; repeat split|]).
  - destruct (_ || _); destruct Hin.
  - right. unfold seekable in Hs; fold (@seekable Fields) in Hs.
    unfold uniqueBelow in Hu; fold (uniqueBelow key) in Hu.
    unfold noChildren, notExpanded in Hs, Hu, Hin.
    cbn [children expanded orb] in Hs, Hu, Hin.
    destruct e as [[|]|]; cbn [andb] in Hin; try (destruct Hin; fail).
    destruct Hu as [Hdup Huniq].
    destruct (@rowsOfChildren_addressed items IH Hs (idx + 1) ltac:(lia)
                Hdup Huniq _ _ _ _ _ Hin) as (k & ks & Hp & Haddr).
    exists items, k, ks. split; [reflexivity|]. split; [|exact Haddr].
    rewrite Hp, <- app_assoc. reflexivity.
  - destruct (_ || _); destruct Hin.
Qed.

Lemma rowsOfTree_addressed (t : Tree) r :
  treeSeekable t = true ->
  keysUniqueAmongSiblings key t ->
  In r (rowsOfTree key true t) ->
  Addresses key true t 0 (w_path r) (w_node r) (w_treeIndex r).
Proof.
  intros Hs [Hdup Huniq] Hin. unfold rowsOfTree in Hin.
  destruct (@rowsOfChildren_addressed t) with (idx := 0)
    (cc := Z.of_nat (length t)) (i0 := 0) (pre := @nil Key) (lsc := @nil Z)
    (r := r) as (k & ks & Hp & Haddr); try assumption; try lia.
  - apply Forall_forall. intros c _. apply rowsOfNode_addressed.
  - rewrite Hp. exact Haddr.
Qed.

End RoundTrip.

(** X13 (round trip): on a tree the index-seeking traversal can cross,
    with keys unique among visible siblings: the path index resolution
    returns for a visible index [i], handed to [changeNodeAtPath], makes
    the producer run exactly once, on the node index resolution returned
    and with [treeIndex] equal to [i]. *)
Lemma round_trip_on_seekable_trees :
  forall (key : Node -> Z -> Key) (make : Node -> Z -> Produced Fields)
         (t : Tree) (i : Z),
    treeSeekable t = true ->
    keysUniqueAmongSiblings key t ->
    0 <= i < getVisibleNodeCount t ->
    exists r,
      getVisibleNodeInfoAtIndex noFields (pureKey key) t i tt = (tt, Ok (Some r))
      /\ fst (changeNodeAtPath noFields (pureKey key) (path r)
                (recordingProducer make) true t [])
         = [ProducerCalled (node r) i].
Proof.
  intros key make t i Hs Hu Hi.
  destruct (flatten_agrees_with_resolve_on_seekable_trees key
              (fun _ _ (s : unit) => s) t tt Hs Hi)
    as (r & s1 & _ & _ & Hres & _ & _).
  fold (@pureKey Fields unit key) in Hres. destruct s1.
  exists r. split; [exact Hres|].
  apply getVisibleNodeInfoAtIndex_found in Hres; [|lia].
  destruct Hres as (row & Hin & <- & Hidx).
  pose proof (@rowsOfTree_addressed key t row Hs Hu Hin) as Haddr.
  pose proof (@changeNodeAtPath_addressed (list (Event Fields)) key
                (recordingProducer make) true (w_path row) [] _ _ t []
                Haddr) as [Hst _].
  cbv zeta in Hst.
  rewrite (@traverse_at_target _ key (recordingProducer make) true _ [] _ _ _ _
             [] Haddr) in Hst.
  rewrite app_nil_r in Hst. cbn [toInfo path node].
  rewrite Hst. cbn. rewrite Hidx. reflexivity.
Qed.

(* ------------------------------------------------------------------ *)
(** *** The mutation never loses its running index

    [nextIndexAfter] reads [.nextIndex] of what the index-seeking traversal
    returns for target -1.  From [changeNodeAtPath] that traversal only
    starts at non-negative indices, so it cannot find its target: the
    fault [IndexLost] does not arise. *)

Section IndexKept.

Variable St : Type.
Variable getNodeKey : Node -> Z -> St -> St * Key.

Lemma seekChildren_onward target cc path lsc rest :
  Forall (fun c => forall idx path lsc ic s s' res,
            getNodeDataAtTreeIndexOrNextIndex getNodeKey c idx target path lsc
              ic false s = (s', Ok res) ->
            match res with
            | Found _ => idx <= target
            | NextIndex m => idx < m
            end) rest ->
  forall i childIndex s s' res,
    seekChildren
      (fun child childIndex below =>
         getNodeDataAtTreeIndexOrNextIndex getNodeKey child childIndex target
           path (lsc ++ [below]) true false) cc rest i childIndex s
    = (s', Ok res) ->
    match res with
    | Found _ => childIndex <= target
    | NextIndex m => childIndex <= m
    end.
Proof.
  induction 1 as [|c rest Hc _ IH]; intros i childIndex s s' res Hrun.
  - cbn in Hrun. injection Hrun as _ <-. lia.
  - cbn [seekChildren] in Hrun. unfold bind at 1 in Hrun.
    destruct (getNodeDataAtTreeIndexOrNextIndex _ c childIndex target path
                (lsc ++ [cc - i - 1]) true false s) as [s1 [res1|e1]] eqn:Hfirst;
      [|discriminate].
    apply Hc in Hfirst. destruct res1 as [r1|n1].
    + injection Hrun as _ <-. exact Hfirst.
    + apply IH in Hrun. destruct res; lia.
Qed.

Lemma getNodeData_onward target (n : Node) :
  forall idx path lsc ic s s' res,
    getNodeDataAtTreeIndexOrNextIndex getNodeKey n idx target path lsc ic
      false s = (s', Ok res) ->
    match res with
    | Found _ => idx <= target
    | NextIndex m => idx < m
    end.
Proof.
  induction n as [f e|f e items IH|f e a] using Node_induction;
    intros idx path lsc ic s s' res Hrun; rewrite getNodeData_step in Hrun;
    destruct (getNodeKey _ idx s) as [s1 k];
    (destruct (idx =? target) eqn:Hidx;
     [injection Hrun as _ <-; apply Z.eqb_eq in Hidx; lia|]);
    (destruct (_ || _); [injection Hrun as _ <-; lia|]);
    cbn [children] in Hrun.
  - injection Hrun as _ <-. lia.
  - apply (@seekChildren_onward target _ _ _ items IH) in Hrun.
    destruct res; lia.
  - destruct a; [|discriminate]. injection Hrun as _ <-. lia.
Qed.

Lemma seekChildren_faults target cc path lsc rest :
  Forall (fun c => forall idx path lsc ic s s' e,
            getNodeDataAtTreeIndexOrNextIndex getNodeKey c idx target path lsc
              ic false s = (s', Throw e) -> e = UndefinedChild) rest ->
  forall i childIndex s s' e,
    seekChildren
      (fun child childIndex below =>
         getNodeDataAtTreeIndexOrNextIndex getNodeKey child childIndex target
           path (lsc ++ [below]) true false) cc rest i childIndex s
    = (s', Throw e) ->
    e = UndefinedChild.
Proof.
  induction 1 as [|c rest Hc _ IH]; intros i childIndex s s' e Hrun.
  - discriminate.
  - cbn [seekChildren] in Hrun. unfold bind at 1 in Hrun.
    destruct (getNodeDataAtTreeIndexOrNextIndex _ c childIndex target path
                (lsc ++ [cc - i - 1]) true false s) as [s1 [res1|e1]] eqn:Hfirst.
    + destruct res1; [discriminate | eapply IH; exact Hrun].
    + injection Hrun as _ <-. eapply Hc. exact Hfirst.
Qed.

Lemma getNodeData_faults target (n : Node) :
  forall idx path lsc ic s s' e,
    getNodeDataAtTreeIndexOrNextIndex getNodeKey n idx target path lsc ic
      false s = (s', Throw e) ->
    e = UndefinedChild.
Proof.
  induction n as [f e0|f e0 items IH|f e0 a] using Node_induction;
    intros idx path lsc ic s s' e Hrun; rewrite getNodeData_step in Hrun;
    destruct (getNodeKey _ idx s) as [s1 k];
    (destruct (idx =? target); [discriminate|]);
    (destruct (_ || _); [discriminate|]);
    cbn [children] in Hrun.
  - discriminate.
  - eapply (@seekChildren_faults target _ _ _ items IH). exact Hrun.
  - destruct a; [discriminate|]. congruence.
Qed.

Lemma nextIndexAfter_onward ic (c : Node) idx s s' out :
  0 <= idx ->
  nextIndexAfter getNodeKey ic c idx s = (s', out) ->
  out <> Throw IndexLost /\ forall m, out = Ok m -> idx < m.
Proof.
  intros Hidx Hrun. unfold nextIndexAfter, bind in Hrun.
  destruct (getNodeDataAtTreeIndexOrNextIndex _ c idx (-1) [] [] ic false s)
    as [s1 [res|e]] eqn:Hseek.
  - apply getNodeData_onward in Hseek. destruct res as [r|m].
    + lia.
    + injection Hrun as _ <-. split; [discriminate|].
      intros m' Hm. injection Hm as <-. exact Hseek.
  - injection Hrun as _ <-. apply getNodeData_faults in Hseek. subst e.
    split; discriminate.
Qed.

Section Traverse.

Variable path : list Key.
Variable newNode : NewNode Fields St.
Variable ignoreCollapsed : bool.

#[local] Abbreviation traverse :=
  (changeNodeAtPath_traverse getNodeKey path newNode ignoreCollapsed).

Lemma traverseChildren_keeps_index (q : Z) rest :
  Forall (fun c => forall idx s,
            0 <= idx -> snd (traverse false c idx q s) <> Throw IndexLost)
         rest ->
  forall node all i0 idx s,
    0 <= idx ->
    snd (traverseChildren (fun c j => traverse false c j q)
           (nextIndexAfter getNodeKey ignoreCollapsed) node all rest i0 idx s)
    <> Throw IndexLost.
Proof.
  induction 1 as [|c rest Hc _ IH]; intros node all i0 idx s Hidx.
  - discriminate.
  - cbn [traverseChildren]. unfold bind at 1.
    specialize (Hc idx s Hidx).
    destruct (traverse false c idx q s) as [s1 [v|e]]; [|exact Hc].
    destruct v as [r| | |]; try discriminate.
    unfold bind at 1.
    destruct (nextIndexAfter getNodeKey ignoreCollapsed c idx s1)
      as [s2 out] eqn:Hskip.
    apply nextIndexAfter_onward in Hskip; [|exact Hidx].
    destruct Hskip as [Hkept Hnext]. destruct out as [next|e].
    + apply IH. specialize (Hnext next eq_refl). lia.
    + cbn [snd]. intros Heq. apply Hkept. injection Heq as ->. reflexivity.
Qed.

Lemma traverse_keeps_index (n : Node) :
  forall isPseudoRoot idx q s,
    -1 <= idx ->
    snd (traverse isPseudoRoot n idx q s) <> Throw IndexLost.
Proof.
  induction n as [f e|f e items IH|f e a] using Node_induction;
    intros pr idx q s Hidx; rewrite traverse_step;
    destruct (if pr then _ else _) as [s1 miss];
    (destruct miss; [discriminate|]);
    (destruct (q >=? _);
     [destruct newNode as [v|g]; [discriminate|];
      destruct (g _ idx s1); discriminate|]);
    cbn [noChildren children].
  - discriminate.
  - apply traverseChildren_keeps_index; [|lia].
    eapply Forall_impl; [|exact IH]. intros c Hc cidx cs Hcidx.
    apply Hc. lia.
  - destruct a; discriminate.
Qed.

(** [changeNodeAtPath] never ends in [IndexLost]. *)
Lemma changeNodeAtPath_keeps_index (treeData : Tree) s :
  snd (changeNodeAtPath noFields getNodeKey path newNode ignoreCollapsed
         treeData s) <> Throw IndexLost.
Proof.
  unfold changeNodeAtPath, bind.
  pose proof (traverse_keeps_index (MkNode noFields None (Items treeData))
                true (-1) s (idx := -1) ltac:(lia)) as Hkept.
  destruct (changeNodeAtPath_traverse _ _ _ _ true _ (-1) (-1) s)
    as [s1 [out|e]].
  - destruct out; discriminate.
  - cbn [snd] in *. intros Heq. apply Hkept. injection Heq as ->. reflexivity.
Qed.

End Traverse.

End IndexKept.

(* ------------------------------------------------------------------ *)
(** *** The order and the numbering of a walk *)

Section WalkOrder.

Variable key : Node -> Z -> Key.

Lemma indexedFrom_positions (rows : list WalkInfo) :
  forall start,
    indexedFrom start rows ->
    map (@w_treeIndex Fields) rows
    = map (fun j => start + Z.of_nat j) (seq 0 (length rows)).
Proof.
  induction rows as [|r rows IH]; intros start Hidx; [reflexivity|].
  destruct Hidx as [Hr Hrest]. cbn [map length seq]. f_equal; [lia|].
  rewrite <- seq_shift, map_map, (IH _ Hrest).
  apply map_ext. intros j. lia.
Qed.

Lemma indexedFrom_In (rows : list WalkInfo) :
  forall start r,
    indexedFrom start rows -> In r rows -> start <= w_treeIndex r.
Proof.
  induction rows as [|x rows IH]; intros start r Hidx Hin; [destruct Hin|].
  destruct Hidx as [Hx Hrest]. destruct Hin as [<-|Hin]; [lia|].
  specialize (IH _ _ Hrest Hin). lia.
Qed.

(** X1 (numbering): the callback is shown the linear indices 0, 1, 2, ...
    in this order, whether collapsed nodes are entered or not. *)
Theorem walk_numbers_records_in_order :
  forall (ignoreCollapsed : bool) (t : Tree),
    map (@w_treeIndex Fields) (walkOrder noFields key ignoreCollapsed t)
    = map Z.of_nat (seq 0 (length (walkOrder noFields key ignoreCollapsed t))).
Proof.
  intros ic t. rewrite walkOrder_rows.
  rewrite (indexedFrom_positions _ 0 (rowsOfTree_indexed key ic t)).
  apply map_ext. intros j. lia.
Qed.

Lemma rowsOfChildren_nodes (visit : Node -> Z -> Z -> list WalkInfo) cc rest :
  Forall (fun c => forall idx below,
            map (@w_node Fields) (visit c idx below) = nodesOf c) rest ->
  forall i idx,
    map (@w_node Fields) (rowsOfChildren visit cc rest i idx)
    = flat_map (@nodesOf Fields) rest.
Proof.
  induction 1 as [|c rest Hc _ IH]; intros i idx; [reflexivity|].
  cbn [rowsOfChildren flat_map]. rewrite map_app, Hc, IH. reflexivity.
Qed.

Lemma rowsOfNode_nodes (n : Node) :
  forall idx path lsc,
    map (@w_node Fields) (rowsOfNode key false n idx path lsc) = nodesOf n.
Proof.
  induction n as [f e|f e items IH|f e a] using Node_induction;
    intros idx path lsc; cbn [rowsOfNode nodesOf map w_node children];
    rewrite andb_false_r, orb_false_r; cbn [noChildren children];
    [reflexivity| |reflexivity].
  f_equal. apply rowsOfChildren_nodes.
  eapply Forall_impl; [|exact IH]. intros c Hc j below. apply Hc.
Qed.

Lemma rowsOfTree_nodes (t : Tree) :
  map (@w_node Fields) (rowsOfTree key false t) = treeNodes t.
Proof.
  unfold rowsOfTree, treeNodes. apply rowsOfChildren_nodes.
  apply Forall_forall. intros c _ j below. apply rowsOfNode_nodes.
Qed.

(** X2 (full walk): with [ignoreCollapsed: false] the callback is shown
    every node of the tree once, parents before children and siblings in
    array order; function-valued children are not entered. *)
Theorem walk_uncollapsed_visits_every_node :
  forall (t : Tree),
    map (@w_node Fields) (walkOrder noFields key false t) = treeNodes t.
Proof.
  intros t. rewrite walkOrder_rows. apply rowsOfTree_nodes.
Qed.

End WalkOrder.

(* ------------------------------------------------------------------ *)
(** *** What a walk that is never stopped returns *)

Section WalkResult.

Variable St : Type.
Variable getNodeKey : Node -> Z -> St -> St * Key.
Variable effect : WalkInfo -> St -> St.

(** A callback that never returns [false]. *)
#[local] Abbreviation goingOn :=
  (fun (info : WalkInfo) (s : St) => (effect info s, true)).

Lemma length_treeNodes_cons (n : Node) (t : Tree) :
  Z.of_nat (length (treeNodes (n :: t)))
  = Z.of_nat (length (nodesOf n)) + Z.of_nat (length (treeNodes t)).
Proof. unfold treeNodes. cbn [flat_map]. rewrite length_app. lia. Qed.

Lemma length_nodesOf (n : Node) :
  Z.of_nat (length (nodesOf n))
  = match children n with
    | Items items => 1 + Z.of_nat (length (treeNodes items))
    | _ => 1
    end.
Proof.
  destruct n as [f e [|items|a]]; cbn [nodesOf children length];
    try reflexivity.
  unfold treeNodes. lia.
Qed.

(** The number of records a walk makes of a subtree. *)
#[local] Abbreviation reach :=
  (fun (ic : bool) (n : Node) =>
     if ic then getVisibleNodeCount_traverse n
     else Z.of_nat (length (nodesOf n))).
#[local] Abbreviation reachAll :=
  (fun (ic : bool) (t : Tree) =>
     if ic then getVisibleNodeCount t else Z.of_nat (length (treeNodes t))).

Lemma reachAll_cons ic (n : Node) (t : Tree) :
  reachAll ic (n :: t) = reach ic n + reachAll ic t.
Proof.
  destruct ic; [apply getVisibleNodeCount_cons | apply length_treeNodes_cons].
Qed.

Lemma walkChildren_last ic cc path lsc rest :
  Forall (fun c => forall idx path lsc s,
            exists s',
              walkDescendants getNodeKey goingOn ic false c idx path lsc s
              = (s', Ok (LastIndex (idx + reach ic c - 1)))) rest ->
  forall i childIndex s,
  exists s',
    walkChildren
      (fun child childIndex below =>
         walkDescendants getNodeKey goingOn ic false child childIndex path
           (lsc ++ [below])) cc rest i childIndex s
    = (s', Ok (LastIndex (childIndex + reachAll ic rest))).
Proof.
  induction 1 as [|c rest Hc _ IH]; intros i childIndex s.
  - exists s. cbn [walkChildren]. unfold ret.
    destruct ic; cbn; same_index.
  - cbn [walkChildren]. unfold bind at 1.
    destruct (Hc (childIndex + 1) path (lsc ++ [cc - i - 1]) s) as [s1 ->].
    destruct (IH (i + 1) (childIndex + 1 + reach ic c - 1) s1) as [s2 ->].
    exists s2. rewrite reachAll_cons. same_index.
Qed.

Lemma walkDescendants_last ic (n : Node) :
  forall idx path lsc s,
  exists s',
    walkDescendants getNodeKey goingOn ic false n idx path lsc s
    = (s', Ok (LastIndex (idx + reach ic n - 1))).
Proof.
  induction n as [f e|f e items IH|f e a] using Node_induction;
    intros idx path lsc s; rewrite walkDescendants_step;
    destruct (getNodeKey _ idx s) as [s1 k]; cbn [negb].
  - exists (effect (MkWalkInfo (MkNode f e Absent) (path ++ [k]) lsc idx) s1).
    cbn [noChildren children orb].
    destruct ic; cbn; same_index.
  - cbn [noChildren children orb].
    destruct (notExpanded (MkNode f e (Items items)) && ic) eqn:Hhidden.
    + eexists. apply andb_true_iff in Hhidden. destruct Hhidden as [Hne ->].
      rewrite getVisibleNodeCount_traverse_collapsed by exact Hne.
      same_index.
    + destruct (@walkChildren_last ic (Z.of_nat (length items)) (path ++ [k])
                  lsc items IH 0 idx
                  (effect (MkWalkInfo (MkNode f e (Items items)) (path ++ [k])
                             lsc idx) s1)) as [s2 Hrun].
      exists s2. rewrite Hrun. destruct ic.
      * rewrite andb_true_r in Hhidden.
        rewrite getVisibleNodeCount_traverse_eq.
        unfold noChildren, childrenIsFunction. cbn [children orb].
        rewrite Hhidden. cbn [orb]. same_index.
      * rewrite length_nodesOf. cbn [children]. same_index.
  - eexists. cbn [noChildren children orb].
    replace (reach ic (MkNode f e (Lazy a))) with 1.
    + destruct (_ && _); same_index.
    + destruct ic; [|reflexivity].
      rewrite getVisibleNodeCount_traverse_eq.
      unfold childrenIsFunction. cbn [children].
      rewrite orb_true_r. reflexivity.
Qed.

(** X5 (result of a walk): a walk whose callback never returns [false]
    does not fail, whatever the key function does, and returns the index
    of the last record it made: the visible count less one when collapsed
    nodes are not entered, the number of nodes less one when they are;
    [undefined] on the empty tree. *)
Theorem walk_returns_the_last_index :
  forall (ignoreCollapsed : bool) (t : Tree) (s : St),
  exists s',
    walk noFields getNodeKey goingOn t ignoreCollapsed s
    = (s', Ok (match t with
               | [] => None
               | _ :: _ =>
                   Some (LastIndex
                           ((if ignoreCollapsed then getVisibleNodeCount t
                             else Z.of_nat (length (treeNodes t))) - 1))
               end)).
Proof.
  intros ic [|c t] s; [exists s; reflexivity|].
  unfold walk. cbn [length]. 
  replace (Z.of_nat (S (length t)) <? 1) with false
    by (symmetry; apply Z.ltb_ge; lia).
  unfold bind. cbn [walkDescendants negb]. unfold bind, ret.
  cbn [negb noChildren children orb andb].
  rewrite andb_false_r. cbn [children].
  destruct (@walkChildren_last ic (Z.of_nat (length (c :: t))) [] []
              (c :: t)
              ltac:(apply Forall_forall; intros x _; apply walkDescendants_last)
              0 (-1) s) as [s' Hrun].
  exists s'. rewrite Hrun. do 4 f_equal. lia.
Qed.

End WalkResult.

(* ------------------------------------------------------------------ *)
(** *** The visible count between the roots and the nodes *)

Section CountBounds.

Lemma getVisibleNodeCount_traverse_le (n : Node) :
  getVisibleNodeCount_traverse n <= Z.of_nat (length (nodesOf n)).
Proof.
  induction n as [f e|f e items IH|f e a] using Node_induction;
    rewrite getVisibleNodeCount_traverse_eq, length_nodesOf; cbn [children];
    [destruct (_ || _); lia | | destruct (_ || _); lia].
  assert (Hitems : getVisibleNodeCount items
                   <= Z.of_nat (length (treeNodes items))).
  { induction IH as [|c rest Hc _ IHrest].
    - cbn. lia.
    - rewrite getVisibleNodeCount_cons, length_treeNodes_cons. lia. }
  destruct (_ || _); lia.
Qed.

Lemma getVisibleNodeCount_roots (t : Tree) :
  Z.of_nat (length t) <= getVisibleNodeCount t.
Proof.
  induction t as [|c t IH]; [cbn; lia|].
  rewrite getVisibleNodeCount_cons.
  pose proof (getVisibleNodeCount_traverse_pos c). cbn [length]. lia.
Qed.

(** X6 (bounds of the count): every root is counted, and no more than the
    nodes there are: the visible count lies between the length of the tree
    data and the number of nodes of the tree. *)
Theorem visible_count_bounds :
  forall (t : Tree),
    Z.of_nat (length t) <= getVisibleNodeCount t
    /\ getVisibleNodeCount t <= Z.of_nat (length (treeNodes t)).
Proof.
  intros t. split; [apply getVisibleNodeCount_roots|].
  induction t as [|c t IH]; [cbn; lia|].
  rewrite getVisibleNodeCount_cons, length_treeNodes_cons.
  pose proof (getVisibleNodeCount_traverse_le c). lia.
Qed.

Lemma rowsOfChildren_ext (visit visit' : Node -> Z -> Z -> list WalkInfo)
  cc rest :
  Forall (fun c => forall idx below, visit c idx below = visit' c idx below)
         rest ->
  forall i idx,
    rowsOfChildren visit cc rest i idx = rowsOfChildren visit' cc rest i idx.
Proof.
  induction 1 as [|c rest Hc _ IH]; intros i idx; [reflexivity|].
  cbn [rowsOfChildren]. rewrite Hc, IH. reflexivity.
Qed.

Lemma rowsOfNode_allExpanded (key : Node -> Z -> Key) (n : Node) :
  allExpanded n = true ->
  forall idx path lsc,
    rowsOfNode key true n idx path lsc = rowsOfNode key false n idx path lsc.
Proof.
  induction n as [f e|f e items IH|f e a] using Node_induction;
    intros Hall idx path lsc; cbn [rowsOfNode]; f_equal;
    cbn [noChildren children orb]; rewrite andb_false_r.
  - cbn [allExpanded children] in Hall. apply andb_true_iff in Hall.
    destruct Hall as [Hexp Hitems]. apply negb_true_iff in Hexp.
    rewrite Hexp. cbn [andb]. apply rowsOfChildren_ext.
    rewrite forallb_forall in Hitems. rewrite Forall_forall in IH |- *.
    intros c Hc j below. apply IH; [exact Hc | apply Hitems; exact Hc].
  - destruct (_ && _); reflexivity.
Qed.

(** X7 (fully expanded tree): on a tree whose every parent is expanded,
    [ignoreCollapsed] makes no difference to a walk, and the visible count
    is the number of nodes. *)
Theorem expanded_tree_is_all_visible :
  forall (key : Node -> Z -> Key) (t : Tree),
    forallb (@allExpanded Fields) t = true ->
    walkOrder noFields key true t = walkOrder noFields key false t
    /\ getVisibleNodeCount t = Z.of_nat (length (treeNodes t)).
Proof.
  intros key t Hall.
  assert (Hrows : rowsOfTree key true t = rowsOfTree key false t).
  { unfold rowsOfTree. apply rowsOfChildren_ext.
    rewrite forallb_forall in Hall. apply Forall_forall.
    intros c Hc j below. apply rowsOfNode_allExpanded. apply Hall. exact Hc. }
  split.
  - rewrite !walkOrder_rows. exact Hrows.
  - rewrite (getVisibleNodeCount_rows key), Hrows.
    rewrite <- (rowsOfTree_nodes key t), length_map. reflexivity.
Qed.

Lemma tickAll_pure (St : Type) (rows : list WalkInfo) (s : St) :
  tickAll (fun _ _ s => s) rows s = s.
Proof. induction rows as [|r rows IH]; [reflexivity | exact IH]. Qed.

(** X8 (flattened array): the array [getVisibleNodeInfoFlattened] returns
    has no hole: its entries are the records a walk with [ignoreCollapsed:
    true] shows to its callback, in the same order, without their
    [treeIndex]. *)
Theorem flattened_is_the_walk_order :
  forall (St : Type) (key : Node -> Z -> Key) (t : Tree) (s : St),
    getVisibleNodeInfoFlattened noFields (pureKey key) t s
    = (s, Ok (map (fun r => Some (toInfo r))
                (walkOrder noFields key true t))).
Proof.
  intros St key t s. unfold pureKey.
  rewrite getVisibleNodeInfoFlattened_rows, tickAll_pure, walkOrder_rows.
  reflexivity.
Qed.

End CountBounds.

(* ------------------------------------------------------------------ *)
(** *** Where the records of a walk stand in the tree *)

Section RecordStructure.

Variable key : Node -> Z -> Key.
Variable ignoreCollapsed : bool.

Lemma childRow_mono (rows rows' : list WalkInfo) r :
  (forall p, In p rows -> In p rows') ->
  childRow key ignoreCollapsed rows r -> childRow key ignoreCollapsed rows' r.
Proof.
  intros Hsub (p & items & Hin & H). exists p, items.
  split; [apply Hsub; exact Hin | exact H].
Qed.

Lemma rowsOfChildren_placed path lsc (all rest : Tree) :
  Forall (fun c => forall idx path lsc r,
            In r (rowsOfNode key ignoreCollapsed c idx path lsc) ->
            r = MkWalkInfo c (path ++ [key c idx]) lsc idx
            \/ childRow key ignoreCollapsed
                 (rowsOfNode key ignoreCollapsed c idx path lsc) r) rest ->
  forall pre i idx r,
    all = pre ++ rest ->
    i = Z.of_nat (length pre) ->
    In r (rowsOfChildren
            (fun c j below =>
               rowsOfNode key ignoreCollapsed c j path (lsc ++ [below]))
            (Z.of_nat (length all)) rest i idx) ->
    memberRow key all path lsc r
    \/ childRow key ignoreCollapsed
         (rowsOfChildren
            (fun c j below =>
               rowsOfNode key ignoreCollapsed c j path (lsc ++ [below]))
            (Z.of_nat (length all)) rest i idx) r.
Proof.
  induction 1 as [|c rest Hc _ IH]; intros pre i idx r Hall Hi Hin;
    [destruct Hin|].
  cbn [rowsOfChildren] in Hin |- *. apply in_app_or in Hin.
  destruct Hin as [Hin|Hin].
  - destruct (Hc _ _ _ _ Hin) as [->|Hchild].
    + left. exists pre, rest. cbn [w_node w_path w_lowerSiblingCounts w_treeIndex].
      split; [exact Hall|]. split; [reflexivity|].
      do 2 f_equal. rewrite Hall, Hi, length_app. cbn [length]. lia.
    + right. eapply childRow_mono; [|exact Hchild].
      intros p Hp. apply in_or_app. left. exact Hp.
  - assert (Hall' : all = (pre ++ [c]) ++ rest)
      by (rewrite Hall, <- app_assoc; reflexivity).
    assert (Hi' : i + 1 = Z.of_nat (length (pre ++ [c])))
      by (rewrite Hi, length_app; cbn [length]; lia).
    destruct (IH _ _ _ r Hall' Hi' Hin) as [Hmember|Hchild].
    + left. exact Hmember.
    + right. eapply childRow_mono; [|exact Hchild].
      intros p Hp. apply in_or_app. right. exact Hp.
Qed.

Lemma rowsOfNode_placed (n : Node) :
  forall idx path lsc r,
    In r (rowsOfNode key ignoreCollapsed n idx path lsc) ->
    r = MkWalkInfo n (path ++ [key n idx]) lsc idx
    \/ childRow key ignoreCollapsed
         (rowsOfNode key ignoreCollapsed n idx path lsc) r.
Proof.
  induction n as [f e|f e items IH|f e a] using Node_induction;
    intros idx path lsc r Hin;
    match type of Hin with
    | In _ (rowsOfNode _ _ ?n _ _ _) =>
        pose proof (rowsOfNode_indexed key ignoreCollapsed n idx path lsc)
          as Hindexed
    end;
    cbn [rowsOfNode] in Hin, Hindexed |- *;
    (destruct Hin as [<-|Hin]; [left; reflexivity|]); right;
    cbn [noChildren children orb] in Hin, Hindexed |- *.
  - destruct Hin.
  - destruct (notExpanded (MkNode f e (Items items)) && ignoreCollapsed)
      eqn:Hhidden; [destruct Hin|].
    destruct Hindexed as [_ Hindexed]. cbn [indexedFrom] in Hindexed.
    pose proof (indexedFrom_In _ _ _ Hindexed Hin) as Hlater.
    destruct (@rowsOfChildren_placed
                (path ++ [key (MkNode f e (Items items)) idx]) lsc items
                items IH [] 0 (idx + 1) r eq_refl eq_refl Hin)
      as [Hmember|Hchild].
    + exists (MkWalkInfo (MkNode f e (Items items))
                (path ++ [key (MkNode f e (Items items)) idx]) lsc idx), items.
      cbn [w_node w_path w_lowerSiblingCounts w_treeIndex children expanded].
      split; [left; reflexivity|]. split; [lia|]. split; [reflexivity|].
      split; [|exact Hmember].
      intros ->. rewrite andb_true_r in Hhidden.
      unfold notExpanded in Hhidden. cbn [expanded] in Hhidden.
      destruct e as [[|]|]; [reflexivity | discriminate | discriminate].
    + eapply childRow_mono; [|exact Hchild].
      intros p Hp. right. exact Hp.
  - destruct (_ && _); destruct Hin.
Qed.

(** X3 (placement of records): every record of a walk is placed in the
    tree. Either its node is a root: its path is its own key and its only
    sibling count is the number of roots after it. Or its node is a child
    of the node of a record shown before it (an expanded one, when
    collapsed nodes are not entered): its path is the parent's path
    followed by its own key, and its sibling counts are the parent's
    followed by the number of children after it. *)
Theorem walk_records_follow_the_tree :
  forall (t : Tree) (r : WalkInfo),
    In r (walkOrder noFields key ignoreCollapsed t) ->
    memberRow key t [] [] r
    \/ childRow key ignoreCollapsed
         (walkOrder noFields key ignoreCollapsed t) r.
Proof.
  intros t r Hin. rewrite walkOrder_rows in Hin |- *. unfold rowsOfTree in *.
  apply (@rowsOfChildren_placed [] [] t t
           ltac:(apply Forall_forall; intros c _; apply rowsOfNode_placed)
           [] 0 0 r eq_refl eq_refl Hin).
Qed.

End RecordStructure.

(* ------------------------------------------------------------------ *)
(** *** Which nodes a walk shows *)

Section RecordsComplete.

Variable key : Node -> Z -> Key.
Variable ignoreCollapsed : bool.

(** The record of a walk for the member [c] of a sequence of siblings
    that has [post] after it, reached under [path] and [lsc]. *)
#[local] Abbreviation recordOf :=
  (fun (c : Node) (post : Tree) (path : list Key) (lsc : list Z)
       (rc : WalkInfo) =>
     w_node rc = c
     /\ w_path rc = path ++ [key c (w_treeIndex rc)]
     /\ w_lowerSiblingCounts rc = lsc ++ [Z.of_nat (length post)]).

Lemma rowsOfNode_self (n : Node) idx path lsc :
  In (MkWalkInfo n (path ++ [key n idx]) lsc idx)
     (rowsOfNode key ignoreCollapsed n idx path lsc).
Proof. destruct n as [f e ch]. left. reflexivity. Qed.

Lemma rowsOfChildren_complete path lsc (all : Tree) c post :
  forall front pre i idx,
    all = pre ++ front ++ c :: post ->
    i = Z.of_nat (length pre) ->
    exists rc,
      In rc (rowsOfChildren
               (fun x j below =>
                  rowsOfNode key ignoreCollapsed x j path (lsc ++ [below]))
               (Z.of_nat (length all)) (front ++ c :: post) i idx)
      /\ recordOf c post path lsc rc
      /\ idx <= w_treeIndex rc.
Proof.
  induction front as [|x front IH]; intros pre i idx Hall Hi;
    cbn [app rowsOfChildren].
  - eexists. split; [apply in_or_app; left; apply rowsOfNode_self|].
    cbn [w_node w_path w_lowerSiblingCounts w_treeIndex].
    split; [|lia]. split; [reflexivity|]. split; [reflexivity|].
    do 2 f_equal. rewrite Hall, Hi, length_app. cbn [app length]. lia.
  - destruct (IH (pre ++ [x]) (i + 1)
                (idx + Z.of_nat
                         (length (rowsOfNode key ignoreCollapsed x idx path
                                    (lsc ++ [Z.of_nat (length all) - i - 1]))))
                ltac:(rewrite Hall, <- app_assoc; reflexivity)
                ltac:(rewrite Hi, length_app; cbn [length]; lia))
      as (rc & Hin & Hrec & Hidx).
    exists rc. split; [apply in_or_app; right; exact Hin|].
    split; [exact Hrec | lia].
Qed.

Lemma rowsOfChildren_lift (Q : WalkInfo -> Prop)
  (R : WalkInfo -> WalkInfo -> Prop) path lsc cc (rest : Tree) :
  Forall (fun x => forall j path lsc r,
            In r (rowsOfNode key ignoreCollapsed x j path lsc) -> Q r ->
            exists rc,
              In rc (rowsOfNode key ignoreCollapsed x j path lsc) /\ R r rc)
         rest ->
  forall i idx r,
    In r (rowsOfChildren
            (fun x j below =>
               rowsOfNode key ignoreCollapsed x j path (lsc ++ [below]))
            cc rest i idx) ->
    Q r ->
    exists rc,
      In rc (rowsOfChildren
               (fun x j below =>
                  rowsOfNode key ignoreCollapsed x j path (lsc ++ [below]))
               cc rest i idx)
      /\ R r rc.
Proof.
  induction 1 as [|x rest Hx _ IH]; intros i idx r Hin HQ; [destruct Hin|].
  cbn [rowsOfChildren] in Hin |- *. apply in_app_or in Hin.
  destruct Hin as [Hin|Hin].
  - destruct (Hx _ _ _ _ Hin HQ) as (rc & Hrc & HR).
    exists rc. split; [apply in_or_app; left; exact Hrc | exact HR].
  - destruct (IH _ _ _ Hin HQ) as (rc & Hrc & HR).
    exists rc. split; [apply in_or_app; right; exact Hrc | exact HR].
Qed.

(** [p] is shown with children that the walk enters, [c] being one of
    them. *)
#[local] Abbreviation entered :=
  (fun (pre : Tree) (c : Node) (post : Tree) (p : WalkInfo) =>
     (ignoreCollapsed = true -> expanded (w_node p) = Some true)
     /\ children (w_node p) = Items (pre ++ c :: post)).

#[local] Abbreviation childOf :=
  (fun (c : Node) (post : Tree) (p rc : WalkInfo) =>
     recordOf c post (w_path p) (w_lowerSiblingCounts p) rc
     /\ w_treeIndex p < w_treeIndex rc).

Lemma rowsOfNode_complete pre c post (n : Node) :
  forall idx path lsc p,
    In p (rowsOfNode key ignoreCollapsed n idx path lsc) ->
    entered pre c post p ->
    exists rc,
      In rc (rowsOfNode key ignoreCollapsed n idx path lsc)
      /\ childOf c post p rc.
Proof.
  induction n as [f e|f e items IH|f e a] using Node_induction;
    intros idx path lsc p Hin [Hexp Hch]; cbn [rowsOfNode] in Hin |- *;
    cbn [noChildren children orb] in Hin |- *.
  - destruct Hin as [<-|[]]. discriminate.
  - destruct Hin as [<-|Hin].
    + cbn [w_node children expanded] in Hexp, Hch. injection Hch as ->.
      replace (notExpanded (MkNode f e (Items (pre ++ c :: post)))
               && ignoreCollapsed) with false.
      * destruct (@rowsOfChildren_complete
                    (path ++ [key (MkNode f e (Items (pre ++ c :: post))) idx])
                    lsc (pre ++ c :: post) c post pre [] 0 (idx + 1)
                    eq_refl eq_refl) as (rc & Hrc & Hrec & Hidx).
        exists rc. split; [right; exact Hrc|].
        cbn [w_path w_lowerSiblingCounts w_treeIndex].
        split; [exact Hrec | lia].
      * symmetry. destruct ignoreCollapsed; [|apply andb_false_r].
        rewrite andb_true_r. unfold notExpanded. cbn [expanded].
        rewrite (Hexp eq_refl). reflexivity.
    + destruct (notExpanded (MkNode f e (Items items)) && ignoreCollapsed);
        [destruct Hin|].
      destruct (@rowsOfChildren_lift (entered pre c post) (childOf c post)
                  (path ++ [key (MkNode f e (Items items)) idx]) lsc
                  (Z.of_nat (length items)) items IH 0 (idx + 1) p Hin
                  (conj Hexp Hch)) as (rc & Hrc & HR).
      exists rc. split; [right; exact Hrc | exact HR].
  - destruct Hin as [<-|Hin]; [discriminate|].
    destruct (_ && _); destruct Hin.
Qed.

(** X4 (coverage of a walk): a walk leaves out no node it can reach. Every
    root has a record; and every child held in the array of a node that
    has a record has one too, after its parent's, unless collapsed nodes
    are not entered and the parent is not expanded. The record's path and
    sibling counts are its parent's followed by its own key and by the
    number of siblings after it. *)
Theorem walk_shows_every_child_of_a_shown_parent :
  forall (t : Tree),
    (forall pre c post,
        t = pre ++ c :: post ->
        exists rc,
          In rc (walkOrder noFields key ignoreCollapsed t)
          /\ w_node rc = c
          /\ w_path rc = [key c (w_treeIndex rc)]
          /\ w_lowerSiblingCounts rc = [Z.of_nat (length post)])
    /\ (forall p pre c post,
           In p (walkOrder noFields key ignoreCollapsed t) ->
           (ignoreCollapsed = true -> expanded (w_node p) = Some true) ->
           children (w_node p) = Items (pre ++ c :: post) ->
           exists rc,
             In rc (walkOrder noFields key ignoreCollapsed t)
             /\ w_node rc = c
             /\ w_treeIndex p < w_treeIndex rc
             /\ w_path rc = w_path p ++ [key c (w_treeIndex rc)]
             /\ w_lowerSiblingCounts rc
                = w_lowerSiblingCounts p ++ [Z.of_nat (length post)]).
Proof.
  intros t. rewrite walkOrder_rows. unfold rowsOfTree. split.
  - intros pre c post Ht.
    destruct (@rowsOfChildren_complete [] [] t c post pre [] 0 0 Ht eq_refl)
      as (rc & Hrc & (Hnode & Hpath & Hlsc) & _).
    exists rc. rewrite <- Ht in Hrc. auto.
  - intros p pre c post Hin Hexp Hch.
    destruct (@rowsOfChildren_lift (entered pre c post) (childOf c post)
                [] [] (Z.of_nat (length t)) t
                ltac:(apply Forall_forall; intros x _;
                      apply rowsOfNode_complete)
                0 0 p Hin (conj Hexp Hch))
      as (rc & Hrc & (Hnode & Hpath & Hlsc) & Hidx).
    exists rc. auto.
Qed.

End RecordsComplete.

(* ------------------------------------------------------------------ *)
(** *** Index resolution, in and out of range *)

Section SeekBounds.

Variable St : Type.
Variable key : Node -> Z -> Key.

Lemma sought_outside (tick : Node -> Z -> St -> St) rows start target s :
  indexedFrom start rows ->
  target < start \/ start + Z.of_nat (length rows) <= target ->
  sought tick rows target s = (tickAll tick rows s, None).
Proof.
  revert start s; induction rows as [|r rows IH]; intros start s Hi Hout;
    [reflexivity|].
  destruct Hi as [Hr Hi]. cbn [sought tickAll fold_left length] in *.
  replace (w_treeIndex r =? target) with false
    by (symmetry; apply Z.eqb_neq; lia).
  apply (IH (start + 1)); [exact Hi | lia].
Qed.

Lemma childRows_indexed ic path lsc cc (rest : Tree) i idx :
  indexedFrom idx
    (rowsOfChildren
       (fun c j below => rowsOfNode key ic c j path (lsc ++ [below]))
       cc rest i idx).
Proof.
  apply rowsOfChildren_indexed. apply Forall_forall.
  intros c _ j below. apply rowsOfNode_indexed.
Qed.

Lemma childRows_count path lsc cc (rest : Tree) i idx :
  Z.of_nat (length
              (rowsOfChildren
                 (fun c j below => rowsOfNode key true c j path (lsc ++ [below]))
                 cc rest i idx))
  = getVisibleNodeCount rest.
Proof.
  symmetry. unfold getVisibleNodeCount. apply count_rowsOfChildren.
  apply Forall_forall. intros c _ j below. apply count_rowsOfNode.
Qed.

Lemma getNodeData_outside (n : Node) idx target path lsc (s : St) :
  seekable n = true ->
  target < idx \/ idx + getVisibleNodeCount_traverse n <= target ->
  getNodeDataAtTreeIndexOrNextIndex (pureKey key) n idx target path lsc
    true false s
  = (s, Ok (NextIndex (idx + getVisibleNodeCount_traverse n))).
Proof.
  intros Hs Hout. unfold pureKey.
  rewrite getNodeData_rows by exact Hs. unfold seeked.
  rewrite (@sought_outside _ _ idx).
  - rewrite tickAll_pure, <- (count_rowsOfNode key n idx path lsc).
    reflexivity.
  - apply rowsOfNode_indexed.
  - rewrite <- (count_rowsOfNode key n idx path lsc). exact Hout.
Qed.

(** X11 (next index): under a pure key function, a subtree that the
    index-seeking traversal can cross (none of its expanded nodes reached
    through expanded nodes has for [children] a function declaring
    parameters) and that does not hold the target index is passed by its
    visible count: the next index the traversal reports is the index it
    started at plus what [getVisibleNodeCount] counts for the subtree. *)
Theorem seek_passes_a_subtree_by_its_visible_count :
  forall (n : Node) (idx target : Z) (path : list Key) (lsc : list Z) (s : St),
    seekable n = true ->
    target < idx \/ idx + getVisibleNodeCount_traverse n <= target ->
    getNodeDataAtTreeIndexOrNextIndex (pureKey key) n idx target path lsc
      true false s
    = (s, Ok (NextIndex (idx + getVisibleNodeCount_traverse n))).
Proof.
  intros n idx target path lsc s Hs Hout. apply getNodeData_outside; assumption.
Qed.

(** X12 (option not passed down): [ignoreCollapsed: false] reaches one
    level only. Called with it, under a pure key function, on a node that
    holds an array of children each of which the traversal can cross (no
    expanded node reached through expanded nodes has for [children] a
    function declaring parameters), and for a target index outside the
    node's range, the index-seeking traversal enters the array whether the
    node is expanded or not, but the calls on the children are made
    without the option: each child is passed by its visible count, a
    collapsed child as one row. *)
Theorem ignoreCollapsed_false_reaches_one_level :
  forall (f : Fields) (e : Expanded) (items : Tree) (idx target : Z)
         (path : list Key) (lsc : list Z) (s : St),
    forallb (@seekable Fields) items = true ->
    target < idx \/ idx + 1 + getVisibleNodeCount items <= target ->
    getNodeDataAtTreeIndexOrNextIndex (pureKey key)
      (MkNode f e (Items items)) idx target path lsc false false s
    = (s, Ok (NextIndex (idx + 1 + getVisibleNodeCount items))).
Proof.
  intros f e items idx target path lsc s Hs Hout.
  assert (0 <= getVisibleNodeCount items)
    by (pose proof (getVisibleNodeCount_roots items); lia).
  rewrite getNodeData_step. cbn [pureKey observedKey].
  replace (idx =? target) with false by (symmetry; apply Z.eqb_neq; lia).
  cbn [noChildren children orb andb].
  unfold pureKey.
  rewrite seekChildren_rows;
    [| apply Forall_forall; intros c _ Hc; apply getNodeData_rows; exact Hc
     | exact Hs].
  unfold seeked.
  rewrite (@sought_outside _ _ (idx + 1));
    [| apply childRows_indexed | rewrite childRows_count; lia].
  rewrite tickAll_pure, childRows_count. reflexivity.
Qed.

Lemma getVisibleNodeInfoAtIndex_pseudoRoot
  (getNodeKey : Node -> Z -> St -> St * Key) (c : Node) (t : Tree) s :
  getVisibleNodeInfoAtIndex noFields getNodeKey (c :: t) (-1) s
  = (s, Ok (Some (MkInfo (MkNode noFields (Some true) (Items (c :: t)))
                    [] []))).
Proof.
  unfold getVisibleNodeInfoAtIndex.
  replace (Z.of_nat (length (c :: t)) <? 1) with false
    by (symmetry; apply Z.ltb_ge; cbn [length]; lia).
  reflexivity.
Qed.

(** X9 (index out of range): on a tree the index-seeking traversal can
    cross, [getVisibleNodeInfoAtIndex] returns [null] exactly when the
    tree is empty or the index is below -1 or not below the visible count. *)
Theorem resolve_is_null_exactly_out_of_range :
  forall (t : Tree) (i : Z) (s : St),
    treeSeekable t = true ->
    (snd (getVisibleNodeInfoAtIndex noFields (pureKey key) t i s) = Ok None
     <-> t = [] \/ i < -1 \/ getVisibleNodeCount t <= i).
Proof.
  intros t i s Hs. destruct t as [|c t]; [split; [auto | reflexivity]|].
  pose proof (getVisibleNodeCount_roots (c :: t)) as Hroots.
  cbn [length] in Hroots.
  destruct (Z.eq_dec i (-1)) as [->|Hi].
  - rewrite getVisibleNodeInfoAtIndex_pseudoRoot. cbn [snd].
    split; [discriminate | intros [?|[?|?]]; [discriminate | lia | lia]].
  - unfold pureKey.
    rewrite getVisibleNodeInfoAtIndex_rows by (congruence || assumption).
    pose proof (rowsOfTree_indexed key true (c :: t)) as Hindexed.
    pose proof (getVisibleNodeCount_rows key (c :: t)) as Hcount.
    destruct (Z_lt_dec i 0) as [Hneg|Hnonneg];
      [|destruct (Z_lt_dec i (getVisibleNodeCount (c :: t))) as [Hin|Hout]].
    + rewrite (@sought_outside _ _ 0) by (assumption || lia). cbn [snd].
      split; [intros _; right; left; lia | reflexivity].
    + destruct (@sought_at St (fun _ _ s => s) _ 0 i s Hindexed)
        as (r & _ & _ & Hsought); [lia|].
      rewrite Hsought. cbn [snd].
      split; [discriminate | intros [?|[?|?]]; [discriminate | lia | lia]].
    + rewrite (@sought_outside _ _ 0) by (assumption || lia). cbn [snd].
      split; [intros _; right; right; lia | reflexivity].
Qed.

Lemma getVisibleNodeInfoAtIndex_in_range (t : Tree) i (s : St) :
  treeSeekable t = true ->
  0 <= i < getVisibleNodeCount t ->
  exists r,
    nth_error (rowsOfTree key true t) (Z.to_nat i) = Some r
    /\ w_treeIndex r = i
    /\ getVisibleNodeInfoAtIndex noFields (pureKey key) t i s
       = (s, Ok (Some (toInfo r))).
Proof.
  intros Hs Hi.
  assert (Ht : t <> []) by (intros ->; cbn in Hi; lia).
  unfold pureKey.
  rewrite getVisibleNodeInfoAtIndex_rows by (assumption || lia).
  destruct (@sought_at St (fun _ _ s => s) (rowsOfTree key true t) 0 i s
              (rowsOfTree_indexed key true t))
    as (r & Hnth & Hidx & Hsought);
    [rewrite <- (getVisibleNodeCount_rows key t); lia|].
  exists r. rewrite Z.sub_0_r in Hnth. split; [exact Hnth|].
  split; [exact Hidx|].
  rewrite Hsought, tickAll_pure. reflexivity.
Qed.

(** X10 (index in range): on a tree the index-seeking traversal can cross,
    for an index in range [getVisibleNodeInfoAtIndex] returns the record a
    walk with [ignoreCollapsed: true] shows at that position, less its
    [treeIndex], which is the index asked for. *)
Theorem resolve_returns_the_walk_record :
  forall (t : Tree) (i : Z) (s : St),
    treeSeekable t = true ->
    0 <= i < getVisibleNodeCount t ->
    exists r,
      nth_error (walkOrder noFields key true t) (Z.to_nat i) = Some r
      /\ w_treeIndex r = i
      /\ getVisibleNodeInfoAtIndex noFields (pureKey key) t i s
         = (s, Ok (Some (toInfo r))).
Proof.
  intros t i s Hs Hi. rewrite walkOrder_rows.
  apply getVisibleNodeInfoAtIndex_in_range; assumption.
Qed.

End SeekBounds.

(* ------------------------------------------------------------------ *)
(** *** The tree the mutation returns *)

Lemma withChildren_same (n : Node) (items : Tree) :
  children n = Items items -> withChildren n items = n.
Proof. destruct n as [f e ch]. cbn. intros ->. reflexivity. Qed.

Lemma notExpanded_withChildren (n : Node) (items : Tree) :
  notExpanded (withChildren n items) = notExpanded n.
Proof. reflexivity. Qed.

Section Changed.

Variable St : Type.
Variable key : Node -> Z -> Key.
Variable path : list Key.
Variable newNode : NewNode Fields St.
Variable ignoreCollapsed : bool.

#[local] Abbreviation traverse :=
  (changeNodeAtPath_traverse (@pureKey Fields St key) path newNode
     ignoreCollapsed).
#[local] Abbreviation skip :=
  (nextIndexAfter (@pureKey Fields St key) ignoreCollapsed).

Lemma traverseChildren_changed (n : Node) i new shown rest idx ks rest'
  (s s1 : St) v :
  ChangedAt key ignoreCollapsed n i new shown rest idx ks rest' ->
  produce newNode n i s = (s1, v) ->
  asEdit v = Some new ->
  forall before,
    path = before ++ ks ->
    forall node pre all,
      all = pre ++ rest ->
      traverseChildren
        (fun c j => traverse false c j (Z.of_nat (length before)))
        skip node all rest (length pre) idx s
      = (s1, Ok (PNode (withChildren node (pre ++ rest')))).
Proof.
  intros Hchanged Hproduce Hedit.
  induction Hchanged
    as [rest k Hk
       |shown c rest idx k k' ks items items' Hk Hch Hdown IH
       |shown c rest idx idx' k ks rest' Hk Hskip Hdown IH];
    intros before Hpath node pre all Hall;
    assert (Hq : pathAt path (Z.of_nat (length before)) = Some k)
      by (rewrite Hpath; apply pathAt_middle);
    cbn [traverseChildren]; unfold bind at 1; rewrite traverse_step;
    cbn [pureKey observedKey]; rewrite Hq.
  - (* the node is the target *)
    rewrite Hk, keyDiffers_same.
    replace (Z.of_nat (length before) >=? Z.of_nat (length path) - 1)
      with true
      by (symmetry; rewrite Z.geb_leb; apply Z.leb_le; rewrite Hpath,
            length_app; cbn [length]; lia).
    assert (Hrun : match newNode with
                   | NewValue v0 => (s, Ok v0)
                   | NewFunction f => let (s2, v0) := f n i s in (s2, Ok v0)
                   end = (s1, Ok v)).
    { unfold produce in Hproduce. destruct newNode as [v0|f].
      - congruence.
      - destruct (f n i s). congruence. }
    rewrite Hrun, Hall, firstn_pre, skipn_pre.
    destruct v as [m| | |]; cbn [asEdit] in Hedit;
      try (injection Hedit as <-); try discriminate; reflexivity.
  - (* the node is on the way *)
    rewrite Hk, keyDiffers_same.
    replace (Z.of_nat (length before) >=? Z.of_nat (length path) - 1)
      with false
      by (symmetry; rewrite Z.geb_leb; apply Z.leb_gt; rewrite Hpath,
            length_app; cbn [length]; lia).
    unfold noChildren. rewrite Hch.
    specialize (IH (before ++ [k])
                  ltac:(rewrite Hpath, <- app_assoc; reflexivity)
                  c [] items eq_refl).
    rewrite length_app in IH. cbn [length app] in IH.
    replace (Z.of_nat (length before + 1)) with (Z.of_nat (length before) + 1)
      in IH by lia.
    rewrite IH, Hall, firstn_pre, skipn_pre. reflexivity.
  - (* the node is a sibling before *)
    rewrite (keyDiffers_other Hk).
    unfold bind at 1. rewrite nextIndexAfter_pure, Hskip.
    specialize (IH before Hpath node (pre ++ [c]) all
                  ltac:(rewrite Hall, <- app_assoc; reflexivity)).
    rewrite length_app in IH. cbn [length] in IH.
    replace (length pre + 1)%nat with (S (length pre)) in IH by lia.
    rewrite IH, <- app_assoc. reflexivity.
Qed.

End Changed.

Lemma changed_path_nonempty (key : Node -> Z -> Key) ic (n : Node) i new
  shown (t : Tree) idx p t' :
  ChangedAt key ic n i new shown t idx p t' -> (0 < length p)%nat.
Proof. induction 1; cbn [length]; lia. Qed.

Lemma mutation_changed_tree (St : Type) (key : Node -> Z -> Key)
  (newNode : NewNode Fields St) ic (t t' : Tree) path (n : Node) i new shown
  (s s1 : St) v :
  ChangedAt key ic n i new shown t 0 path t' ->
  produce newNode n i s = (s1, v) ->
  asEdit v = Some new ->
  changeNodeAtPath noFields (pureKey key) path newNode ic t s
  = (s1, Ok (Items t')).
Proof.
  intros Hchanged Hproduce Hedit.
  pose proof (changed_path_nonempty Hchanged) as Hlen.
  unfold changeNodeAtPath, bind. rewrite traverse_step.
  replace (-1 >=? Z.of_nat (length path) - 1) with false
    by (symmetry; rewrite Z.geb_leb; apply Z.leb_gt; lia).
  cbn [noChildren children]. change (-1 + 1) with 0.
  pose proof (@traverseChildren_changed St key path newNode ic n i new shown
                t 0 path t' s s1 v Hchanged Hproduce Hedit [] eq_refl
                (MkNode noFields None (Items t)) [] t eq_refl) as Hrun.
  cbn [length app] in Hrun. change (Z.of_nat 0) with 0 in Hrun.
  rewrite Hrun. reflexivity.
Qed.

(** X15 (changed tree): the tree [changeNodeAtPath] returns under a pure
    key function. When the path goes down the tree, at each level through
    the first sibling that has the key, every sibling before it having
    another key and being one the index-seeking traversal can pass
    ([getNodeDataAtTreeIndexOrNextIndex] with target -1 returns a
    [nextIndex] for it), to a node on which the producer hands back a node
    or a falsy value, the call returns the tree with that node replaced,
    or deleted, in place: the ancestors are rebuilt around it and every
    other member of every array stays where it was. The nodes on the way
    need not be expanded. *)
Theorem mutation_returns_the_changed_tree :
  forall (St : Type) (key : Node -> Z -> Key) (newNode : NewNode Fields St)
         (ignoreCollapsed : bool) (t t' : Tree) (path : list Key)
         (n : Node) (i : Z) (new : option Node) (shown : bool)
         (s s1 : St) (v : Produced Fields),
    ChangedAt key ignoreCollapsed n i new shown t 0 path t' ->
    produce newNode n i s = (s1, v) ->
    asEdit v = Some new ->
    changeNodeAtPath noFields (pureKey key) path newNode ignoreCollapsed t s
    = (s1, Ok (Items t')).
Proof.
  intros St key newNode ic t t' path n i new shown s s1 v Hchanged Hproduce
    Hedit.
  eapply mutation_changed_tree; eassumption.
Qed.

(* ------------------------------------------------------------------ *)
(** *** A producer that returns the node it is given *)

Section Identity.

Variable St : Type.
Variable getNodeKey : Node -> Z -> St -> St * Key.
Variable path : list Key.
Variable ignoreCollapsed : bool.

(** [({ node }) => node] *)
#[local] Abbreviation sameNode :=
  (NewFunction (fun (n : Node) (_ : Z) (s : St) => (s, PNode n))).
#[local] Abbreviation traverse :=
  (changeNodeAtPath_traverse getNodeKey path sameNode ignoreCollapsed).

Lemma traverseChildren_identity (q : Z) (node : Node) (all rest : Tree) :
  Forall (fun c => forall idx s s' out,
            traverse false c idx q s = (s', Ok out) ->
            out = PMiss \/ out = PNode c) rest ->
  children node = Items all ->
  forall pre idx s s' out,
    all = pre ++ rest ->
    traverseChildren (fun c j => traverse false c j q)
      (nextIndexAfter getNodeKey ignoreCollapsed) node all rest (length pre)
      idx s = (s', Ok out) ->
    out = PMiss \/ out = PNode node.
Proof.
  intros Hrest Hnode.
  induction Hrest as [|c rest Hc _ IH]; intros pre idx s s' out Hall Hrun.
  - cbn in Hrun. injection Hrun as _ <-. left. reflexivity.
  - cbn [traverseChildren] in Hrun. unfold bind at 1 in Hrun.
    destruct (traverse false c idx q s) as [s1 [v|e]] eqn:Hvisit;
      [|discriminate].
    destruct (Hc _ _ _ _ Hvisit) as [->| ->].
    + unfold bind at 1 in Hrun.
      destruct (nextIndexAfter getNodeKey ignoreCollapsed c idx s1)
        as [s2 [next|e]]; [|discriminate].
      apply (IH (pre ++ [c]) next s2 s' out);
        [rewrite Hall, <- app_assoc; reflexivity|].
      rewrite length_app. cbn [length].
      replace (length pre + 1)%nat with (S (length pre)) by lia. exact Hrun.
    + injection Hrun as _ <-. right.
      rewrite Hall, firstn_pre, skipn_pre. cbn [app]. rewrite <- Hall.
      rewrite (withChildren_same _ Hnode). reflexivity.
Qed.

Lemma traverse_identity (n : Node) :
  forall isPseudoRoot idx p s s' out,
    traverse isPseudoRoot n idx p s = (s', Ok out) ->
    out = PMiss \/ out = PNode n.
Proof.
  induction n as [f e|f e items IH|f e a] using Node_induction;
    intros pr idx p s s' out Hrun; rewrite traverse_step in Hrun;
    destruct (if pr then _ else _) as [s1 miss];
    (destruct miss; [injection Hrun as _ <-; left; reflexivity|]);
    (destruct (p >=? _);
     [injection Hrun as _ <-; right; reflexivity|]);
    cbn [noChildren children] in Hrun.
  - discriminate.
  - apply (@traverseChildren_identity (p + 1) (MkNode f e (Items items))
             items items) with (pre := []) (idx := idx + 1) (s := s1) (s' := s');
      [|reflexivity|reflexivity|exact Hrun].
    eapply Forall_impl; [|exact IH]. intros c Hc cidx cs cs' cout.
    apply Hc.
  - destruct a; [|discriminate]. injection Hrun as _ <-. left. reflexivity.
Qed.

Lemma changeNodeAtPath_identity (t : Tree) s s' result :
  changeNodeAtPath noFields getNodeKey path sameNode ignoreCollapsed t s
  = (s', Ok result) ->
  result = Items t.
Proof.
  unfold changeNodeAtPath, bind. intros Hrun.
  destruct (traverse true (MkNode noFields None (Items t)) (-1) (-1) s)
    as [s1 [v|e]] eqn:Htop; [|discriminate].
  destruct (traverse_identity _ _ _ _ _ Htop) as [->| ->].
  - discriminate.
  - injection Hrun as _ <-. reflexivity.
Qed.

End Identity.

(** X16 (identity change): a producer that returns the node it is given
    changes nothing: whenever [changeNodeAtPath] returns with it, whatever
    the key function and the path, it returns a tree equal to its input;
    and it does return, under a pure key function, when the path addresses
    a node: at every level down to it the node on the path is the only one
    of its siblings with its key, and every sibling at that level, the
    node on the path included, can be passed by the index-seeking
    traversal ([getNodeDataAtTreeIndexOrNextIndex] with target -1 returns
    a [nextIndex] for it). *)
Theorem identity_change_returns_the_tree :
  forall (St : Type) (ignoreCollapsed : bool) (t : Tree) (path : list Key),
    (forall (getNodeKey : Node -> Z -> St -> St * Key) (s s' : St)
            (result : Children Node),
        changeNodeAtPath noFields getNodeKey path
          (NewFunction (fun n _ s => (s, PNode n))) ignoreCollapsed t s
        = (s', Ok result) ->
        result = Items t)
    /\ (forall (key : Node -> Z -> Key) (n : Node) (i : Z) (s : St),
           Addresses key ignoreCollapsed t 0 path n i ->
           changeNodeAtPath noFields (pureKey key) path
             (NewFunction (fun n _ s => (s, PNode n))) ignoreCollapsed t s
           = (s, Ok (Items t))).
Proof.
  intros St ic t path. split.
  - intros getNodeKey s s' result. apply changeNodeAtPath_identity.
  - intros key n i s Haddr.
    pose proof (@changeNodeAtPath_addressed St key
                  (NewFunction (fun n _ s => (s, PNode n))) ic path [] n i t s
                  Haddr) as [Hst Hout].
    cbv zeta in Hst, Hout.
    rewrite (@traverse_at_target St key _ ic path [] n i t 0 s Haddr)
      in Hst, Hout.
    cbn [produce fst snd] in Hst, Hout. rewrite app_nil_r in Hst, Hout.
    destruct Hout as [result Hres].
    destruct (changeNodeAtPath noFields (pureKey key) path _ ic t s)
      as [s' out] eqn:Hrun.
    cbn [fst snd] in Hst, Hres. subst s' out.
    apply changeNodeAtPath_identity in Hrun. subst result. reflexivity.
Qed.

(* ------------------------------------------------------------------ *)
(** *** Changing the node at a visible index *)

Section VisibleChange.

Variable key : Node -> Z -> Key.

Lemma addresses_changed ic new (n : Node) i (t : Tree) idx p :
  Addresses key ic t idx p n i ->
  exists shown t', ChangedAt key ic n i new shown t idx p t'.
Proof.
  induction 1 as [c rest idx idx' k Hk _ _
                 |c rest idx idx' k k' ks items n i Hk Hch _ IH _ _
                 |c rest idx idx' k ks n i Hk Hskip _ IH].
  - do 2 eexists. apply changed_here. exact Hk.
  - destruct IH as (shown & items' & IH). do 2 eexists.
    eapply changed_below; eassumption.
  - destruct IH as (shown & rest' & IH). do 2 eexists.
    eapply changed_later; eassumption.
Qed.

Lemma changed_index ic new (n : Node) i shown (l l' : Tree) idx p :
  ChangedAt key ic n i new shown l idx p l' -> 0 <= idx -> idx <= i.
Proof.
  induction 1 as [rest k Hk
                 |shown c rest idx k k' ks items items' Hk Hch _ IH
                 |shown c rest idx idx' k ks rest' Hk Hskip _ IH];
    intros Hidx; [lia | specialize (IH ltac:(lia)); lia |].
  unfold skipEnd in Hskip.
  destruct (nextIndexAfter (pureKey key) ic c idx tt) as [s' out] eqn:Hrun.
  apply nextIndexAfter_onward in Hrun; [|exact Hidx].
  destruct Hrun as [_ Hnext]. cbn [snd] in Hskip.
  specialize (Hnext idx' Hskip). specialize (IH ltac:(lia)). lia.
Qed.

Lemma changed_head_in new (n : Node) i shown (rest rest' : Tree) idx k ks :
  ChangedAt key true n i new shown rest idx (k :: ks) rest' ->
  forallb (@seekable Fields) rest = true -> 0 <= idx ->
  In k (siblingKeys key rest idx).
Proof.
  intros H. remember (k :: ks) as q eqn:Hq. revert k ks Hq.
  induction H as [rest k0 Hk
                 |shown c rest idx k0 k' ks0 items items' Hk _ _ _
                 |shown c rest idx idx' k0 ks0 rest' Hk Hskip _ IH];
    intros k ks Hq Hs Hidx; injection Hq as <- <-.
  - left. exact Hk.
  - left. exact Hk.
  - cbn [forallb] in Hs. apply andb_true_iff in Hs. destruct Hs as [Hc Hrest].
    rewrite skipEnd_seekable in Hskip by assumption. injection Hskip as <-.
    right. eapply IH; [reflexivity | exact Hrest |].
    pose proof (getVisibleNodeCount_traverse_pos c). lia.
Qed.

Lemma rowsOfChildren_changed new (l : Tree) :
  Forall (fun c => seekable c = true -> forall idx, 0 <= idx ->
            uniqueBelow key c idx ->
            forall pre lsc r, In r (rowsOfNode key true c idx pre lsc) ->
              (w_path r = pre ++ [key c idx] /\ w_node r = c
               /\ w_treeIndex r = idx)
              \/ exists items k' ks items',
                   children c = Items items
                   /\ notExpanded c = false
                   /\ w_path r = pre ++ key c idx :: k' :: ks
                   /\ ChangedAt key true (w_node r) (w_treeIndex r) new true
                        items (idx + 1) (k' :: ks) items') l ->
  forallb (@seekable Fields) l = true ->
  forall idx, 0 <= idx ->
    NoDup (siblingKeys key l idx) ->
    uniqueAmong (uniqueBelow key) l idx ->
    forall cc i0 pre lsc r,
      In r (rowsOfChildren
              (fun c i below => rowsOfNode key true c i pre (lsc ++ [below]))
              cc l i0 idx) ->
      exists k ks l',
        w_path r = pre ++ k :: ks
        /\ ChangedAt key true (w_node r) (w_treeIndex r) new true l idx
             (k :: ks) l'.
Proof.
  induction 1 as [|c rest Hc _ IH];
    intros Hs idx Hidx Hdup Huniq cc i0 pre lsc r Hin; [destruct Hin|].
  cbn [forallb] in Hs. apply andb_true_iff in Hs. destruct Hs as [Hsc Hsrest].
  cbn [siblingKeys] in Hdup. inversion Hdup as [|? ? Hnotin Hduprest]; subst.
  cbn [uniqueAmong] in Huniq. destruct Huniq as [Huc Hurest].
  assert (Hnext : 0 <= idx + getVisibleNodeCount_traverse c)
    by (pose proof (getVisibleNodeCount_traverse_pos c); lia).
  assert (Hskip := @skipEnd_seekable key c idx Hsc Hidx).
  cbn [rowsOfChildren] in Hin. apply in_app_or in Hin.
  destruct Hin as [Hin|Hin].
  - destruct (Hc Hsc idx Hidx Huc pre _ r Hin)
      as [(Hp & Hn & Hi)
         |(items & k' & ks & items' & Hch & Hexp & Hp & Hdown)].
    + exists (key c idx), []. eexists. split; [exact Hp|]. rewrite Hn, Hi.
      apply changed_here. reflexivity.
    + exists (key c idx), (k' :: ks). eexists. split; [exact Hp|].
      pose proof (@changed_below Fields key true (w_node r) (w_treeIndex r)
                    new true c rest idx (key c idx) k' ks items items'
                    eq_refl Hch Hdown) as Hbelow.
      rewrite Hexp in Hbelow. exact Hbelow.
  - rewrite <- (count_rowsOfNode key c idx pre (lsc ++ [cc - i0 - 1])) in Hin.
    destruct (IH Hsrest _ Hnext Hduprest Hurest cc (i0 + 1) pre lsc r Hin)
      as (k & ks & rest' & Hp & Hdown).
    exists k, ks. eexists. split; [exact Hp|].
    eapply changed_later; [|exact Hskip | exact Hdown].
    intros Heq. apply Hnotin. rewrite Heq.
    eapply changed_head_in; eassumption.
Qed.

Lemma rowsOfNode_changed new (c : Node) :
  seekable c = true -> forall idx, 0 <= idx ->
    uniqueBelow key c idx ->
    forall pre lsc r, In r (rowsOfNode key true c idx pre lsc) ->
      (w_path r = pre ++ [key c idx] /\ w_node r = c /\ w_treeIndex r = idx)
      \/ exists items k' ks items',
           children c = Items items
           /\ notExpanded c = false
           /\ w_path r = pre ++ key c idx :: k' :: ks
           /\ ChangedAt key true (w_node r) (w_treeIndex r) new true
                items (idx + 1) (k' :: ks) items'.
Proof.
  induction c as [f e|f e items IH|f e a] using Node_induction;
    intros Hs idx Hidx Hu pre lsc r Hin; cbn [rowsOfNode] in Hin;
    (destruct Hin as [<-|Hin]; [left; repeat split|]).
  - destruct (_ || _); destruct Hin.
  - right. unfold seekable in Hs; fold (@seekable Fields) in Hs.
    unfold uniqueBelow in Hu; fold (uniqueBelow key) in Hu.
    unfold noChildren, notExpanded in Hs, Hu, Hin.
    cbn [children expanded orb] in Hs, Hu, Hin.
    destruct e as [[|]|]; cbn [andb] in Hin; try (destruct Hin; fail).
    destruct Hu as [Hdup Huniq].
    destruct (@rowsOfChildren_changed new items IH Hs (idx + 1) ltac:(lia)
                Hdup Huniq _ _ _ _ _ Hin) as (k & ks & items' & Hp & Hdown).
    exists items, k, ks, items'. split; [reflexivity|].
    split; [reflexivity|]. split; [|exact Hdown].
    rewrite Hp, <- app_assoc. reflexivity.
  - destruct (_ || _); destruct Hin.
Qed.

Lemma rowsOfTree_changed new (t : Tree) r :
  treeSeekable t = true ->
  keysUniqueAmongSiblings key t ->
  In r (rowsOfTree key true t) ->
  exists t',
    ChangedAt key true (w_node r) (w_treeIndex r) new true t 0 (w_path r) t'.
Proof.
  intros Hs [Hdup Huniq] Hin. unfold rowsOfTree in Hin.
  destruct (@rowsOfChildren_changed new t) with (idx := 0)
    (cc := Z.of_nat (length t)) (i0 := 0) (pre := @nil Key) (lsc := @nil Z)
    (r := r) as (k & ks & t' & Hp & Hdown); try assumption; try lia.
  - apply Forall_forall. intros c _. apply rowsOfNode_changed.
  - exists t'. rewrite Hp. exact Hdown.
Qed.

(** The visible count after a change at a node whose ancestors are all
    expanded, and after a change below a collapsed node. *)
Lemma changed_count ic new (n : Node) i shown (t t' : Tree) idx p :
  ChangedAt key ic n i new shown t idx p t' ->
  getVisibleNodeCount t'
  = getVisibleNodeCount t
    + (if shown
       then match new with
            | Some m => getVisibleNodeCount_traverse m
            | None => 0
            end - getVisibleNodeCount_traverse n
       else 0).
Proof.
  induction 1 as [rest k Hk
                 |shown c rest idx k k' ks items items' Hk Hch _ IH
                 |shown c rest idx idx' k ks rest' Hk Hskip _ IH].
  - destruct new as [m|]; rewrite !getVisibleNodeCount_cons; lia.
  - rewrite !getVisibleNodeCount_cons.
    rewrite (getVisibleNodeCount_traverse_eq c).
    rewrite (getVisibleNodeCount_traverse_eq (withChildren c items')).
    unfold noChildren, childrenIsFunction. rewrite Hch.
    cbn [withChildren children orb]. rewrite !orb_false_r.
    fold (withChildren c items'). rewrite notExpanded_withChildren.
    destruct (notExpanded c); cbn [negb andb].
    + rewrite andb_false_r. lia.
    + rewrite andb_true_r, IH. lia.
  - rewrite !getVisibleNodeCount_cons, IH. lia.
Qed.

(** Index resolution on the changed tree finds the replacement where the
    replaced node was. *)
Lemma changed_found (St : Type) m (n : Node) i shown (l l' : Tree) idx p :
  ChangedAt key true n i (Some m) shown l idx p l' ->
  shown = true ->
  forallb (@seekable Fields) l = true ->
  0 <= idx ->
  forall cc path lsc i0 (s : St),
  exists r,
    seekChildren
      (fun child j below =>
         getNodeDataAtTreeIndexOrNextIndex (pureKey key) child j i path
           (lsc ++ [below]) true false) cc l' i0 idx s
    = (s, Ok (Found r))
    /\ node r = m.
Proof.
  induction 1 as [rest k Hk
                 |shown c rest idx k k' ks items items' Hk Hch Hdown IH
                 |shown c rest idx idx' k ks rest' Hk Hskip Hdown IH];
    intros Hshown Hs Hidx cc path lsc i0 s;
    cbn [seekChildren]; unfold bind at 1.
  - rewrite getNodeData_step. cbn [pureKey observedKey].
    rewrite Z.eqb_refl. eexists. split; reflexivity.
  - apply andb_true_iff in Hshown. destruct Hshown as [Hshown Hexp].
    apply negb_true_iff in Hexp.
    cbn [forallb] in Hs. apply andb_true_iff in Hs. destruct Hs as [Hsc _].
    assert (Hsitems : forallb (@seekable Fields) items = true).
    { destruct c as [f e ch]. cbn [children] in Hch. subst ch.
      unfold seekable in Hsc; fold (@seekable Fields) in Hsc.
      unfold noChildren in Hsc. cbn [children orb] in Hsc.
      rewrite Hexp in Hsc. exact Hsc. }
    pose proof (changed_index Hdown ltac:(lia)) as Hlater.
    rewrite getNodeData_step. cbn [pureKey observedKey].
    replace (idx =? i) with false by (symmetry; apply Z.eqb_neq; lia).
    rewrite notExpanded_withChildren, Hexp.
    cbn [withChildren noChildren children orb andb].
    destruct (IH Hshown Hsitems ltac:(lia) (Z.of_nat (length items'))
                (path ++ [key (withChildren c items') idx])
                (lsc ++ [cc - i0 - 1]) 0 s) as (r & Hrun & Hnode).
    exists r. unfold pureKey, observedKey in Hrun |- *.
    rewrite Hrun. split; [reflexivity | exact Hnode].
  - cbn [forallb] in Hs. apply andb_true_iff in Hs. destruct Hs as [Hsc Hsrest].
    rewrite skipEnd_seekable in Hskip by assumption. injection Hskip as <-.
    pose proof (getVisibleNodeCount_traverse_pos c) as Hpos.
    pose proof (changed_index Hdown ltac:(lia)) as Hlater.
    rewrite getNodeData_outside by (assumption || lia).
    apply IH; [exact Hshown | exact Hsrest | lia].
Qed.

End VisibleChange.

(** X18 (replace, then resolve): on a tree the index-seeking traversal can
    cross, with keys unique among visible siblings: replacing the node at
    a visible index, by the path index resolution returns for it, puts the
    replacement at that index. *)
Theorem replaced_node_is_found_at_its_index :
  forall (St : Type) (key : Node -> Z -> Key) (t : Tree) (i : Z) (m : Node)
         (s : St),
    treeSeekable t = true ->
    keysUniqueAmongSiblings key t ->
    0 <= i < getVisibleNodeCount t ->
    exists r t' r',
      getVisibleNodeInfoAtIndex noFields (pureKey key) t i s
      = (s, Ok (Some r))
      /\ changeNodeAtPath noFields (pureKey key) (path r)
           (NewValue (PNode m)) true t s
         = (s, Ok (Items t'))
      /\ getVisibleNodeInfoAtIndex noFields (pureKey key) t' i s
         = (s, Ok (Some r'))
      /\ node r' = m.
Proof.
  intros St key t i m s Hs Hu Hi.
  destruct (@getVisibleNodeInfoAtIndex_in_range St key t i s Hs Hi)
    as (row & Hnth & Hidx & Hres).
  apply nth_error_In in Hnth.
  destruct (@rowsOfTree_changed key (Some m) t row Hs Hu Hnth)
    as [t' Hchanged].
  rewrite Hidx in Hchanged.
  destruct (@changed_found key St m _ _ _ _ _ _ _ Hchanged eq_refl Hs
              ltac:(lia) (Z.of_nat (length t')) [] [] 0 s)
    as (r' & Hfound & Hnode).
  exists (toInfo row), t', r'. split; [exact Hres|].
  split.
  - apply (@mutation_changed_tree St key (NewValue (PNode m)) true t t'
             (w_path row) (w_node row) i (Some m) true s s (PNode m)
             Hchanged eq_refl eq_refl).
  - split; [|exact Hnode].
    unfold getVisibleNodeInfoAtIndex.
    assert (Hlen : (0 < length t')%nat).
    { clear - Hchanged. inversion Hchanged; subst; cbn [length]; lia. }
    replace (Z.of_nat (length t') <? 1) with false
      by (symmetry; apply Z.ltb_ge; lia).
    unfold bind. cbn [getNodeDataAtTreeIndexOrNextIndex negb].
    unfold bind, ret.
    replace (-1 =? i) with false by (symmetry; apply Z.eqb_neq; lia).
    cbn [noChildren notExpanded children expanded orb andb].
    change (-1 + 1) with 0. rewrite Hfound. reflexivity.
Qed.

(** X19 (removal and count): on a tree the index-seeking traversal can
    cross, with keys unique among visible siblings: removing the node at a
    visible index, by the path index resolution returns for it, lowers the
    visible count by what that node and its visible descendants counted
    for. *)
Theorem removal_lowers_the_visible_count :
  forall (St : Type) (key : Node -> Z -> Key) (t : Tree) (i : Z) (s : St),
    treeSeekable t = true ->
    keysUniqueAmongSiblings key t ->
    0 <= i < getVisibleNodeCount t ->
    exists r t',
      getVisibleNodeInfoAtIndex noFields (pureKey key) t i s
      = (s, Ok (Some r))
      /\ removeNodeAtPath noFields (pureKey key) t (path r) true s
         = (s, Ok (Items t'))
      /\ getVisibleNodeCount t'
         = getVisibleNodeCount t - getVisibleNodeCount_traverse (node r).
Proof.
  intros St key t i s Hs Hu Hi.
  destruct (@getVisibleNodeInfoAtIndex_in_range St key t i s Hs Hi)
    as (row & Hnth & Hidx & Hres).
  apply nth_error_In in Hnth.
  destruct (@rowsOfTree_changed key None t row Hs Hu Hnth) as [t' Hchanged].
  exists (toInfo row), t'. split; [exact Hres|]. split.
  - apply (@mutation_changed_tree St key (NewValue PNull) true t t'
             (w_path row) (w_node row) (w_treeIndex row) None true s s PNull
             Hchanged eq_refl eq_refl).
  - rewrite (changed_count Hchanged). cbn [toInfo node]. lia.
Qed.

(* ------------------------------------------------------------------ *)
(** *** A path addresses one node *)

Section PathsIdentify.

Variable key : Node -> Z -> Key.

Lemma addresses_functional ic (t : Tree) idx p (n n' : Node) i i' :
  Addresses key ic t idx p n i ->
  Addresses key ic t idx p n' i' ->
  n = n' /\ i = i'.
Proof.
  induction 1 as [c rest idx idx' k Hk _ _
                 |c rest idx idx' k k' ks items n i Hk Hch _ IH _ _
                 |c rest idx idx' k ks n i Hk Hskip _ IH];
    intros Hother; inversion Hother; subst; try congruence.
  - auto.
  - apply IH. congruence.
  - apply IH. congruence.
Qed.

(** X21 (paths as names): on a tree the index-seeking traversal can cross,
    with keys unique among visible siblings, a path names one visible
    node: two indices that index resolution resolves to records with the
    same path are the same index. *)
Theorem paths_identify_visible_nodes :
  forall (St : Type) (t : Tree) (i j : Z) (ri rj : NodeInfo) (s : St),
    treeSeekable t = true ->
    keysUniqueAmongSiblings key t ->
    i <> -1 -> j <> -1 ->
    getVisibleNodeInfoAtIndex noFields (pureKey key) t i s
    = (s, Ok (Some ri)) ->
    getVisibleNodeInfoAtIndex noFields (pureKey key) t j s
    = (s, Ok (Some rj)) ->
    path ri = path rj ->
    i = j.
Proof.
  intros St t i j ri rj s Hs Hu Hi Hj Hri Hrj Hpath.
  unfold pureKey in Hri, Hrj.
  apply getVisibleNodeInfoAtIndex_found in Hri; [|exact Hi].
  apply getVisibleNodeInfoAtIndex_found in Hrj; [|exact Hj].
  destruct Hri as (rowi & Hini & <- & <-).
  destruct Hrj as (rowj & Hinj & <- & <-).
  cbn [toInfo path] in Hpath.
  pose proof (@rowsOfTree_addressed key t rowi Hs Hu Hini) as Hai.
  pose proof (@rowsOfTree_addressed key t rowj Hs Hu Hinj) as Haj.
  rewrite Hpath in Hai.
  destruct (addresses_functional Hai Haj) as [_ Heq]. exact Heq.
Qed.

End PathsIdentify.

(* ------------------------------------------------------------------ *)
(** *** What a change leaves of the tree *)

Section ChangeKeeps.

Variable key : Node -> Z -> Key.
Variable ignoreCollapsed : bool.

(** What a node carries besides its children. *)
#[local] Abbreviation own :=
  (fun (x : Node) => (fields x, expanded x)).

Lemma treeNodes_cons (n : Node) (t : Tree) :
  treeNodes (n :: t) = nodesOf n ++ treeNodes t.
Proof. reflexivity. Qed.

Lemma nodesOf_items (n : Node) (items : Tree) :
  children n = Items items -> nodesOf n = n :: treeNodes items.
Proof. destruct n as [f e ch]. cbn. intros ->. reflexivity. Qed.

Lemma changed_preorder new (n : Node) i shown (t t' : Tree) idx p :
  ChangedAt key ignoreCollapsed n i new shown t idx p t' ->
  exists before after,
    map own (treeNodes t) = before ++ map own (nodesOf n) ++ after
    /\ map own (treeNodes t')
       = before
         ++ match new with
            | Some m => map own (nodesOf m)
            | None => []
            end ++ after.
Proof.
  induction 1 as [rest k Hk
                 |shown c rest idx k k' ks items items' Hk Hch _ IH
                 |shown c rest idx idx' k ks rest' Hk Hskip _ IH].
  - exists [], (map own (treeNodes rest)). cbn [app].
    split; [rewrite treeNodes_cons, map_app; reflexivity|].
    destruct new as [m|]; [rewrite treeNodes_cons, map_app|]; reflexivity.
  - destruct IH as (before & after & Hold & Hnew).
    exists (own c :: before), (after ++ map own (treeNodes rest)).
    rewrite !treeNodes_cons, !map_app, (nodesOf_items _ Hch).
    rewrite (@nodesOf_items (withChildren c items') items' eq_refl).
    cbn [map]. rewrite Hold, Hnew. cbn [withChildren fields expanded app].
    rewrite <- !app_assoc. split; reflexivity.
  - destruct IH as (before & after & Hold & Hnew).
    exists (map own (nodesOf c) ++ before), after.
    rewrite !treeNodes_cons, !map_app, Hold, Hnew, <- !app_assoc.
    split; reflexivity.
Qed.

(** X17 (locality of a change): a change touches the subtree it is aimed
    at and nothing else. Listing what every node of the tree carries
    besides its children, parents before children, the tree returned
    differs from the input by the stretch of the addressed node and its
    descendants: replaced by the stretch of the replacement, or gone when
    the node is deleted.  The node is addressed by the path: at every
    level down to it the node on the path is the only one of its siblings
    with its key, and every sibling at that level, the node on the path
    included, can be passed by the index-seeking traversal. *)
Theorem change_touches_only_the_subtree :
  forall (St : Type) (newNode : NewNode Fields St) (t : Tree)
         (path : list Key) (n : Node) (i : Z) (new : option Node)
         (s s1 : St) (v : Produced Fields),
    Addresses key ignoreCollapsed t 0 path n i ->
    produce newNode n i s = (s1, v) ->
    asEdit v = Some new ->
    exists t' before after,
      changeNodeAtPath noFields (pureKey key) path newNode ignoreCollapsed t s
      = (s1, Ok (Items t'))
      /\ map own (treeNodes t) = before ++ map own (nodesOf n) ++ after
      /\ map own (treeNodes t')
         = before
           ++ match new with
              | Some m => map own (nodesOf m)
              | None => []
              end ++ after.
Proof.
  intros St newNode t path n i new s s1 v Haddr Hproduce Hedit.
  destruct (@addresses_changed key ignoreCollapsed new n i t 0 path Haddr)
    as (shown & t' & Hchanged).
  destruct (changed_preorder Hchanged) as (before & after & Hold & Hnew).
  exists t', before, after. split; [|split; assumption].
  eapply mutation_changed_tree; eassumption.
Qed.

End ChangeKeeps.

(* ------------------------------------------------------------------ *)
(** *** Removing twice *)

Section RemovedTwice.

Variable label : Fields -> Key.
Variable ignoreCollapsed : bool.

(** A key function that reads the key off the node's own fields. *)
#[local] Abbreviation byLabel :=
  (fun (n : Node) (_ : Z) => label (fields n)).

Lemma leadsTo_head (l : Tree) idx k ks (m : Node) j :
  LeadsTo byLabel ignoreCollapsed l idx (k :: ks) m j ->
  exists c, In c l /\ label (fields c) = k.
Proof.
  intros H. remember (k :: ks) as q eqn:Hq. revert k ks Hq.
  induction H as [c rest idx k0 Hk
                 |c rest idx k0 k' ks0 items n i Hk _ _ _
                 |c rest idx idx' ks0 n i _ _ IH];
    intros k ks Hq.
  - injection Hq as <- <-. exists c. split; [left; reflexivity | exact Hk].
  - injection Hq as <- <-. exists c. split; [left; reflexivity | exact Hk].
  - destruct (IH _ _ Hq) as (x & Hin & Hx). exists x.
    split; [right; exact Hin | exact Hx].
Qed.

Lemma noneHasKey_all k (l : Tree) idx :
  NoneHasKey byLabel ignoreCollapsed k l idx ->
  forall c, In c l -> label (fields c) <> k.
Proof.
  induction 1 as [idx|c rest idx idx' Hk _ _ IH]; intros x Hin;
    [destruct Hin|].
  destruct Hin as [<-|Hin]; [exact Hk | apply IH; exact Hin].
Qed.

Lemma addresses_removed (t : Tree) idx p (n : Node) i :
  Addresses byLabel ignoreCollapsed t idx p n i ->
  exists shown t',
    ChangedAt byLabel ignoreCollapsed n i None shown t idx p t'
    /\ forall idx2 m j, ~ LeadsTo byLabel ignoreCollapsed t' idx2 p m j.
Proof.
  induction 1 as [c rest idx idx' k Hk _ Hnone
                 |c rest idx idx' k k' ks items n i Hk Hch _ IH _ Hnone
                 |c rest idx idx' k ks n i Hk Hskip _ IH].
  - exists true, rest. split; [apply changed_here; exact Hk|].
    intros idx2 m j Hleads.
    destruct (leadsTo_head Hleads) as (x & Hin & Hx).
    exact (noneHasKey_all Hnone x Hin Hx).
  - destruct IH as (shown & items' & Hchanged & Hoff).
    exists (shown && negb (notExpanded c)), (withChildren c items' :: rest).
    split; [eapply changed_below; eassumption|].
    intros idx2 m j Hleads. inversion Hleads; subst.
    + match goal with
      | H : children (withChildren c items') = Items _ |- _ =>
          cbn in H; injection H as <-
      end.
      eapply Hoff. eassumption.
    + match goal with
      | H : LeadsTo _ _ rest _ _ _ _ |- _ =>
          destruct (leadsTo_head H) as (x & Hin & Hx)
      end.
      exact (noneHasKey_all Hnone x Hin Hx).
  - destruct IH as (shown & rest' & Hchanged & Hoff).
    exists shown, (c :: rest').
    split; [eapply changed_later; eassumption|].
    intros idx2 m j Hleads. inversion Hleads; subst;
      try (apply Hk; reflexivity).
    eapply Hoff. eassumption.
Qed.

(** X20 (removing twice): with a key function that reads the key off the
    node's own fields: once [removeNodeAtPath] has removed the node a path
    addresses, the path matches no node of the tree it returned, and
    removing by the same path again raises.  The path addresses the node:
    at every level down to it the node on the path is the only one of its
    siblings with its key, and every sibling at that level, the node on
    the path included, can be passed by the index-seeking traversal. *)
Theorem removed_path_is_off_the_tree :
  forall (St : Type) (t : Tree) (path : list Key) (n : Node) (i : Z) (s : St),
    Addresses byLabel ignoreCollapsed t 0 path n i ->
    exists t',
      removeNodeAtPath noFields (pureKey byLabel) t path ignoreCollapsed s
      = (s, Ok (Items t'))
      /\ ~ pathMatches byLabel ignoreCollapsed t' path
      /\ exists e,
           snd (removeNodeAtPath noFields (pureKey byLabel) t' path
                  ignoreCollapsed s)
           = Throw e.
Proof.
  intros St t path n i s Haddr.
  destruct (addresses_removed Haddr) as (shown & t' & Hchanged & Hoff).
  exists t'.
  assert (Hnot : ~ pathMatches byLabel ignoreCollapsed t' path).
  { intros (m & j & Hleads). exact (Hoff _ _ _ Hleads). }
  split; [|split; [exact Hnot|]].
  - apply (@mutation_changed_tree St byLabel (NewValue PNull) ignoreCollapsed
             t t' path n i None shown s s PNull Hchanged eq_refl eq_refl).
  - destruct (removeNodeAtPath noFields (pureKey byLabel) t' path
                ignoreCollapsed s) as [s' [result|e]] eqn:Hrun;
      [|exists e; reflexivity].
    exfalso. apply Hnot.
    apply (@changeNodeAtPath_returns_on_match St byLabel (NewValue PNull)
             ignoreCollapsed t' path s s' result);
      [|exact Hrun].
    pose proof (changed_path_nonempty Hchanged).
    destruct path; [cbn in *; lia | discriminate].
Qed.

End RemovedTwice.

(* ------------------------------------------------------------------ *)
(** *** What the mutation can raise *)

Section Faults.

Variable St : Type.
Variable getNodeKey : Node -> Z -> St -> St * Key.

Lemma seekChildren_returns target cc path lsc rest :
  Forall (fun c => arrayOnly c = true -> forall idx path lsc ic s,
            exists s' res,
              getNodeDataAtTreeIndexOrNextIndex getNodeKey c idx target path
                lsc ic false s = (s', Ok res)) rest ->
  forallb (@arrayOnly Fields) rest = true ->
  forall i childIndex s,
  exists s' res,
    seekChildren
      (fun child childIndex below =>
         getNodeDataAtTreeIndexOrNextIndex getNodeKey child childIndex target
           path (lsc ++ [below]) true false) cc rest i childIndex s
    = (s', Ok res).
Proof.
  induction 1 as [|c rest Hc _ IH]; intros Hs i childIndex s.
  - do 2 eexists. reflexivity.
  - cbn [forallb] in Hs. apply andb_true_iff in Hs. destruct Hs as [Hsc Hsr].
    cbn [seekChildren]. unfold bind at 1.
    destruct (Hc Hsc childIndex path (lsc ++ [cc - i - 1]) true s)
      as (s1 & res & ->).
    destruct res as [r|next]; [do 2 eexists; reflexivity | apply IH; exact Hsr].
Qed.

Lemma getNodeData_returns target (n : Node) :
  arrayOnly n = true ->
  forall idx path lsc ic s,
  exists s' res,
    getNodeDataAtTreeIndexOrNextIndex getNodeKey n idx target path lsc ic
      false s = (s', Ok res).
Proof.
  induction n as [f e|f e items IH|f e a] using Node_induction;
    intros Hs idx path lsc ic s; rewrite getNodeData_step;
    destruct (getNodeKey _ idx s) as [s1 k];
    (destruct (idx =? target); [do 2 eexists; reflexivity|]);
    (destruct (_ || _); [do 2 eexists; reflexivity|]);
    cbn [children].
  - do 2 eexists; reflexivity.
  - apply seekChildren_returns; [exact IH | exact Hs].
  - discriminate.
Qed.

Lemma nextIndexAfter_returns ic (c : Node) idx s :
  arrayOnly c = true -> 0 <= idx ->
  exists s' next,
    nextIndexAfter getNodeKey ic c idx s = (s', Ok next) /\ idx < next.
Proof.
  intros Hs Hidx.
  destruct (nextIndexAfter getNodeKey ic c idx s) as [s' out] eqn:Hrun.
  pose proof (nextIndexAfter_onward _ _ _ _ Hidx Hrun) as [Hkept Hnext].
  unfold nextIndexAfter, bind in Hrun.
  destruct (@getNodeData_returns (-1) c Hs idx [] [] ic s)
    as (s1 & res & Hseek).
  rewrite Hseek in Hrun. destruct res as [r|next].
  - injection Hrun as _ <-. congruence.
  - injection Hrun as <- <-. exists s1, next. split; [reflexivity|].
    apply Hnext. reflexivity.
Qed.

Variable path : list Key.
Variable newNode : NewNode Fields St.
Variable ignoreCollapsed : bool.

#[local] Abbreviation traverse :=
  (changeNodeAtPath_traverse getNodeKey path newNode ignoreCollapsed).

Lemma traverseChildren_raises (q : Z) rest :
  Forall (fun c => arrayOnly c = true -> forall idx s s' e,
            0 <= idx ->
            traverse false c idx q s = (s', Throw e) ->
            e = NoChildrenOnPath) rest ->
  forallb (@arrayOnly Fields) rest = true ->
  forall node all i0 idx s s' e,
    0 <= idx ->
    traverseChildren (fun c j => traverse false c j q)
      (nextIndexAfter getNodeKey ignoreCollapsed) node all rest i0 idx s
    = (s', Throw e) ->
    e = NoChildrenOnPath.
Proof.
  induction 1 as [|c rest Hc _ IH]; intros Hs node all i0 idx s s' e Hidx Hrun.
  - discriminate.
  - cbn [forallb] in Hs. apply andb_true_iff in Hs. destruct Hs as [Hsc Hsr].
    cbn [traverseChildren] in Hrun. unfold bind at 1 in Hrun.
    destruct (traverse false c idx q s) as [s1 [v|e1]] eqn:Hvisit.
    + destruct v as [r| | |]; try discriminate.
      unfold bind at 1 in Hrun.
      destruct (@nextIndexAfter_returns ignoreCollapsed c idx s1 Hsc Hidx)
        as (s2 & next & Hskip & Hnext).
      rewrite Hskip in Hrun.
      apply (IH Hsr node all (S i0) next s2 s' e); [lia | exact Hrun].
    + injection Hrun as _ <-. eapply Hc; eassumption.
Qed.

Lemma traverse_raises (n : Node) :
  arrayOnly n = true ->
  forall isPseudoRoot idx q s s' e,
    -1 <= idx ->
    traverse isPseudoRoot n idx q s = (s', Throw e) ->
    e = NoChildrenOnPath.
Proof.
  induction n as [f e0|f e0 items IH|f e0 a] using Node_induction;
    intros Hs pr idx q s s' e Hidx Hrun; rewrite traverse_step in Hrun;
    destruct (if pr then _ else _) as [s1 miss];
    (destruct miss; [discriminate|]);
    (destruct (q >=? _);
     [destruct newNode as [v|g]; [discriminate|];
      destruct (g _ idx s1); discriminate|]);
    cbn [noChildren children] in Hrun.
  - congruence.
  - apply (@traverseChildren_raises (q + 1) items) in Hrun;
      [exact Hrun | | exact Hs | lia].
    eapply Forall_impl; [|exact IH].
    intros c Hc Hsc cidx cs cs' ce Hcidx. apply Hc; [exact Hsc | lia].
  - discriminate.
Qed.

(** X22 (errors of the mutation): on a tree none of whose nodes holds a
    function for children, [changeNodeAtPath] with a path that is not
    empty ends in one of three ways, whatever the key function and the
    producer return: it returns a tree, or it raises one of its own two
    errors. *)
Theorem mutation_raises_only_its_two_errors :
  forall (t : Tree) (s : St),
    forallb (@arrayOnly Fields) t = true ->
    path <> [] ->
    exists s',
      (exists changed,
          changeNodeAtPath noFields getNodeKey path newNode ignoreCollapsed t s
          = (s', Ok (Items changed)))
      \/ changeNodeAtPath noFields getNodeKey path newNode ignoreCollapsed t s
         = (s', Throw NoNodeFound)
      \/ changeNodeAtPath noFields getNodeKey path newNode ignoreCollapsed t s
         = (s', Throw NoChildrenOnPath).
Proof.
  intros t s Hs Hpath.
  assert (Hlen : 0 < Z.of_nat (length path))
    by (destruct path; [congruence | cbn [length]; lia]).
  unfold changeNodeAtPath, bind.
  destruct (traverse true (MkNode noFields None (Items t)) (-1) (-1) s)
    as [s1 [v|e]] eqn:Htop; exists s1.
  - apply traverse_shared in Htop; [|lia].
    destruct Htop as [->|(items & items' & _ & -> & _)].
    + right. left. reflexivity.
    + left. exists items'. reflexivity.
  - right. right. apply traverse_raises in Htop; [|exact Hs|lia].
    subst e. reflexivity.
Qed.

End Faults.

(* ------------------------------------------------------------------ *)
(** *** What [ignoreCollapsed] does to the mutation *)

Lemma nextIndexAfter_pure_returns (St : Type) (key : Node -> Z -> Key) ic
  (c : Node) idx (s : St) :
  arrayOnly c = true -> 0 <= idx ->
  exists next,
    nextIndexAfter (pureKey key) ic c idx s = (s, Ok next) /\ idx < next.
Proof.
  intros Hs Hidx.
  destruct (@nextIndexAfter_returns St (pureKey key) ic c idx s Hs Hidx)
    as (s' & next & Hskip & Hnext).
  exists next. split; [|exact Hnext].
  rewrite nextIndexAfter_pure in Hskip |- *. congruence.
Qed.

Section Unnumbered.

Variable St : Type.
Variable label : Fields -> Key.
Variable path : list Key.
Variable v : Produced Fields.

#[local] Abbreviation byLabel :=
  (fun (n : Node) (_ : Z) => label (fields n)).
#[local] Abbreviation traverse :=
  (fun ic =>
     changeNodeAtPath_traverse (@pureKey Fields St byLabel) path (NewValue v)
       ic).
#[local] Abbreviation skip :=
  (fun ic => nextIndexAfter (@pureKey Fields St byLabel) ic).

Lemma traverseChildren_unnumbered (q : Z) rest :
  Forall (fun c => arrayOnly c = true -> forall idx idx' s,
            0 <= idx -> 0 <= idx' ->
            traverse true false c idx q s = traverse false false c idx' q s)
         rest ->
  forallb (@arrayOnly Fields) rest = true ->
  forall node all i0 idx idx' s,
    0 <= idx -> 0 <= idx' ->
    traverseChildren (fun c j => traverse true false c j q) (skip true) node
      all rest i0 idx s
    = traverseChildren (fun c j => traverse false false c j q) (skip false)
        node all rest i0 idx' s.
Proof.
  induction 1 as [|c rest Hc _ IH];
    intros Hs node all i0 idx idx' s Hidx Hidx'; [reflexivity|].
  cbn [forallb] in Hs. apply andb_true_iff in Hs. destruct Hs as [Hsc Hsr].
  cbn [traverseChildren]. unfold bind.
  rewrite (Hc Hsc idx idx' s Hidx Hidx').
  destruct (changeNodeAtPath_traverse _ path (NewValue v) false false c idx'
              q s) as [s1 [[r| | |]|e]];
    try reflexivity.
  destruct (@nextIndexAfter_pure_returns St byLabel true c idx s1 Hsc Hidx)
    as (next & -> & Hnext).
  destruct (@nextIndexAfter_pure_returns St byLabel false c idx' s1 Hsc Hidx')
    as (next' & -> & Hnext').
  apply IH; [exact Hsr | lia | lia].
Qed.

Lemma traverse_unnumbered (n : Node) :
  arrayOnly n = true ->
  forall isPseudoRoot idx idx' q s,
    -1 <= idx -> -1 <= idx' ->
    traverse true isPseudoRoot n idx q s
    = traverse false isPseudoRoot n idx' q s.
Proof.
  induction n as [f e|f e items IH|f e a] using Node_induction;
    intros Hs pr idx idx' q s Hidx Hidx'; rewrite !traverse_step;
    cbn [pureKey observedKey fields];
    (destruct (if pr then _ else _) as [s1 miss]);
    (destruct miss; [reflexivity|]);
    (destruct (q >=? _); [reflexivity|]);
    cbn [noChildren children]; try reflexivity.
  apply traverseChildren_unnumbered; [|exact Hs|lia|lia].
  eapply Forall_impl; [|exact IH].
  intros c Hc Hsc cidx cidx' cs Hcidx Hcidx'.
  apply Hc; [exact Hsc | lia | lia].
Qed.

(** X23 (option and result): [ignoreCollapsed] numbers the nodes and does
    nothing else. With a key function that reads the key off the node's
    own fields and a replacement given as a value, on a tree none of whose
    nodes holds a function for children, [changeNodeAtPath] ends the same
    way with [ignoreCollapsed: true] and with [ignoreCollapsed: false]:
    the same tree, or the same error. *)
Theorem ignoreCollapsed_only_numbers_the_nodes :
  forall (t : Tree) (s : St),
    forallb (@arrayOnly Fields) t = true ->
    changeNodeAtPath noFields (pureKey byLabel) path (NewValue v) true t s
    = changeNodeAtPath noFields (pureKey byLabel) path (NewValue v) false t s.
Proof.
  intros t s Hs. unfold changeNodeAtPath, bind.
  rewrite (@traverse_unnumbered (MkNode noFields None (Items t)) Hs true
             (-1) (-1) (-1) s) by lia.
  reflexivity.
Qed.

End Unnumbered.

(* ------------------------------------------------------------------ *)
(** *** A path that goes on past a node with no child to offer *)

(** X24 (empty array on the path): the error about a node with no
    children is kept for a node without [children].  Under a pure key
    function, when the path goes on past a node whose [children] is an
    empty array, or a function that declares no parameter, and the path
    addresses that node (at every level down to it the node on the path is
    the only one of its siblings with its key, and every sibling at that
    level, before or after it and the node itself, can be passed by the
    index-seeking traversal: [getNodeDataAtTreeIndexOrNextIndex] with
    target -1 returns a [nextIndex] for it), [changeNodeAtPath] finds
    nothing to compare the next key with and raises 'No node found at the
    given path.' instead. *)
Theorem path_past_an_empty_array_finds_no_node :
  forall (St : Type) (key : Node -> Z -> Key) (newNode : NewNode Fields St)
         (ignoreCollapsed : bool) (t : Tree) (p more : list Key) (n : Node)
         (i : Z) (s : St),
    Addresses key ignoreCollapsed t 0 p n i ->
    more <> [] ->
    children n = Items [] \/ children n = Lazy 0 ->
    changeNodeAtPath noFields (pureKey key) (p ++ more) newNode
      ignoreCollapsed t s
    = (s, Throw NoNodeFound).
Proof.
  intros St key newNode ic t p more n i s Haddr Hmore Hch.
  pose proof (@changeNodeAtPath_addressed St key newNode ic p more n i t s
                Haddr) as [Hst Hout].
  cbv zeta in Hst, Hout.
  rewrite (@traverse_at_target St key newNode ic p more n i t 0 s Haddr)
    in Hst, Hout.
  destruct more as [|m more]; [congruence|].
  assert (Hmiss : (if noChildren n then (s, Throw NoChildrenOnPath)
                   else match children n with
                        | Absent => (s, Throw NoChildrenOnPath)
                        | Items items =>
                            traverseChildren
                              (fun child nextTreeIndex =>
                                 changeNodeAtPath_traverse (pureKey key)
                                   (p ++ m :: more) newNode ic false child
                                   nextTreeIndex (Z.of_nat (length p) - 1 + 1))
                              (nextIndexAfter (pureKey key) ic) n items items
                              O (i + 1) s
                        | Lazy O => (s, Ok PMiss)
                        | Lazy (S _) => (s, Throw UndefinedChild)
                        end)
                  = (s, @Ok (Produced Fields) PMiss)).
  { unfold noChildren. destruct Hch as [-> | ->]; reflexivity. }
  rewrite Hmiss in Hst, Hout. cbn [fst snd] in Hst, Hout.
  destruct (changeNodeAtPath noFields (pureKey key) (p ++ m :: more) newNode
              ic t s) as [s' out].
  cbn [fst snd] in Hst, Hout. subst s' out. reflexivity.
Qed.

(* ------------------------------------------------------------------ *)
(** *** How often the mutation runs the producer *)

Section ProducerRuns.

Variable key : Node -> Z -> Key.
Variable make : Node -> Z -> Produced Fields.
Variable path : list Key.
Variable ignoreCollapsed : bool.

Hypothesis make_no_miss : forall n i, make n i <> PMiss.

#[local] Abbreviation Log := (list (Event Fields)).
#[local] Abbreviation traverse :=
  (changeNodeAtPath_traverse (@pureKey Fields Log key) path
     (recordingProducer make) ignoreCollapsed).
#[local] Abbreviation skip :=
  (nextIndexAfter (@pureKey Fields Log key) ignoreCollapsed).

Lemma traverseChildren_produces_once (q : Z) rest :
  Forall (fun c => forall idx log,
            (fst (traverse false c idx q log) = log
             /\ (snd (traverse false c idx q log) = Ok PMiss
                 \/ exists e, snd (traverse false c idx q log) = Throw e))
            \/ exists m j v,
                 traverse false c idx q log
                 = (log ++ [ProducerCalled m j], Ok v) /\ v <> PMiss) rest ->
  forall node all i0 idx log,
    (fst (traverseChildren (fun c j => traverse false c j q) skip node all
            rest i0 idx log) = log
     /\ (snd (traverseChildren (fun c j => traverse false c j q) skip node all
                rest i0 idx log) = Ok PMiss
         \/ exists e,
              snd (traverseChildren (fun c j => traverse false c j q) skip
                     node all rest i0 idx log) = Throw e))
    \/ exists m j r,
         traverseChildren (fun c j => traverse false c j q) skip node all
           rest i0 idx log
         = (log ++ [ProducerCalled m j], Ok (PNode r)).
Proof.
  induction 1 as [|c rest Hc _ IH]; intros node all i0 idx log.
  - left. cbn. auto.
  - cbn [traverseChildren]. unfold bind at 1 3 5 7.
    destruct (Hc idx log) as [[Hlog Hout]|(m & j & v & Hrun & Hv)].
    + destruct (traverse false c idx q log) as [log1 out].
      cbn [fst snd] in Hlog, Hout. subst log1.
      destruct Hout as [->|[e ->]]; [|left; cbn; eauto].
      unfold bind. rewrite nextIndexAfter_pure.
      destruct (skipEnd key ignoreCollapsed c idx) as [next|e];
        [apply IH | left; cbn; eauto].
    + rewrite Hrun. right. exists m, j.
      destruct v as [r| | |]; [| | |congruence]; eexists; reflexivity.
Qed.

Lemma traverse_produces_once (n : Node) :
  forall isPseudoRoot idx p log,
    (fst (traverse isPseudoRoot n idx p log) = log
     /\ (snd (traverse isPseudoRoot n idx p log) = Ok PMiss
         \/ exists e, snd (traverse isPseudoRoot n idx p log) = Throw e))
    \/ exists m j v,
         traverse isPseudoRoot n idx p log
         = (log ++ [ProducerCalled m j], Ok v)
         /\ v <> PMiss
         /\ (p < Z.of_nat (length path) - 1 -> exists r, v = PNode r).
Proof.
  induction n as [f e|f e items IH|f e a] using Node_induction;
    intros pr idx p log; rewrite traverse_step; cbn [pureKey observedKey];
    (destruct (if pr then _ else _) as [log1 miss] eqn:Hmiss;
     assert (log1 = log) by (destruct pr; congruence); subst log1; clear Hmiss);
    (destruct miss; [left; cbn; auto|]);
    (destruct (p >=? Z.of_nat (length path) - 1) eqn:Hfinal;
     [right; cbn; do 3 eexists; split; [reflexivity|];
      split; [apply make_no_miss|];
      intros Hlt; apply Z.geb_le in Hfinal; lia|]);
    cbn [noChildren children].
  - left. cbn. eauto.
  - destruct (@traverseChildren_produces_once (p + 1) items
                ltac:(eapply Forall_impl; [|exact IH];
                      intros c Hc cidx clog;
                      destruct (Hc false cidx (p + 1) clog)
                        as [Hl|(m & j & v & Hrun & Hv & _)];
                      [left; exact Hl | right; eauto])
                (MkNode f e (Items items)) items O (idx + 1) log)
      as [Hl|(m & j & r & Hrun)].
    + left. exact Hl.
    + right. exists m, j, (PNode r). split; [exact Hrun|].
      split; [discriminate | eauto].
  - left. destruct a; cbn; eauto.
Qed.

(** X14 (producer runs): on a tree none of whose nodes holds a function
    for children, with a pure key function, a producer that never hands
    back the text ['RESULT_MISS'] and a path that is not empty,
    [changeNodeAtPath] runs the producer exactly once when it returns a
    tree, and not at all when it raises, which it then does with one of
    its own two errors. *)
Theorem producer_runs_once_on_success_only :
  forall (t : Tree),
    forallb (@arrayOnly Fields) t = true ->
    path <> [] ->
    (exists n i result,
        changeNodeAtPath noFields (pureKey key) path (recordingProducer make)
          ignoreCollapsed t []
        = ([ProducerCalled n i], Ok result))
    \/ changeNodeAtPath noFields (pureKey key) path (recordingProducer make)
         ignoreCollapsed t []
       = ([], Throw NoNodeFound)
    \/ changeNodeAtPath noFields (pureKey key) path (recordingProducer make)
         ignoreCollapsed t []
       = ([], Throw NoChildrenOnPath).
Proof.
  intros t Hs Hpath. unfold changeNodeAtPath, bind.
  destruct (traverse_produces_once (MkNode noFields None (Items t)) true
              (-1) (-1) []) as [[Hlog Hout]|(m & j & v & Hrun & _ & Hnode)].
  - right. destruct (traverse true _ (-1) (-1) []) as [log out] eqn:Htop.
    cbn [fst snd] in Hlog, Hout. subst log.
    destruct Hout as [->|[e ->]]; [left; reflexivity|].
    right. apply traverse_raises in Htop; [|exact Hs|lia].
    subst e. reflexivity.
  - left. rewrite Hrun.
    destruct Hnode as [r ->]; [destruct path; [congruence | cbn [length]; lia]|].
    do 3 eexists. reflexivity.
Qed.

End ProducerRuns.

End CoreLemmas.

(* ================================================================== *)
(** ** The properties on concrete trees *)

Open Scope string_scope.

(** The scenarios of the specification. *)
Example scenario_count : getVisibleNodeCount scenarioTree = 4.
Proof. reflexivity. Qed.

Example scenario_resolve_2 :
  getVisibleNodeInfoAtIndex noId (pureKey keyById) scenarioTree 2 tt
  = (tt, Ok (Some (MkInfo (leaf "c") [1; 0] [KStr "a"; KStr "c"]))).
Proof. reflexivity. Qed.

Example scenario_collapsed :
  getVisibleNodeCount collapsedTree = 2
  /\ getVisibleNodeInfoAtIndex noId (pureKey keyById) collapsedTree 1 tt
     = (tt, Ok (Some (MkInfo (leaf "d") [0] [KStr "d"]))).
Proof. split; reflexivity. Qed.

Example scenario_remove :
  removeNodeAtPath noId (pureKey keyById) scenarioTree [KStr "a"; KStr "b"]
    true tt
  = (tt, Ok (Items afterRemoval)).
Proof. reflexivity. Qed.

Example scenario_missing_path :
  changeNodeAtPath noId (pureKey keyById) [KStr "a"; KStr "x"]
    (NewValue (PNode (leaf "z"))) true scenarioTree tt
  = (tt, Throw NoNodeFound).
Proof. reflexivity. Qed.

(* ------------------------------------------------------------------ *)
(** *** Function-valued children *)

(** C2 (flatten/resolve agreement) fails on [lazyTree], whose node [a] is
    expanded and has function-valued children: the visible count is 2 and the
    flattened array has the record of [b] at position 1, but index
    resolution for 1 runs into the slots of the function. *)
Theorem lazy_children_break_flatten_agreement :
  getVisibleNodeCount lazyTree = 2
  /\ (exists flattened,
         getVisibleNodeInfoFlattened noId (pureKey keyById) lazyTree tt
         = (tt, Ok flattened)
         /\ nth_error flattened 1
            = Some (Some (MkInfo (leaf "b") [0] [KStr "b"])))
  /\ getVisibleNodeInfoAtIndex noId (pureKey keyById) lazyTree 1 tt
     = (tt, Throw UndefinedChild).
Proof.
  split; [reflexivity|]. split; [|reflexivity].
  eexists. split; reflexivity.
Qed.

(** C1 (round-trip lookup) fails on [lazyTree]: index 1 is visible, but
    index resolution yields no path for it, and the path of [b] handed to
    [changeNodeAtPath] makes it fail while skipping [a], before the
    producer is ever invoked. *)
Theorem lazy_children_break_round_trip :
  0 <= 1 < getVisibleNodeCount lazyTree
  /\ keysUniqueAmongSiblings keyById lazyTree
  /\ getVisibleNodeInfoAtIndex noId (pureKey keyById) lazyTree 1 tt
     = (tt, Throw UndefinedChild)
  /\ changeNodeAtPath noId (pureKey keyById) [KStr "b"]
       (recordingProducer sameNode) true lazyTree []
     = ([], Throw UndefinedChild).
Proof.
  split; [cbn; lia|]. split; [|split; reflexivity].
  split; cbn.
  - repeat constructor; cbn; intuition discriminate.
  - repeat split.
Qed.

(* ------------------------------------------------------------------ *)
(** *** Early termination, on the scenario tree *)

Lemma walk_stops_at_first_refusal_witness :
  walkOrder noId keyById true scenarioTree = ([rowA] ++ rowB :: [rowC; rowD])%list
  /\ (forall pre x post,
         [rowA] = (pre ++ x :: post)%list -> stopAtSecond pre x = true)
  /\ stopAtSecond [rowA] rowB = false
  /\ walk noId (pureKey keyById) (decidingCallback stopAtSecond) scenarioTree
       true []
     = (([rowA] ++ [rowB])%list, Ok (Some Stopped)).
Proof.
  assert (H1 : walkOrder noId keyById true scenarioTree
               = ([rowA] ++ rowB :: [rowC; rowD])%list) by reflexivity.
  assert (H2 : forall pre x post,
             [rowA] = (pre ++ x :: post)%list -> stopAtSecond pre x = true).
  { intros [|y pre] x post H; [reflexivity|].
    destruct pre; discriminate. }
  assert (H3 : stopAtSecond [rowA] rowB = false) by reflexivity.
  split; [exact H1|]. split; [exact H2|]. split; [exact H3|].
  exact (@walk_stops_at_first_refusal string noId keyById true scenarioTree
           stopAtSecond [rowA] [rowC; rowD] rowB H1 H2 H3).
Defined.

(* ------------------------------------------------------------------ *)
(** *** Collapsing [a] in the scenario tree *)

Lemma collapsed_node_counts_once_witness :
  notExpanded collapsedA = true
  /\ noChildren collapsedA = false
  /\ getVisibleNodeCount_traverse collapsedA = 1
  /\ getVisibleNodeCount scenarioTree
     = getVisibleNodeCount collapsedTree
       + visibleDescendantCount noId keyById collapsedA.
Proof.
  split; [reflexivity|]. split; [reflexivity|].
  destruct (@collapsed_node_counts_once string noId keyById collapsedA
              eq_refl eq_refl) as (H1 & _ & _ & H4).
  split; [exact H1|].
  apply (H4 collapsedTree scenarioTree).
  exact (expands_here collapsedA [] [leaf "d"]).
Defined.

(* ------------------------------------------------------------------ *)
(** *** Replacing [c] in the scenario tree *)

Lemma structural_sharing_witness :
  [KStr "a"; KStr "c"] <> []
  /\ changeNodeAtPath noId (pureKey keyById) [KStr "a"; KStr "c"]
       (NewValue (PNode replacement)) true scenarioTree tt
     = (tt, Ok (Items withReplacement))
  /\ exists changed,
       Items withReplacement = Items changed
       /\ SharedAlong keyById true scenarioTree 0 [KStr "a"; KStr "c"]
            changed.
Proof.
  assert (H1 : [KStr "a"; KStr "c"] <> []) by discriminate.
  assert (H2 : changeNodeAtPath noId (pureKey keyById) [KStr "a"; KStr "c"]
                 (NewValue (PNode replacement)) true scenarioTree tt
               = (tt, Ok (Items withReplacement))) by reflexivity.
  split; [exact H1|]. split; [exact H2|].
  exact (@structural_sharing string noId unit keyById [KStr "a"; KStr "c"]
           (NewValue (PNode replacement)) true scenarioTree tt tt
           (Items withReplacement) H1 H2).
Defined.

(* ------------------------------------------------------------------ *)
(** *** Mutation failures, on the scenario tree *)



Lemma scenario_addresses_c :
  Addresses keyById true scenarioTree 0 [KStr "a"; KStr "c"] (leaf "c") 2.
Proof.
  eapply addr_below with (idx' := 3);
    [reflexivity | reflexivity | | reflexivity |].
  - eapply addr_later with (idx' := 2); [discriminate | reflexivity |].
    eapply addr_here with (idx' := 3); [reflexivity | reflexivity | constructor].
  - eapply none_cons with (idx' := 4); [discriminate | reflexivity | constructor].
Qed.



(* ------------------------------------------------------------------ *)
(** *** The pseudo-root, on the scenario tree *)

(** C7 as stated fails for the target index -1: index resolution returns
    the pseudo-root it built around the tree. *)
Lemma pseudoRoot_returned_at_minus_one :
  exists r,
    getVisibleNodeInfoAtIndex noId (pureKey keyById) scenarioTree (-1) tt
    = (tt, Ok (Some r))
    /\ node r = MkNode noId (Some true) (Items scenarioTree)
    /\ path r = []
    /\ ~ aboutTree keyById scenarioTree (node r) (path r) (lowerSiblingCounts r).
Proof.
  eexists. split; [reflexivity|]. split; [reflexivity|]. split; [reflexivity|].
  intros (Hin & _). exact (pseudoRoot_outside _ _ _ Hin).
Qed.

Lemma pseudoRoot_never_emitted_witness :
  2 <> -1
  /\ getVisibleNodeInfoAtIndex noId (pureKey keyById) scenarioTree 2 tt
     = (tt, Ok (Some (toInfo rowC)))
  /\ aboutTree keyById scenarioTree (leaf "c") [KStr "a"; KStr "c"] [1; 0]
  /\ In (Visited rowB) (visitedBy noId keyById true scenarioTree stopAtOne)
  /\ aboutTree keyById scenarioTree (w_node rowB) (w_path rowB)
       (w_lowerSiblingCounts rowB)
  /\ 0 <= w_treeIndex rowB.
Proof.
  assert (H1 : 2 <> -1) by discriminate.
  assert (H2 : getVisibleNodeInfoAtIndex noId (pureKey keyById) scenarioTree 2 tt
               = (tt, Ok (Some (toInfo rowC)))) by reflexivity.
  assert (H3 : In (Visited rowB)
                 (visitedBy noId keyById true scenarioTree stopAtOne))
    by (right; left; reflexivity).
  destruct (@pseudoRoot_never_emitted string noId keyById scenarioTree)
    as [Hresolve Hwalk].
  split; [exact H1|]. split; [exact H2|]. split.
  - exact (Hresolve unit tt tt 2 (toInfo rowC) H1 H2).
  - split; [exact H3|]. exact (Hwalk true stopAtOne rowB H3).
Defined.

(* ------------------------------------------------------------------ *)
(** *** Key calls, on the scenario tree *)

(** C8 as stated fails for path-addressed mutation: replacing [d], the
    mutation keys [a] when it compares it with the path and again when it
    skips over it. *)
Lemma mutation_keys_rejected_sibling_twice :
  fst (changeNodeAtPath noId (recordingKey keyById) [KStr "d"]
         (NewValue (PNode (leaf "z"))) true scenarioTree [])
  = [KeyCalled (w_node rowA) 0; KeyCalled (w_node rowA) 0;
     KeyCalled (leaf "b") 1; KeyCalled (leaf "c") 2; KeyCalled (leaf "d") 3].
Proof. reflexivity. Qed.

Lemma key_called_once_per_visit_witness :
  2 <> -1
  /\ treeSeekable scenarioTree = true
  /\ fst (walk noId (recordingKey keyById) (recordingCallback stopAtOne)
            scenarioTree true [])
     = keyedThenVisited [rowA; rowB]
  /\ exists infos,
       getVisibleNodeInfoFlattened noId (recordingKey keyById) scenarioTree []
       = (keyedInOrder 0 infos, Ok (map (@Some (NodeInfo string)) infos))
       /\ getVisibleNodeInfoAtIndex noId (recordingKey keyById) scenarioTree 2 []
          = (keyedInOrder 0 (firstn (Z.to_nat 2 + 1) infos),
             Ok (Some (toInfo rowC)))
       /\ nth_error infos (Z.to_nat 2) = Some (toInfo rowC).
Proof.
  assert (H1 : 2 <> -1) by discriminate.
  assert (H2 : snd (getVisibleNodeInfoAtIndex noId (recordingKey keyById)
                      scenarioTree 2 [])
               = Ok (Some (toInfo rowC))) by reflexivity.
  assert (H3 : treeSeekable scenarioTree = true) by reflexivity.
  destruct (@key_called_once_per_visit string noId keyById scenarioTree)
    as [Hwalk (infos & Hflat & Hresolve)].
  split; [exact H1|]. split; [exact H3|].
  split; [exact (Hwalk true stopAtOne)|].
  exists infos. split; [exact Hflat|].
  destruct (Hresolve H3 2) as (k & out & Hrun & Hfound).
  rewrite Hrun in H2. cbn [snd] in H2.
  assert (H4 : out = Some (toInfo rowC)) by congruence.
  destruct (Hfound (toInfo rowC) H1 H4) as [Hk Hnth].
  split; [|exact Hnth].
  rewrite <- Hk, <- H4. exact Hrun.
Defined.

(* ------------------------------------------------------------------ *)
(** *** The sentinel text as a producer result *)

(** C10 as stated fails when two siblings have the same key: the path
    [a, b] exists in [twinTree] and the producer returns 'RESULT_MISS' for
    [b], but the failure raised is the one about a node with no children,
    met on the second [a].  It also fails when the addressed node cannot
    be skipped: after the miss on [a] in [loadingTree] the mutation runs
    into the slots of the function-valued children of [a]. *)
Lemma sentinel_miss_raises_other_failures :
  (pathMatches keyById true twinTree [KStr "a"; KStr "b"]
   /\ produce (NewValue PMiss) (leaf "b") 1 tt = (tt, PMiss)
   /\ changeNodeAtPath noId (pureKey keyById) [KStr "a"; KStr "b"]
        (NewValue PMiss) true twinTree tt
      = (tt, Throw NoChildrenOnPath))
  /\ (pathMatches keyById true loadingTree [KStr "a"]
      /\ produce (NewValue PMiss) (lazyBranch "a" (Some true)) 0 tt = (tt, PMiss)
      /\ changeNodeAtPath noId (pureKey keyById) [KStr "a"] (NewValue PMiss)
           true loadingTree tt
         = (tt, Throw UndefinedChild)).
Proof.
  split; (split; [|split; reflexivity]).
  - exists (leaf "b"), 1.
    eapply leads_below; [reflexivity | reflexivity |]. apply leads_here.
    reflexivity.
  - exists (lazyBranch "a" (Some true)), 0. apply leads_here. reflexivity.
Qed.

Lemma sentinel_result_is_a_miss_witness :
  Addresses keyById true scenarioTree 0 [KStr "a"; KStr "c"] (leaf "c") 2
  /\ produce (NewValue PMiss) (leaf "c") 2 tt = (tt, PMiss)
  /\ changeNodeAtPath noId (pureKey keyById) [KStr "a"; KStr "c"]
       (NewValue PMiss) true scenarioTree tt
     = (tt, Throw NoNodeFound).
Proof.
  assert (H2 : produce (NewValue (St := unit) PMiss) (leaf "c") 2 tt = (tt, PMiss))
    by reflexivity.
  split; [exact scenario_addresses_c|]. split; [exact H2|].
  exact (@sentinel_result_is_a_miss string noId unit keyById (NewValue PMiss)
           true scenarioTree [KStr "a"; KStr "c"] (leaf "c") 2 tt tt
           scenario_addresses_c H2).
Defined.

Close Scope string_scope.

(* ================================================================== *)
(** ** The further properties on the scenario tree *)

Open Scope string_scope.

Lemma scenario_keys_unique : keysUniqueAmongSiblings keyById scenarioTree.
Proof.
  split; cbn.
  - repeat constructor; cbn; intuition discriminate.
  - repeat split. repeat constructor; cbn; intuition discriminate.
Qed.

Lemma scenario_range_2 : 0 <= 2 < getVisibleNodeCount scenarioTree.
Proof. cbn. lia. Qed.

Lemma scenario_changed_c :
  ChangedAt keyById true (leaf "c") 2 None true scenarioTree 0
    [KStr "a"; KStr "c"] withoutC.
Proof.
  apply (@changed_below string keyById true (leaf "c") 2 None true
           (branch "a" (Some true) [leaf "b"; leaf "c"]) [leaf "d"] 0
           (KStr "a") (KStr "c") [] [leaf "b"; leaf "c"] [leaf "b"]
           eq_refl eq_refl).
  apply (@changed_later string keyById true (leaf "c") 2 None true
           (leaf "b") [leaf "c"] 1 2 (KStr "c") [] []);
    [discriminate | reflexivity |].
  apply (@changed_here string keyById true (leaf "c") 2 None [] (KStr "c")).
  reflexivity.
Qed.

Lemma expanded_tree_is_all_visible_witness :
  forallb (@allExpanded string) scenarioTree = true
  /\ walkOrder noId keyById true scenarioTree
     = walkOrder noId keyById false scenarioTree
  /\ getVisibleNodeCount scenarioTree
     = Z.of_nat (length (treeNodes scenarioTree)).
Proof.
  split; [reflexivity|].
  exact (@expanded_tree_is_all_visible string noId keyById scenarioTree
           eq_refl).
Defined.

Lemma walk_records_follow_the_tree_witness :
  In rowB (walkOrder noId keyById true scenarioTree)
  /\ (memberRow keyById scenarioTree [] [] rowB
      \/ childRow keyById true (walkOrder noId keyById true scenarioTree)
           rowB).
Proof.
  assert (H : In rowB (walkOrder noId keyById true scenarioTree))
    by (right; left; reflexivity).
  split; [exact H|].
  exact (@walk_records_follow_the_tree string noId keyById true scenarioTree
           rowB H).
Defined.

Lemma walk_shows_every_child_of_a_shown_parent_witness :
  In rowA (walkOrder noId keyById true scenarioTree)
  /\ expanded (w_node rowA) = Some true
  /\ children (w_node rowA) = Items ([leaf "b"] ++ leaf "c" :: [])%list
  /\ exists rc,
       In rc (walkOrder noId keyById true scenarioTree)
       /\ w_node rc = leaf "c"
       /\ w_treeIndex rowA < w_treeIndex rc
       /\ w_path rc
          = (w_path rowA ++ [keyById (leaf "c") (w_treeIndex rc)])%list
       /\ w_lowerSiblingCounts rc
          = (w_lowerSiblingCounts rowA ++ [Z.of_nat (length (@nil (Node string)))])%list.
Proof.
  assert (H1 : In rowA (walkOrder noId keyById true scenarioTree))
    by (left; reflexivity).
  assert (H2 : expanded (w_node rowA) = Some true) by reflexivity.
  assert (H3 : children (w_node rowA)
               = Items ([leaf "b"] ++ leaf "c" :: [])%list) by reflexivity.
  split; [exact H1|]. split; [exact H2|]. split; [exact H3|].
  exact (proj2 (@walk_shows_every_child_of_a_shown_parent string noId keyById
                  true scenarioTree)
           rowA [leaf "b"] (leaf "c") [] H1 (fun _ => H2) H3).
Defined.

Lemma seek_passes_a_subtree_by_its_visible_count_witness :
  seekable (branch "a" (Some true) [leaf "b"; leaf "c"]) = true
  /\ (3 < 0
      \/ 0 + getVisibleNodeCount_traverse
               (branch "a" (Some true) [leaf "b"; leaf "c"]) <= 3)
  /\ getNodeDataAtTreeIndexOrNextIndex (pureKey keyById)
       (branch "a" (Some true) [leaf "b"; leaf "c"]) 0 3 [] [] true false tt
     = (tt, Ok (NextIndex
                  (0 + getVisibleNodeCount_traverse
                         (branch "a" (Some true) [leaf "b"; leaf "c"])))).
Proof.
  assert (H1 : seekable (branch "a" (Some true) [leaf "b"; leaf "c"]) = true)
    by reflexivity.
  assert (H2 : 3 < 0
               \/ 0 + getVisibleNodeCount_traverse
                        (branch "a" (Some true) [leaf "b"; leaf "c"]) <= 3)
    by (right; vm_compute; discriminate).
  split; [exact H1|]. split; [exact H2|].
  exact (@seek_passes_a_subtree_by_its_visible_count string unit keyById
           (branch "a" (Some true) [leaf "b"; leaf "c"]) 0 3 [] [] tt H1 H2).
Defined.

Lemma ignoreCollapsed_false_reaches_one_level_witness :
  forallb (@seekable string) [branch "b" None [leaf "c"]; leaf "d"] = true
  /\ (-1 < 0
      \/ 0 + 1 + getVisibleNodeCount [branch "b" None [leaf "c"]; leaf "d"]
         <= -1)
  /\ getNodeDataAtTreeIndexOrNextIndex (pureKey keyById)
       (MkNode "a" (Some false) (Items [branch "b" None [leaf "c"]; leaf "d"]))
       0 (-1) [] [] false false tt
     = (tt, Ok (NextIndex
                  (0 + 1
                   + getVisibleNodeCount
                       [branch "b" None [leaf "c"]; leaf "d"]))).
Proof.
  assert (H1 : forallb (@seekable string)
                 [branch "b" None [leaf "c"]; leaf "d"] = true)
    by reflexivity.
  assert (H2 : -1 < 0
               \/ 0 + 1
                  + getVisibleNodeCount [branch "b" None [leaf "c"]; leaf "d"]
                  <= -1)
    by (left; lia).
  split; [exact H1|]. split; [exact H2|].
  exact (@ignoreCollapsed_false_reaches_one_level string unit keyById "a"
           (Some false) [branch "b" None [leaf "c"]; leaf "d"] 0 (-1) [] []
           tt H1 H2).
Defined.

Lemma resolve_is_null_exactly_out_of_range_witness :
  treeSeekable scenarioTree = true
  /\ (snd (getVisibleNodeInfoAtIndex noId (pureKey keyById) scenarioTree 4 tt)
      = Ok None
      <-> scenarioTree = [] \/ 4 < -1 \/ getVisibleNodeCount scenarioTree <= 4).
Proof.
  split; [reflexivity|].
  exact (@resolve_is_null_exactly_out_of_range string noId unit keyById
           scenarioTree 4 tt eq_refl).
Defined.

Lemma resolve_returns_the_walk_record_witness :
  treeSeekable scenarioTree = true
  /\ 0 <= 2 < getVisibleNodeCount scenarioTree
  /\ exists r,
       nth_error (walkOrder noId keyById true scenarioTree) (Z.to_nat 2)
       = Some r
       /\ w_treeIndex r = 2
       /\ getVisibleNodeInfoAtIndex noId (pureKey keyById) scenarioTree 2 tt
          = (tt, Ok (Some (toInfo r))).
Proof.
  split; [reflexivity|]. split; [exact scenario_range_2|].
  exact (@resolve_returns_the_walk_record string noId unit keyById
           scenarioTree 2 tt eq_refl scenario_range_2).
Defined.

Lemma producer_runs_once_on_success_only_witness :
  (forall n i, sameNode n i <> PMiss)
  /\ forallb (@arrayOnly string) scenarioTree = true
  /\ [KStr "a"; KStr "c"] <> []
  /\ ((exists n i result,
          changeNodeAtPath noId (pureKey keyById) [KStr "a"; KStr "c"]
            (recordingProducer sameNode) true scenarioTree []
          = ([ProducerCalled n i], Ok result))
      \/ changeNodeAtPath noId (pureKey keyById) [KStr "a"; KStr "c"]
           (recordingProducer sameNode) true scenarioTree []
         = ([], Throw NoNodeFound)
      \/ changeNodeAtPath noId (pureKey keyById) [KStr "a"; KStr "c"]
           (recordingProducer sameNode) true scenarioTree []
         = ([], Throw NoChildrenOnPath)).
Proof.
  assert (H1 : forall n i, sameNode n i <> PMiss) by (intros n i; discriminate).
  assert (H2 : [KStr "a"; KStr "c"] <> []) by discriminate.
  assert (H3 : forallb (@arrayOnly string) scenarioTree = true) by reflexivity.
  split; [exact H1|]. split; [exact H3|]. split; [exact H2|].
  exact (@producer_runs_once_on_success_only string noId keyById sameNode
           [KStr "a"; KStr "c"] true H1 scenarioTree H3 H2).
Defined.

Lemma mutation_returns_the_changed_tree_witness :
  ChangedAt keyById true (leaf "c") 2 None true scenarioTree 0
    [KStr "a"; KStr "c"] withoutC
  /\ produce (NewValue (St := unit) PNull) (leaf "c") 2 tt = (tt, PNull)
  /\ asEdit (@PNull string) = Some None
  /\ changeNodeAtPath noId (pureKey keyById) [KStr "a"; KStr "c"]
       (NewValue PNull) true scenarioTree tt
     = (tt, Ok (Items withoutC)).
Proof.
  assert (H2 : produce (NewValue (St := unit) PNull) (leaf "c") 2 tt
               = (tt, PNull)) by reflexivity.
  assert (H3 : asEdit (@PNull string) = Some None) by reflexivity.
  split; [exact scenario_changed_c|]. split; [exact H2|]. split; [exact H3|].
  exact (@mutation_returns_the_changed_tree string noId unit keyById
           (NewValue PNull) true scenarioTree withoutC [KStr "a"; KStr "c"]
           (leaf "c") 2 None true tt tt PNull scenario_changed_c H2 H3).
Defined.

Lemma identity_change_returns_the_tree_witness :
  Addresses keyById true scenarioTree 0 [KStr "a"; KStr "c"] (leaf "c") 2
  /\ changeNodeAtPath noId (pureKey keyById) [KStr "a"; KStr "c"]
       (NewFunction (fun n _ s => (s, PNode n))) true scenarioTree tt
     = (tt, Ok (Items scenarioTree)).
Proof.
  split; [exact scenario_addresses_c|].
  exact (proj2 (@identity_change_returns_the_tree string noId unit true
                  scenarioTree [KStr "a"; KStr "c"])
           keyById (leaf "c") 2 tt scenario_addresses_c).
Defined.

Lemma replaced_node_is_found_at_its_index_witness :
  treeSeekable scenarioTree = true
  /\ keysUniqueAmongSiblings keyById scenarioTree
  /\ 0 <= 2 < getVisibleNodeCount scenarioTree
  /\ exists r t' r',
       getVisibleNodeInfoAtIndex noId (pureKey keyById) scenarioTree 2 tt
       = (tt, Ok (Some r))
       /\ changeNodeAtPath noId (pureKey keyById) (path r)
            (NewValue (PNode replacement)) true scenarioTree tt
          = (tt, Ok (Items t'))
       /\ getVisibleNodeInfoAtIndex noId (pureKey keyById) t' 2 tt
          = (tt, Ok (Some r'))
       /\ node r' = replacement.
Proof.
  split; [reflexivity|]. split; [exact scenario_keys_unique|].
  split; [exact scenario_range_2|].
  exact (@replaced_node_is_found_at_its_index string noId unit keyById
           scenarioTree 2 replacement tt eq_refl scenario_keys_unique
           scenario_range_2).
Defined.

Lemma removal_lowers_the_visible_count_witness :
  treeSeekable scenarioTree = true
  /\ keysUniqueAmongSiblings keyById scenarioTree
  /\ 0 <= 2 < getVisibleNodeCount scenarioTree
  /\ exists r t',
       getVisibleNodeInfoAtIndex noId (pureKey keyById) scenarioTree 2 tt
       = (tt, Ok (Some r))
       /\ removeNodeAtPath noId (pureKey keyById) scenarioTree (path r) true tt
          = (tt, Ok (Items t'))
       /\ getVisibleNodeCount t'
          = getVisibleNodeCount scenarioTree
            - getVisibleNodeCount_traverse (node r).
Proof.
  split; [reflexivity|]. split; [exact scenario_keys_unique|].
  split; [exact scenario_range_2|].
  exact (@removal_lowers_the_visible_count string noId unit keyById
           scenarioTree 2 tt eq_refl scenario_keys_unique scenario_range_2).
Defined.

Lemma paths_identify_visible_nodes_witness :
  treeSeekable scenarioTree = true
  /\ keysUniqueAmongSiblings keyById scenarioTree
  /\ 1 <> -1
  /\ getVisibleNodeInfoAtIndex noId (pureKey keyById) scenarioTree 1 tt
     = (tt, Ok (Some (toInfo rowB)))
  /\ path (toInfo rowB) = path (toInfo rowB)
  /\ 1 = 1.
Proof.
  assert (H3 : 1 <> -1) by discriminate.
  assert (H4 : getVisibleNodeInfoAtIndex noId (pureKey keyById) scenarioTree
                 1 tt = (tt, Ok (Some (toInfo rowB)))) by reflexivity.
  split; [reflexivity|]. split; [exact scenario_keys_unique|].
  split; [exact H3|]. split; [exact H4|]. split; [reflexivity|].
  exact (@paths_identify_visible_nodes string noId keyById unit scenarioTree
           1 1 (toInfo rowB) (toInfo rowB) tt eq_refl scenario_keys_unique
           H3 H3 H4 H4 eq_refl).
Defined.

Lemma change_touches_only_the_subtree_witness :
  Addresses keyById true scenarioTree 0 [KStr "a"; KStr "c"] (leaf "c") 2
  /\ produce (NewValue (St := unit) (PNode replacement)) (leaf "c") 2 tt
     = (tt, PNode replacement)
  /\ asEdit (PNode replacement) = Some (Some replacement)
  /\ exists t' before after,
       changeNodeAtPath noId (pureKey keyById) [KStr "a"; KStr "c"]
         (NewValue (PNode replacement)) true scenarioTree tt
       = (tt, Ok (Items t'))
       /\ map (fun x => (fields x, expanded x)) (treeNodes scenarioTree)
          = (before ++ map (fun x => (fields x, expanded x))
                         (nodesOf (leaf "c")) ++ after)%list
       /\ map (fun x => (fields x, expanded x)) (treeNodes t')
          = (before ++ map (fun x => (fields x, expanded x))
                         (nodesOf replacement) ++ after)%list.
Proof.
  assert (H2 : produce (NewValue (St := unit) (PNode replacement)) (leaf "c")
                 2 tt = (tt, PNode replacement)) by reflexivity.
  assert (H3 : asEdit (PNode replacement) = Some (Some replacement))
    by reflexivity.
  split; [exact scenario_addresses_c|]. split; [exact H2|]. split; [exact H3|].
  exact (@change_touches_only_the_subtree string noId keyById true unit
           (NewValue (PNode replacement)) scenarioTree [KStr "a"; KStr "c"]
           (leaf "c") 2 (Some replacement) tt tt (PNode replacement)
           scenario_addresses_c H2 H3).
Defined.

Lemma removed_path_is_off_the_tree_witness :
  Addresses (fun n _ => labelById (fields n)) true scenarioTree 0
    [KStr "a"; KStr "c"] (leaf "c") 2
  /\ exists t',
       removeNodeAtPath noId (pureKey (fun n _ => labelById (fields n)))
         scenarioTree [KStr "a"; KStr "c"] true tt
       = (tt, Ok (Items t'))
       /\ ~ pathMatches (fun n _ => labelById (fields n)) true t'
            [KStr "a"; KStr "c"]
       /\ exists e,
            snd (removeNodeAtPath noId
                   (pureKey (fun n _ => labelById (fields n))) t'
                   [KStr "a"; KStr "c"] true tt)
            = Throw e.
Proof.
  split; [exact scenario_addresses_c|].
  exact (@removed_path_is_off_the_tree string noId labelById true unit
           scenarioTree [KStr "a"; KStr "c"] (leaf "c") 2 tt
           scenario_addresses_c).
Defined.

Lemma mutation_raises_only_its_two_errors_witness :
  forallb (@arrayOnly string) scenarioTree = true
  /\ [KStr "d"; KStr "x"] <> []
  /\ exists s',
       (exists changed,
           changeNodeAtPath noId (pureKey keyById) [KStr "d"; KStr "x"]
             (NewValue (PNode replacement)) true scenarioTree tt
           = (s', Ok (Items changed)))
       \/ changeNodeAtPath noId (pureKey keyById) [KStr "d"; KStr "x"]
            (NewValue (PNode replacement)) true scenarioTree tt
          = (s', Throw NoNodeFound)
       \/ changeNodeAtPath noId (pureKey keyById) [KStr "d"; KStr "x"]
            (NewValue (PNode replacement)) true scenarioTree tt
          = (s', Throw NoChildrenOnPath).
Proof.
  assert (H2 : [KStr "d"; KStr "x"] <> []) by discriminate.
  split; [reflexivity|]. split; [exact H2|].
  exact (@mutation_raises_only_its_two_errors string noId unit
           (pureKey keyById) [KStr "d"; KStr "x"]
           (NewValue (PNode replacement)) true scenarioTree tt eq_refl H2).
Defined.

Lemma round_trip_on_seekable_trees_witness :
  treeSeekable scenarioTree = true
  /\ keysUniqueAmongSiblings keyById scenarioTree
  /\ 0 <= 2 < getVisibleNodeCount scenarioTree
  /\ exists r,
       getVisibleNodeInfoAtIndex noId (pureKey keyById) scenarioTree 2 tt
       = (tt, Ok (Some r))
       /\ fst (changeNodeAtPath noId (pureKey keyById) (path r)
                 (recordingProducer sameNode) true scenarioTree [])
          = [ProducerCalled (node r) 2].
Proof.
  split; [reflexivity|]. split; [exact scenario_keys_unique|].
  split; [exact scenario_range_2|].
  exact (@round_trip_on_seekable_trees string noId keyById sameNode
           scenarioTree 2 eq_refl scenario_keys_unique scenario_range_2).
Defined.

Lemma ignoreCollapsed_only_numbers_the_nodes_witness :
  forallb (@arrayOnly string) collapsedTree = true
  /\ changeNodeAtPath noId (pureKey (fun n _ => labelById (fields n)))
       [KStr "d"] (NewValue PNull) true collapsedTree tt
     = changeNodeAtPath noId (pureKey (fun n _ => labelById (fields n)))
         [KStr "d"] (NewValue PNull) false collapsedTree tt.
Proof.
  split; [reflexivity|].
  exact (@ignoreCollapsed_only_numbers_the_nodes string noId unit labelById
           [KStr "d"] PNull collapsedTree tt eq_refl).
Defined.

Lemma emptied_addresses_a :
  Addresses keyById true [branch "a" (Some true) []; leaf "d"] 0 [KStr "a"]
    (branch "a" (Some true) []) 0.
Proof.
  eapply addr_here with (idx' := 1); [reflexivity | reflexivity |].
  eapply none_cons with (idx' := 2); [discriminate | reflexivity | constructor].
Qed.

Lemma path_past_an_empty_array_finds_no_node_witness :
  Addresses keyById true [branch "a" (Some true) []; leaf "d"] 0 [KStr "a"]
    (branch "a" (Some true) []) 0
  /\ [KStr "b"] <> []
  /\ (children (branch "a" (Some true) []) = Items []
      \/ children (branch "a" (Some true) []) = Lazy 0)
  /\ changeNodeAtPath noId (pureKey keyById) ([KStr "a"] ++ [KStr "b"])
       (NewValue PNull) true [branch "a" (Some true) []; leaf "d"] tt
     = (tt, Throw NoNodeFound).
Proof.
  assert (H2 : [KStr "b"] <> []) by discriminate.
  assert (H3 : children (branch "a" (Some true) []) = Items []
               \/ children (branch "a" (Some true) []) = Lazy 0)
    by (left; reflexivity).
  split; [exact emptied_addresses_a|]. split; [exact H2|]. split; [exact H3|].
  exact (@path_past_an_empty_array_finds_no_node string noId unit keyById
           (NewValue PNull) true [branch "a" (Some true) []; leaf "d"]
           [KStr "a"] [KStr "b"] (branch "a" (Some true) []) 0 tt
           emptied_addresses_a H2 H3).
Defined.

Close Scope string_scope.
